(** * Flat resolution (Barnes): a shallow embedding of
      [flat_resolution_parallel.h] and the properties of its five passes.

    Conventions of the embedding.
    - The C++ [int] is [Z]; signed overflow is undefined in the source and the
      counters of the passes are bounded by the number of cells, so no
      wrap-around is written.
    - The template types [T] (elevations) and [U] (flow directions) are [Z];
      the source only compares them with [==], [!=] and [<].
    - [std::deque<grid_cell>] and [std::queue<grid_cell>] are lists: [front]
      is the head, [push_back] appends at the end.
    - [std::vector<int>] is a [list Z] subscripted by a [Z].
    - Every [while] loop is run by [while_loop] with a fuel computed from the
      size of the grid; [None] means that the fuel ran out, and the
      termination theorems show that it does not on well-formed inputs. *)

From Stdlib Require Import ZArith List Lia Bool.
Import ListNotations.
Open Scope Z_scope.

(* ------------------------------------------------------------------ *)
(** ** Grid cells and the D8 neighbourhood *)

Definition grid_cell : Type := (Z * Z)%type.

Definition cell_eqb (a b : grid_cell) : bool :=
  (fst a =? fst b) && (snd a =? snd b).

(** Modelled from the spec: the tables [dx] and [dy] are declared in
    [utility.h].  They list "the eight cardinal and diagonal neighbors of a
    grid cell" at the indices 1 to 8; index 0 is the cell itself. *)
Definition dx : list Z := [0; -1; -1; 0; 1; 1; 1; 0; -1].
Definition dy : list Z := [0; 0; -1; -1; -1; 0; 1; 1; 1].

(** [(x+dx[n], y+dy[n])] *)
Definition neighbour (c : grid_cell) (n : nat) : grid_cell :=
  (fst c + nth n dx 0, snd c + nth n dy 0).

(** [for(int n=1;n<=8;n++)] *)
Definition directions : list nat := seq 1 8.

Definition neighbours (c : grid_cell) : list grid_cell :=
  map (neighbour c) directions.

(** Modelled from the spec: the macro [IN_GRID] of [utility.h], whose
    "bounds checks return a definite in/out-of-range result". *)
Definition IN_GRID (c : grid_cell) (x_max y_max : Z) : bool :=
  (fst c >=? 0) && (snd c >=? 0) && (fst c <? x_max) && (snd c <? y_max).

(** Modelled from the spec: the flow-direction code [NO_FLOW] of [utility.h],
    "this cell has no defined downslope direction".  Its value is immaterial:
    the passes only test equality with it. *)
Definition NO_FLOW : Z := -1.

(* ------------------------------------------------------------------ *)
(** ** The grid container *)

(** Modelled from the spec: [array2d] of [data_structures.h] is a "supplied
    abstraction", a dense array indexed by a coordinate pair that carries
    its dimensions and a no-data value.  A read outside the dimensions is
    undefined in the source; here the store is total. *)
Record array2d : Type := mk_array2d {
  width : Z;
  height : Z;
  no_data : Z;
  data : grid_cell -> Z
}.

(** [g(x,y)] as an rvalue. *)
Definition aget (g : array2d) (c : grid_cell) : Z := data g c.

(** [g(x,y)=v] *)
Definition aset (g : array2d) (c : grid_cell) (v : Z) : array2d :=
  {| width := width g; height := height g; no_data := no_data g;
     data := fun c' => if cell_eqb c c' then v else data g c' |}.

(** [g.init(v)] *)
Definition init (g : array2d) (v : Z) : array2d :=
  {| width := width g; height := height g; no_data := no_data g;
     data := fun _ => v |}.

(** [g.resize(w,h,false)]: the contents are not preserved; every call in the
    source is followed by [init]. *)
Definition resize (g : array2d) (w h : Z) : array2d :=
  {| width := w; height := h; no_data := no_data g; data := data g |}.

(** [g.no_data=v] *)
Definition set_no_data (g : array2d) (v : Z) : array2d :=
  {| width := width g; height := height g; no_data := v; data := data g |}.

(** [int_2d g(other,true)]: a grid with the dimensions of [other]. *)
Definition int_2d_like (other : array2d) : array2d :=
  {| width := width other; height := height other; no_data := no_data other;
     data := fun _ => 0 |}.

Definition in_grid (g : array2d) (c : grid_cell) : bool :=
  IN_GRID c (width g) (height g).

(** The cells of a grid in the order of [for x ... for y ...]. *)
Definition zrange (n : Z) : list Z := map Z.of_nat (seq 0 (Z.to_nat n)).

Definition cells_of (w h : Z) : list grid_cell :=
  flat_map (fun x => map (fun y => (x, y)) (zrange h)) (zrange w).

Definition cells (g : array2d) : list grid_cell :=
  cells_of (width g) (height g).

(* ------------------------------------------------------------------ *)
(** ** Vectors subscripted by an [int] *)

(** [std::vector<int> v(n)]: [n] zeros. *)
Definition vec_make (n : Z) : list Z := repeat 0 (Z.to_nat n).

Definition vec_in_range (v : list Z) (i : Z) : bool :=
  (0 <=? i) && (i <? Z.of_nat (length v)).

Fixpoint list_update (v : list Z) (i : nat) (a : Z) : list Z :=
  match v, i with
  | [], _ => []
  | _ :: t, O => a :: t
  | h :: t, S j => h :: list_update t j a
  end.

(** [v[i]=a]; outside the vector the source is undefined, the model leaves
    the vector as it is. *)
Definition vec_set (v : list Z) (i : Z) (a : Z) : list Z :=
  if vec_in_range v i then list_update v (Z.to_nat i) a else v.

(** [v[i]] as an rvalue; outside the vector the model reads 0. *)
Definition vec_get (v : list Z) (i : Z) : Z :=
  if vec_in_range v i then nth (Z.to_nat i) v 0 else 0.

(* ------------------------------------------------------------------ *)
(** ** Loops *)

(** [while(cond){body}] with a bound on the number of iterations. *)
Fixpoint while_loop {S : Type} (cond : S -> bool) (body : S -> S)
         (fuel : nat) (s : S) : option S :=
  match fuel with
  | O => if cond s then None else Some s
  | Datatypes.S f => if cond s then while_loop cond body f (body s) else Some s
  end.

(* ------------------------------------------------------------------ *)
(** ** find_flat_edges *)

Inductive edge_kind : Type := LowEdge | HighEdge.

(** The loop over the eight neighbours of [(x,y)], with its two [break]s. *)
Fixpoint scan_neighbours (flowdirs elevations : array2d) (c : grid_cell)
         (ns : list nat) : option edge_kind :=
  match ns with
  | [] => None
  | n :: ns' =>
    let nc := neighbour c n in
    if negb (in_grid flowdirs nc) then scan_neighbours flowdirs elevations c ns'
    else if aget flowdirs nc =? no_data flowdirs
    then scan_neighbours flowdirs elevations c ns'
    else if negb (aget flowdirs c =? NO_FLOW) && (aget flowdirs nc =? NO_FLOW)
            && (aget elevations nc =? aget elevations c)
    then Some LowEdge
    else if (aget flowdirs c =? NO_FLOW)
            && (aget elevations c <? aget elevations nc)
    then Some HighEdge
    else scan_neighbours flowdirs elevations c ns'
  end.

(** The body of the two [for] loops over [x] and [y]. *)
Definition visit_cell (flowdirs elevations : array2d)
           (q : list grid_cell * list grid_cell) (c : grid_cell)
  : list grid_cell * list grid_cell :=
  if aget flowdirs c =? no_data flowdirs then q
  else match scan_neighbours flowdirs elevations c directions with
       | Some LowEdge => (fst q ++ [c], snd q)
       | Some HighEdge => (fst q, snd q ++ [c])
       | None => q
       end.

(** Returns the pair [(low_edges, high_edges)]. *)
Definition find_flat_edges (low_edges high_edges : list grid_cell)
           (flowdirs elevations : array2d)
  : list grid_cell * list grid_cell :=
  fold_left (visit_cell flowdirs elevations) (cells flowdirs)
            (low_edges, high_edges).

(* ------------------------------------------------------------------ *)
(** ** label_this *)

Record lt_state : Type := mk_lt {
  lt_labels : array2d;
  lt_to_fill : list grid_cell
}.

Definition label_this_cond (s : lt_state) : bool :=
  (0 <? Z.of_nat (length (lt_to_fill s))).

Definition label_this_body (label target_elevation : Z) (elevations : array2d)
           (s : lt_state) : lt_state :=
  match lt_to_fill s with
  | [] => s
  | c :: rest =>
    if negb (aget elevations c =? target_elevation)
       || (aget (lt_labels s) c >? -1)
    then {| lt_labels := lt_labels s; lt_to_fill := rest |}
    else {| lt_labels := aset (lt_labels s) c label;
            lt_to_fill := rest ++ filter (in_grid (lt_labels s)) (neighbours c) |}
  end.

Definition label_this_fuel (labels : array2d) : nat :=
  (8 * length (cells labels) + 1)%nat.

Definition label_this (c : grid_cell) (label : Z) (labels elevations : array2d)
  : option array2d :=
  option_map lt_labels
    (while_loop label_this_cond
       (label_this_body label (aget elevations c) elevations)
       (label_this_fuel labels)
       {| lt_labels := labels; lt_to_fill := [c] |}).

(* ------------------------------------------------------------------ *)
(** ** BuildGradient *)

Definition iteration_marker : grid_cell := (-1, -1).

Record bg_state : Type := mk_bg {
  bg_incrementations : array2d;
  bg_edges : list grid_cell;
  bg_flat_height : list Z;
  bg_loops : Z;
  (** ghost: the cells [(x,y)] that were given an incrementation, and at
      which [flat_height[labels(x,y)]] was written, latest first *)
  bg_assigned : list grid_cell
}.

Definition BuildGradient_cond (s : bg_state) : bool :=
  negb (Z.of_nat (length (bg_edges s)) =? 1).

(** The neighbours pushed by the inner [for] loop. *)
Definition flat_neighbours (elevations flowdirs : array2d) (c : grid_cell)
  : list grid_cell :=
  filter (fun nc => in_grid elevations nc
                    && (aget elevations nc =? aget elevations c)
                    && (aget flowdirs nc =? NO_FLOW))
         (neighbours c).

Definition BuildGradient_body (elevations flowdirs labels : array2d)
           (s : bg_state) : bg_state :=
  match bg_edges s with
  | [] => s
  | c :: rest =>
    if fst c =? -1 then
      {| bg_incrementations := bg_incrementations s;
         bg_edges := rest ++ [iteration_marker];
         bg_flat_height := bg_flat_height s;
         bg_loops := bg_loops s + 1;
         bg_assigned := bg_assigned s |}
    else if aget (bg_incrementations s) c >? 0 then
      {| bg_incrementations := bg_incrementations s;
         bg_edges := rest;
         bg_flat_height := bg_flat_height s;
         bg_loops := bg_loops s;
         bg_assigned := bg_assigned s |}
    else
      {| bg_incrementations := aset (bg_incrementations s) c (bg_loops s);
         bg_edges := rest ++ flat_neighbours elevations flowdirs c;
         bg_flat_height :=
           vec_set (bg_flat_height s) (aget labels c) (bg_loops s);
         bg_loops := bg_loops s;
         bg_assigned := c :: bg_assigned s |}
  end.

Definition BuildGradient_init (incrementations : array2d)
           (edges : list grid_cell) (flat_height : list Z) : bg_state :=
  {| bg_incrementations := incrementations;
     bg_edges := edges ++ [iteration_marker];
     bg_flat_height := flat_height;
     bg_loops := 1;
     bg_assigned := [] |}.

Definition BuildGradient_fuel (incrementations : array2d)
           (edges : list grid_cell) : nat :=
  (17 * length (cells incrementations) + 2 * length edges + 3)%nat.

Definition BuildGradient (elevations flowdirs incrementations : array2d)
           (edges : list grid_cell) (flat_height : list Z) (labels : array2d)
  : option bg_state :=
  while_loop BuildGradient_cond
    (BuildGradient_body elevations flowdirs labels)
    (BuildGradient_fuel incrementations edges)
    (BuildGradient_init incrementations edges flat_height).

(* ------------------------------------------------------------------ *)
(** ** CombineGradients *)

Record cg_state : Type := mk_cg {
  cg_towards : array2d;
  cg_mask : array2d;
  cg_edge : list grid_cell;
  (** ghost: the cells [(x,y)] at which [flat_height[labels(x,y)]] was
      read, latest first *)
  cg_read : list grid_cell
}.

Definition CombineGradients_cond (s : cg_state) : bool :=
  negb (Z.of_nat (length (cg_edge s)) =? 0).

(** The neighbours pushed by the inner [for] loop: no test of the flow
    direction here. *)
Definition level_neighbours (elevations : array2d) (c : grid_cell)
  : list grid_cell :=
  filter (fun nc => in_grid elevations nc
                    && (aget elevations nc =? aget elevations c))
         (neighbours c).

(** The value written to [flat_resolution_mask(x,y)] when [towards(x,y)>0]. *)
Definition combined (towards_c away_c height_c : Z) : Z :=
  if away_c >? 0 then 2 * (towards_c - 1) + (height_c - away_c + 1)
  else 2 * (towards_c - 1).

Definition CombineGradients_body (elevations away : array2d)
           (flat_height : list Z) (labels : array2d) (s : cg_state)
  : cg_state :=
  match cg_edge s with
  | [] => s
  | c :: rest =>
    if aget (cg_towards s) c =? -1 then
      {| cg_towards := cg_towards s; cg_mask := cg_mask s; cg_edge := rest;
         cg_read := cg_read s |}
    else
      {| cg_towards := aset (cg_towards s) c (-1);
         cg_mask :=
           if aget (cg_towards s) c >? 0
           then aset (cg_mask s) c
                     (combined (aget (cg_towards s) c) (aget away c)
                               (vec_get flat_height (aget labels c)))
           else cg_mask s;
         cg_edge := rest ++ level_neighbours elevations c;
         cg_read :=
           if (aget (cg_towards s) c >? 0) && (aget away c >? 0)
           then c :: cg_read s
           else cg_read s |}
  end.

Definition CombineGradients_fuel (towards : array2d) (edge : list grid_cell)
  : nat :=
  (8 * length (cells towards) + length edge)%nat.

Definition CombineGradients (elevations towards away flat_resolution_mask : array2d)
           (edge : list grid_cell) (flat_height : list Z) (labels : array2d)
  : option cg_state :=
  while_loop CombineGradients_cond
    (CombineGradients_body elevations away flat_height labels)
    (CombineGradients_fuel towards edge)
    {| cg_towards := towards; cg_mask := flat_resolution_mask;
       cg_edge := edge; cg_read := [] |}.

(* ------------------------------------------------------------------ *)
(** ** resolve_flats_barnes *)

(** The reports of the orchestrator and of the passes it calls.  The
    estimates of memory, the progress bar and the "succeeded" lines are
    left out. *)
Inductive diagnostic : Type :=
| SearchingForFlats        (* find_flat_edges is entered *)
| FlatsWithoutOutlets      (* "There were flats, but none of them had outlets!" *)
| NoFlats                  (* "There were no flats!" *)
| LabelingFlats            (* "Labeling flats..." *)
| FoundUniqueFlats (n : Z) (* "Found %d unique flats." *)
| NotAllFlatsHaveOutlets   (* "Not all flats have outlets; ..." *)
| BarnesStep               (* BuildGradient is entered *)
| CombiningSteps.          (* CombineGradients is entered *)

(** The loop [for(i=low_edges.begin();...) if(labels(i)==-1) label_this(...)],
    returning the labels and [group_number]. *)
Fixpoint label_flats (elevations : array2d) (low_edges : list grid_cell)
         (labels : array2d) (group_number : Z) : option (array2d * Z) :=
  match low_edges with
  | [] => Some (labels, group_number)
  | i :: rest =>
    if aget labels i =? -1 then
      match label_this i group_number labels elevations with
      | Some labels' => label_flats elevations rest labels' (group_number + 1)
      | None => None
      end
    else label_flats elevations rest labels group_number
  end.

(** The loop that copies to [temp] the high edges that have a label. *)
Definition labelled_high_edges (labels : array2d) (high_edges : list grid_cell)
  : list grid_cell :=
  filter (fun i => negb (aget labels i =? -1)) high_edges.

(** What a run leaves behind.  [run_mask] and [run_labels] are the two
    reference parameters on return and [run_report] the diagnostics; the
    other fields are the locals of the orchestrator, kept for the theorems.
    On the early return the gradients are never allocated and the record
    holds zero grids for them, an empty height table and the two queues as
    [find_flat_edges] left them. *)
Record run : Type := mk_run {
  run_mask : array2d;
  run_labels : array2d;
  run_report : list diagnostic;
  run_low_edges : list grid_cell;
  run_high_edges : list grid_cell;   (* [temp]: the labelled high edges *)
  run_group_number : Z;
  run_towards : array2d;             (* after the first BuildGradient *)
  run_away : array2d;                (* after the second BuildGradient *)
  run_flat_height : list Z;          (* after the second BuildGradient *)
  run_subscripts : list Z            (* every subscript of flat_height *)
}.

Definition resolve_flats_barnes
           (elevations flowdirs flat_resolution_mask labels : array2d)
  : option run :=
  let labels := init (resize labels (width flowdirs) (height flowdirs)) (-1) in
  let flat_resolution_mask :=
    set_no_data
      (init (resize flat_resolution_mask (width flowdirs) (height flowdirs)) (-1))
      (-1) in
  let edges := find_flat_edges [] [] flowdirs elevations in
  let low_edges := fst edges in
  let high_edges := snd edges in
  if Z.of_nat (length low_edges) =? 0 then
    Some {| run_mask := flat_resolution_mask;
            run_labels := labels;
            run_report :=
              [SearchingForFlats;
               if Z.of_nat (length high_edges) >? 0
               then FlatsWithoutOutlets else NoFlats];
            run_low_edges := low_edges;
            run_high_edges := high_edges;
            run_group_number := 0;
            run_towards := init (int_2d_like elevations) 0;
            run_away := init (int_2d_like elevations) 0;
            run_flat_height := [];
            run_subscripts := [] |}
  else
    match label_flats elevations low_edges labels 0 with
    | None => None
    | Some (labels, group_number) =>
      let temp := labelled_high_edges labels high_edges in
      let warning :=
        if Z.of_nat (length temp) <? Z.of_nat (length high_edges)
        then [NotAllFlatsHaveOutlets] else [] in
      let towards := init (int_2d_like elevations) 0 in
      let away := init (int_2d_like elevations) 0 in
      let flat_height := vec_make group_number in
      match BuildGradient elevations flowdirs towards low_edges
                          flat_height labels with
      | None => None
      | Some t =>
        match BuildGradient elevations flowdirs away temp
                            (bg_flat_height t) labels with
        | None => None
        | Some a =>
          match CombineGradients elevations (bg_incrementations t)
                                 (bg_incrementations a) flat_resolution_mask
                                 low_edges (bg_flat_height a) labels with
          | None => None
          | Some m =>
            Some {| run_mask := cg_mask m;
                    run_labels := labels;
                    run_report :=
                      [SearchingForFlats; LabelingFlats;
                       FoundUniqueFlats group_number]
                        ++ warning ++ [BarnesStep; BarnesStep; CombiningSteps];
                    run_low_edges := low_edges;
                    run_high_edges := temp;
                    run_group_number := group_number;
                    run_towards := bg_incrementations t;
                    run_away := bg_incrementations a;
                    run_flat_height := bg_flat_height a;
                    run_subscripts :=
                      map (aget labels)
                          (cg_read m ++ bg_assigned a ++ bg_assigned t) |}
          end
        end
      end
    end.

(* ------------------------------------------------------------------ *)
(** ** Concrete grids for the scenarios *)

(** A grid given by its rows; cells outside read [dflt]. *)
Definition grid_of_rows (rows : list (list Z)) (nd dflt : Z) : array2d :=
  {| width := Z.of_nat (length (hd [] rows));
     height := Z.of_nat (length rows);
     no_data := nd;
     data := fun c =>
       if IN_GRID c (Z.of_nat (length (hd [] rows))) (Z.of_nat (length rows))
       then nth (Z.to_nat (fst c)) (nth (Z.to_nat (snd c)) rows []) dflt
       else dflt |}.

(** A flow direction that is defined: neither [NO_FLOW] nor no-data. *)
Definition DEFINED : Z := 1.

(** The single-row scenario: elevations [5,5,5], flow directions
    [DEFINED, NO_FLOW, NO_FLOW]. *)
Definition row_elevations : array2d := grid_of_rows [[5; 5; 5]] (-9999) (-9999).
Definition row_flowdirs : array2d :=
  grid_of_rows [[DEFINED; NO_FLOW; NO_FLOW]] (-100) (-100).
Definition blank : array2d := mk_array2d 0 0 0 (fun _ => 0).

Definition row_run : option run :=
  resolve_flats_barnes row_elevations row_flowdirs blank blank.

(* ------------------------------------------------------------------ *)
(** ** Vocabulary of the statements *)

(** Number of cells of [l] that satisfy [p]. *)
Definition count (p : grid_cell -> bool) (l : list grid_cell) : nat :=
  length (filter p l).

(** One step between 8-neighbours of equal elevation inside the grid [g]. *)
Definition level_step (g elevations : array2d) (c n : grid_cell) : Prop :=
  in_grid g c = true /\ in_grid g n = true /\ In n (neighbours c)
  /\ aget elevations n = aget elevations c.

(** [n] is joined to [c] by a path of 8-neighbours of equal elevation. *)
Inductive level_reach (g elevations : array2d) (c : grid_cell)
  : grid_cell -> Prop :=
| level_here : in_grid g c = true -> level_reach g elevations c c
| level_next n m :
    level_reach g elevations c n -> level_step g elevations n m ->
    level_reach g elevations c m.

(** One step of the expansion of [BuildGradient]: to a neighbour of equal
    elevation that has no flow direction. *)
Definition flat_step (elevations flowdirs : array2d) (c n : grid_cell) : Prop :=
  In n (flat_neighbours elevations flowdirs c).

(** [c] is a seed or is joined to a seed by steps of [flat_step]. *)
Inductive flat_reach (elevations flowdirs : array2d) (seeds : list grid_cell)
  : grid_cell -> Prop :=
| flat_seed c : In c seeds -> flat_reach elevations flowdirs seeds c
| flat_next c n :
    flat_reach elevations flowdirs seeds c ->
    flat_step elevations flowdirs c n ->
    flat_reach elevations flowdirs seeds n.

(** The two grids have the same dimensions. *)
Definition same_dimensions (a b : array2d) : Prop :=
  width a = width b /\ height a = height b.

(** What [find_flat_edges] puts in [low_edges]: a cell of the grid whose flow
    direction is defined and that has a neighbour without flow direction at
    the same elevation. *)
Definition is_low_edge (flowdirs elevations : array2d) (c : grid_cell) : Prop :=
  in_grid flowdirs c = true
  /\ aget flowdirs c <> no_data flowdirs
  /\ aget flowdirs c <> NO_FLOW
  /\ exists n, In n (neighbours c) /\ in_grid flowdirs n = true
               /\ aget flowdirs n <> no_data flowdirs
               /\ aget flowdirs n = NO_FLOW
               /\ aget elevations n = aget elevations c.

(** What [find_flat_edges] puts in [high_edges]: a cell of the grid without
    flow direction that has a strictly higher neighbour. *)
Definition is_high_edge (flowdirs elevations : array2d) (c : grid_cell) : Prop :=
  in_grid flowdirs c = true
  /\ aget flowdirs c <> no_data flowdirs
  /\ aget flowdirs c = NO_FLOW
  /\ exists n, In n (neighbours c) /\ in_grid flowdirs n = true
               /\ aget flowdirs n <> no_data flowdirs
               /\ aget elevations c < aget elevations n.

(** The low-edge rule in the words of the specification: "a flat cell is a
    low edge if it has a neighbor with a defined flow direction at the same
    elevation". *)
Definition spec_low_edge (flowdirs elevations : array2d) (c : grid_cell) : Prop :=
  aget flowdirs c = NO_FLOW
  /\ exists n, In n (neighbours c) /\ in_grid flowdirs n = true
               /\ aget flowdirs n <> NO_FLOW
               /\ aget flowdirs n <> no_data flowdirs
               /\ aget elevations n = aget elevations c.

(** The three cells of the single-row scenario. *)
Definition row_cells : list grid_cell := [(0, 0); (1, 0); (2, 0)].

(** The outcome of the single-row scenario in the words of the
    specification: cell 1 is the low edge, cell 2 is in the region of cell 1,
    the distances are 1 and 2 and the mask values 0 and 2. *)
Definition spec_single_row (r : run) : Prop :=
  In (1, 0) (run_low_edges r)
  /\ aget (run_labels r) (2, 0) = aget (run_labels r) (1, 0)
  /\ aget (run_labels r) (1, 0) <> -1
  /\ aget (run_towards r) (1, 0) = 1
  /\ aget (run_towards r) (2, 0) = 2
  /\ aget (run_mask r) (1, 0) = 0
  /\ aget (run_mask r) (2, 0) = 2.

(** What is observed of a run on the single row. *)
Definition row_view (r : run)
  : list grid_cell * list Z * list Z * list Z * list Z :=
  (run_low_edges r,
   map (aget (run_labels r)) row_cells,
   map (aget (run_towards r)) row_cells,
   map (aget (run_away r)) row_cells,
   map (aget (run_mask r)) row_cells).

(** Grids of different widths: three elevations, two flow directions. *)
Definition wide_elevations : array2d := grid_of_rows [[5; 5; 7]] (-9999) (-9999).
Definition narrow_flowdirs : array2d :=
  grid_of_rows [[DEFINED; NO_FLOW]] (-100) (-100).

(** The specification's handling of mismatched dimensions: the run is
    refused before the traversal of [find_flat_edges] begins. *)
Definition spec_mismatch_refused
           (elevations flowdirs flat_resolution_mask labels : array2d) : Prop :=
  ~ same_dimensions elevations flowdirs ->
  forall r,
    resolve_flats_barnes elevations flowdirs flat_resolution_mask labels = Some r ->
    ~ In SearchingForFlats (run_report r).

(** A flat below a higher cell and no cell with a flow direction. *)
Definition pit_elevations : array2d := grid_of_rows [[5; 7]] (-9999) (-9999).
Definition pit_flowdirs : array2d :=
  grid_of_rows [[NO_FLOW; NO_FLOW]] (-100) (-100).

(** A flat of two cells between a draining cell and a higher cell. *)
Definition ridge_elevations : array2d :=
  grid_of_rows [[5; 5; 5; 7]] (-9999) (-9999).
Definition ridge_flowdirs : array2d :=
  grid_of_rows [[DEFINED; NO_FLOW; NO_FLOW; DEFINED]] (-100) (-100).
Definition ridge_cells : list grid_cell := [(0, 0); (1, 0); (2, 0); (3, 0)].

(* ------------------------------------------------------------------ *)
(** ** Measures and invariants of the loops *)

(** [labels(x,y)>-1] is false. *)
Definition unlabelled (labels : array2d) (c : grid_cell) : bool :=
  negb (aget labels c >? -1).

Definition label_this_measure (s : lt_state) : nat :=
  (8 * count (unlabelled (lt_labels s)) (cells (lt_labels s))
   + length (lt_to_fill s))%nat.

(** The queue of [label_this] holds cells of the grid. *)
Definition lt_wf (g : array2d) (s : lt_state) : Prop :=
  same_dimensions (lt_labels s) g
  /\ Forall (fun c => in_grid g c = true) (lt_to_fill s).

(** The state of the labels between two calls of [label_this]: [seeds] are
    the low edges gone through so far and [group_number] the next label. *)
Record labelling_ok (g elevations labels : array2d) (group_number : Z)
       (seeds : list grid_cell) : Prop := mk_labelling_ok {
  lab_dims : same_dimensions labels g;
  lab_range : forall c, -1 <= aget labels c < group_number;
  lab_in_grid : forall c, aget labels c <> -1 -> in_grid g c = true;
  lab_closed : forall c n,
      aget labels c <> -1 -> level_step g elevations c n ->
      aget labels n = aget labels c;
  lab_connected : forall c c',
      aget labels c <> -1 -> aget labels c' = aget labels c ->
      level_reach g elevations c c';
  lab_seeds : forall s, In s seeds -> aget labels s <> -1;
  lab_from_seed : forall c,
      aget labels c <> -1 ->
      exists s, In s seeds /\ level_reach g elevations s c
}.

(** The state of the flood fill of [label_this] from [seed] with the label
    [k], started on the labels [labels0]. *)
Record lt_inv (g elevations labels0 : array2d) (k : Z) (seed : grid_cell)
       (s : lt_state) : Prop := mk_lt_inv {
  lti_dims : same_dimensions (lt_labels s) g;
  lti_queue : forall q,
      In q (lt_to_fill s) ->
      in_grid g q = true
      /\ (aget elevations q = aget elevations seed ->
          level_reach g elevations seed q);
  lti_frame : forall c,
      aget (lt_labels s) c = aget labels0 c
      \/ (aget labels0 c = -1 /\ aget (lt_labels s) c = k);
  lti_new : forall c,
      aget (lt_labels s) c = k -> level_reach g elevations seed c;
  lti_front : forall c n,
      aget (lt_labels s) c = k -> level_step g elevations c n ->
      aget (lt_labels s) n = k \/ In n (lt_to_fill s);
  lti_seed : aget (lt_labels s) seed = k \/ In seed (lt_to_fill s)
}.

(** [incrementations(x,y)>0] is false. *)
Definition unvisited (incrementations : array2d) (c : grid_cell) : bool :=
  negb (aget incrementations c >? 0).

(** 1 when the iteration marker is at the front of the queue. *)
Definition marker_in_front (edges : list grid_cell) : nat :=
  match edges with
  | c :: _ => if fst c =? -1 then 1%nat else 0%nat
  | [] => 0%nat
  end.

Definition BuildGradient_measure (g : array2d) (s : bg_state) : nat :=
  (17 * count (unvisited (bg_incrementations s)) (cells g)
   + 2 * length (bg_edges s) + marker_in_front (bg_edges s))%nat.

(** The shape of the state of [BuildGradient] on a grid with the dimensions
    of [g], started on [incrementations0]: one marker in a queue of cells of
    the grid, a positive counter, and each cell given an incrementation at
    most once. *)
Record bg_wf (g incrementations0 : array2d) (s : bg_state) : Prop := mk_bg_wf {
  bgw_dims : same_dimensions (bg_incrementations s) g;
  bgw_loops : 1 <= bg_loops s;
  bgw_queue : exists A B,
      bg_edges s = A ++ iteration_marker :: B
      /\ Forall (fun c => in_grid g c = true) (A ++ B);
  bgw_frame : forall c,
      (~ In c (bg_assigned s)
       /\ aget (bg_incrementations s) c = aget incrementations0 c)
      \/ (In c (bg_assigned s) /\ aget incrementations0 c <= 0
          /\ 1 <= aget (bg_incrementations s) c <= bg_loops s);
  bgw_once : NoDup (bg_assigned s);
  bgw_assigned : Forall (fun c => in_grid g c = true) (bg_assigned s)
}.

(** The state of [BuildGradient] in a run of the orchestrator: the queue is
    [A], the marker, [B]; the cells of [A] were pushed during the previous
    layer and those of [B] during the current one. *)
Record bg_inv (elevations flowdirs labels : array2d) (seeds : list grid_cell)
       (k : Z) (s : bg_state) : Prop := mk_bg_inv {
  bgi_queue : exists A B,
      bg_edges s = A ++ iteration_marker :: B
      /\ Forall (flat_reach elevations flowdirs seeds) (A ++ B)
      /\ (forall c n,
             0 < aget (bg_incrementations s) c ->
             flat_step elevations flowdirs c n ->
             0 < aget (bg_incrementations s) n <= aget (bg_incrementations s) c + 1
             \/ (aget (bg_incrementations s) c = bg_loops s - 1 /\ In n A)
             \/ (aget (bg_incrementations s) c = bg_loops s /\ In n B));
  bgi_range : forall c, 0 <= aget (bg_incrementations s) c <= bg_loops s;
  bgi_loops : 1 <= bg_loops s;
  bgi_reach : forall c,
      0 < aget (bg_incrementations s) c ->
      flat_reach elevations flowdirs seeds c;
  bgi_height : forall c,
      0 < aget (bg_incrementations s) c ->
      aget (bg_incrementations s) c <= vec_get (bg_flat_height s) (aget labels c);
  bgi_length : Z.of_nat (length (bg_flat_height s)) = k;
  bgi_assigned : Forall (flat_reach elevations flowdirs seeds) (bg_assigned s)
}.

(** [towards(x,y)==-1] is false: the cell was not combined yet. *)
Definition not_combined (towards : array2d) (c : grid_cell) : bool :=
  negb (aget towards c =? -1).

Definition CombineGradients_measure (g : array2d) (s : cg_state) : nat :=
  (8 * count (not_combined (cg_towards s)) (cells g) + length (cg_edge s))%nat.

(** The queue of [CombineGradients] holds cells of the grid. *)
Definition cg_wf (g : array2d) (s : cg_state) : Prop :=
  same_dimensions (cg_towards s) g
  /\ Forall (fun c => in_grid g c = true) (cg_edge s).

(** The state of [CombineGradients] started on [towards0] and [mask0]: a
    cell is either untouched, or it was combined, its [towards] is -1 and its
    mask was written if its distance was positive. *)
Record cg_inv (towards0 away mask0 : array2d) (flat_height : list Z)
       (labels : array2d) (s : cg_state) : Prop := mk_cg_inv {
  cgi_dims : same_dimensions (cg_mask s) mask0
             /\ no_data (cg_mask s) = no_data mask0;
  cgi_cells : forall c,
      (aget (cg_towards s) c = aget towards0 c
       /\ aget (cg_mask s) c = aget mask0 c)
      \/ (aget towards0 c <> -1
          /\ aget (cg_towards s) c = -1
          /\ aget (cg_mask s) c =
             if aget towards0 c >? 0
             then combined (aget towards0 c) (aget away c)
                           (vec_get flat_height (aget labels c))
             else aget mask0 c);
  cgi_read : Forall (fun c => 0 < aget towards0 c /\ 0 < aget away c)
                    (cg_read s)
}.

(** [c'] is joined to [c] by a path of 8-neighbours that all carry the
    label [k]. *)
Inductive region_path (labels : array2d) (k : Z) (c : grid_cell)
  : grid_cell -> Prop :=
| region_here : aget labels c = k -> region_path labels k c c
| region_next n m :
    region_path labels k c n -> In m (neighbours n) -> aget labels m = k ->
    region_path labels k c m.

(** What holds of every run of the orchestrator on grids of the same
    dimensions. *)
Record run_ok (elevations flowdirs : array2d) (r : run) : Prop := mk_run_ok {
  ro_low : run_low_edges r = fst (find_flat_edges [] [] flowdirs elevations);
  ro_high : forall c,
      In c (run_high_edges r) ->
      In c (snd (find_flat_edges [] [] flowdirs elevations));
  ro_labels : labelling_ok flowdirs elevations (run_labels r)
                           (run_group_number r) (run_low_edges r);
  ro_groups : 0 <= run_group_number r;
  ro_height : Z.of_nat (length (run_flat_height r)) = run_group_number r;
  ro_towards : forall c,
      0 < aget (run_towards r) c ->
      flat_reach elevations flowdirs (run_low_edges r) c;
  ro_away : forall c,
      0 < aget (run_away r) c ->
      flat_reach elevations flowdirs (run_high_edges r) c;
  ro_away_layers : forall c n,
      0 < aget (run_away r) c -> flat_step elevations flowdirs c n ->
      0 < aget (run_away r) n <= aget (run_away r) c + 1;
  ro_away_height : forall c,
      0 < aget (run_away r) c ->
      aget (run_away r) c <= vec_get (run_flat_height r) (aget (run_labels r) c);
  ro_mask : forall c,
      aget (run_mask r) c = -1
      \/ (0 < aget (run_towards r) c
          /\ aget (run_mask r) c =
             combined (aget (run_towards r) c) (aget (run_away r) c)
                      (vec_get (run_flat_height r) (aget (run_labels r) c)));
  ro_mask_dims : same_dimensions (run_mask r) flowdirs
                 /\ no_data (run_mask r) = -1;
  ro_subscripts : Forall (fun i => 0 <= i < run_group_number r)
                         (run_subscripts r)
}.

(** The label partition in the words of the specification: a cell has a
    label if and only if it has no flow direction and is reachable from a
    low edge by a path of flat cells of equal elevation. *)
Definition spec_label_partition (elevations flowdirs : array2d) (r : run) : Prop :=
  forall c,
    aget (run_labels r) c <> -1 <->
    (aget flowdirs c = NO_FLOW
     /\ flat_reach elevations flowdirs (run_low_edges r) c).

(** The sentinel in the words of the specification: every cell whose flow
    direction is defined holds -1 in the mask. *)
Definition spec_sentinel (flowdirs : array2d) (r : run) : Prop :=
  forall c, aget flowdirs c <> NO_FLOW -> aget (run_mask r) c = -1.

(* ------------------------------------------------------------------ *)
(** ** Further vocabulary: the passes one by one *)

(** The test under which [visit_cell] pushes the cell on [low_edges]. *)
Definition pushes_low (flowdirs elevations : array2d) (c : grid_cell) : bool :=
  negb (aget flowdirs c =? no_data flowdirs)
  && match scan_neighbours flowdirs elevations c directions with
     | Some LowEdge => true
     | _ => false
     end.

(** The test under which [visit_cell] pushes the cell on [high_edges]. *)
Definition pushes_high (flowdirs elevations : array2d) (c : grid_cell) : bool :=
  negb (aget flowdirs c =? no_data flowdirs)
  && match scan_neighbours flowdirs elevations c directions with
     | Some HighEdge => true
     | _ => false
     end.

(** What [label_this] keeps of the labels [labels0] it is started on,
    whatever they are: a cell keeps its label, or it had none and takes
    [label], and then it is a cell of the grid with the elevation of the
    seed. *)
Record lt_frame (labels0 elevations : array2d) (label : Z) (seed : grid_cell)
       (s : lt_state) : Prop := mk_lt_frame {
  ltf_dims : same_dimensions (lt_labels s) labels0;
  ltf_queue : Forall (fun c => in_grid labels0 c = true) (lt_to_fill s);
  ltf_cells : forall x,
      aget (lt_labels s) x = aget labels0 x
      \/ (aget labels0 x <= -1
          /\ aget (lt_labels s) x = label
          /\ aget elevations x = aget elevations seed
          /\ in_grid labels0 x = true);
  ltf_seed : aget labels0 seed <= -1 ->
             aget (lt_labels s) seed = label \/ In seed (lt_to_fill s)
}.

(** [c] is joined to a seed by a path of exactly [n] steps of
    [flat_step]. *)
Inductive flat_dist (elevations flowdirs : array2d) (seeds : list grid_cell)
  : Z -> grid_cell -> Prop :=
| dist_seed c : In c seeds -> flat_dist elevations flowdirs seeds 0 c
| dist_next n c m :
    flat_dist elevations flowdirs seeds n c ->
    flat_step elevations flowdirs c m ->
    flat_dist elevations flowdirs seeds (n + 1) m.

(** The state of [BuildGradient] as a breadth-first expansion from
    [seeds], whatever the labels: the queue is [A], the marker, [B]; the
    cells of [A] are at [loops - 1] steps from a seed and those of [B] at
    [loops] steps. *)
Record bg_bfs (elevations flowdirs : array2d) (seeds : list grid_cell)
       (s : bg_state) : Prop := mk_bg_bfs {
  bfs_queue : exists A B,
      bg_edges s = A ++ iteration_marker :: B
      /\ Forall (fun c => in_grid elevations c = true
                          /\ flat_dist elevations flowdirs seeds
                                       (bg_loops s - 1) c) A
      /\ Forall (fun c => in_grid elevations c = true
                          /\ flat_dist elevations flowdirs seeds
                                       (bg_loops s) c) B
      /\ (forall c n,
             0 < aget (bg_incrementations s) c ->
             flat_step elevations flowdirs c n ->
             0 < aget (bg_incrementations s) n <= aget (bg_incrementations s) c + 1
             \/ (aget (bg_incrementations s) c = bg_loops s - 1 /\ In n A)
             \/ (aget (bg_incrementations s) c = bg_loops s /\ In n B))
      /\ (forall c, In c seeds ->
                    aget (bg_incrementations s) c = 1
                    \/ (bg_loops s = 1 /\ In c A));
  bfs_range : forall c, 0 <= aget (bg_incrementations s) c <= bg_loops s;
  bfs_loops : 1 <= bg_loops s;
  bfs_dist : forall c,
      0 < aget (bg_incrementations s) c ->
      flat_dist elevations flowdirs seeds (aget (bg_incrementations s) c - 1) c
}.

(** The height table of [BuildGradient] started on [flat_height0]: an
    entry is untouched and no cell with that label has an incrementation,
    or it is the incrementation of a cell with that label; and it bounds the
    incrementation of every cell with that label. *)
Record bg_heights (labels : array2d) (flat_height0 : list Z) (s : bg_state)
  : Prop := mk_bg_heights {
  bgh_length : length (bg_flat_height s) = length flat_height0;
  bgh_entry : forall l,
      (vec_get (bg_flat_height s) l = vec_get flat_height0 l
       /\ forall c, 0 < aget (bg_incrementations s) c -> aget labels c <> l)
      \/ (exists c, 0 < aget (bg_incrementations s) c /\ aget labels c = l
                    /\ aget (bg_incrementations s) c
                       = vec_get (bg_flat_height s) l);
  bgh_bound : forall c,
      0 < aget (bg_incrementations s) c ->
      aget (bg_incrementations s) c
      <= vec_get (bg_flat_height s) (aget labels c)
}.

(** The cells that [CombineGradients] has gone through, started on
    [towards0] from [seeds]: they are joined to a seed by a path of
    neighbours of equal elevation, and their neighbours of equal elevation
    are gone through or wait in the queue. *)
Record cg_visit (elevations towards0 : array2d) (seeds : list grid_cell)
       (s : cg_state) : Prop := mk_cg_visit {
  cv_queue : forall q,
      In q (cg_edge s) ->
      in_grid elevations q = true
      /\ exists s0, In s0 seeds /\ level_reach elevations elevations s0 q;
  cv_sound : forall c,
      aget (cg_towards s) c <> aget towards0 c ->
      exists s0, In s0 seeds /\ level_reach elevations elevations s0 c;
  cv_front : forall c n,
      aget (cg_towards s) c = -1 -> level_step elevations elevations c n ->
      aget (cg_towards s) n = -1 \/ In n (cg_edge s);
  cv_seeds : forall s0,
      In s0 seeds -> aget (cg_towards s) s0 = -1 \/ In s0 (cg_edge s)
}.

(** Every label below [k] is carried by a seed. *)
Definition labels_dense (labels : array2d) (k : Z) (seeds : list grid_cell)
  : Prop :=
  forall i, 0 <= i < k -> exists s, In s seeds /\ aget labels s = i.

(** From [c] the mask descends, neighbour by neighbour and strictly, to a
    low edge. *)
Inductive drains (mask : array2d) (low_edges : list grid_cell)
  : grid_cell -> Prop :=
| drains_here c : In c low_edges -> drains mask low_edges c
| drains_down c p :
    In p (neighbours c) -> 0 <= aget mask p < aget mask c ->
    drains mask low_edges p -> drains mask low_edges c.

(** More of what holds of every run of the orchestrator on grids of the
    same dimensions. *)
Record run_more (elevations flowdirs : array2d) (r : run) : Prop := mk_run_more {
  rm_towards_nonneg : forall c, 0 <= aget (run_towards r) c;
  rm_away_nonneg : forall c, 0 <= aget (run_away r) c;
  rm_towards_dist : forall c,
      0 < aget (run_towards r) c ->
      flat_dist elevations flowdirs (run_low_edges r)
                (aget (run_towards r) c - 1) c;
  rm_towards_min : forall n c,
      flat_dist elevations flowdirs (run_low_edges r) n c ->
      0 < aget (run_towards r) c <= n + 1;
  rm_mask_set : forall c,
      0 < aget (run_towards r) c ->
      aget (run_mask r) c =
      combined (aget (run_towards r) c) (aget (run_away r) c)
               (vec_get (run_flat_height r) (aget (run_labels r) c));
  rm_height_attained : forall c,
      0 < aget (run_away r) c ->
      exists c', aget (run_labels r) c' = aget (run_labels r) c
                 /\ aget (run_away r) c'
                    = vec_get (run_flat_height r) (aget (run_labels r) c);
  rm_dense : labels_dense (run_labels r) (run_group_number r) (run_low_edges r);
  rm_groups : run_group_number r <= Z.of_nat (length (run_low_edges r));
  rm_found : run_low_edges r <> [] ->
             In (FoundUniqueFlats (run_group_number r)) (run_report r);
  rm_warning :
    In NotAllFlatsHaveOutlets (run_report r) <->
    run_low_edges r <> []
    /\ exists c, In c (snd (find_flat_edges [] [] flowdirs elevations))
                 /\ aget (run_labels r) c = -1
}.


(** Two flats: cells 0 and 1 drain through cell 0; cell 3 lies below its
    neighbours and has no outlet. *)
Definition sink_elevations : array2d :=
  grid_of_rows [[5; 5; 7; 3; 4]] (-9999) (-9999).
Definition sink_flowdirs : array2d :=
  grid_of_rows [[DEFINED; NO_FLOW; DEFINED; NO_FLOW; NO_FLOW]] (-100) (-100).

(* ================================================================== *)
(** * Properties *)

(* ------------------------------------------------------------------ *)
(** ** Cells, grids and vectors *)

Arguments neighbours : simpl never.
Arguments flat_neighbours : simpl never.
Arguments level_neighbours : simpl never.
Arguments cells : simpl never.
Arguments NO_FLOW : simpl never.
Arguments iteration_marker : simpl never.
Arguments aget : simpl never.
Arguments aset : simpl never.

Lemma cell_eqb_eq (a b : grid_cell) : cell_eqb a b = true <-> a = b.
Proof.
  destruct a as [ax ay], b as [bx b_y]; unfold cell_eqb; simpl.
  rewrite andb_true_iff, !Z.eqb_eq.
  split; [intros [-> ->]; reflexivity | intros [= -> ->]; auto].
Qed.

Lemma cell_eqb_refl (a : grid_cell) : cell_eqb a a = true.
Proof. apply cell_eqb_eq; reflexivity. Qed.

Lemma cell_eqb_neq (a b : grid_cell) : a <> b -> cell_eqb a b = false.
Proof.
  intros H; destruct (cell_eqb a b) eqn:E; [|reflexivity].
  apply cell_eqb_eq in E; contradiction.
Qed.

Lemma cell_eq_dec (a b : grid_cell) : {a = b} + {a <> b}.
Proof.
  destruct (cell_eqb a b) eqn:E.
  - left; apply cell_eqb_eq; exact E.
  - right; intros ->; rewrite cell_eqb_refl in E; discriminate.
Qed.

Lemma aget_aset_eq g c v : aget (aset g c v) c = v.
Proof. unfold aget, aset; simpl; rewrite cell_eqb_refl; reflexivity. Qed.

Lemma aget_aset_ne g c c' v : c <> c' -> aget (aset g c v) c' = aget g c'.
Proof. intros H; unfold aget, aset; simpl; rewrite cell_eqb_neq; auto. Qed.

Lemma same_dimensions_aset g g' c v :
  same_dimensions g g' -> same_dimensions (aset g c v) g'.
Proof. intros H; exact H. Qed.

Lemma aget_init g v c : aget (init g v) c = v.
Proof. reflexivity. Qed.

Lemma IN_GRID_iff c w h :
  IN_GRID c w h = true <-> 0 <= fst c < w /\ 0 <= snd c < h.
Proof.
  unfold IN_GRID; rewrite !andb_true_iff, !Z.geb_le, !Z.ltb_lt; lia.
Qed.

Lemma in_grid_iff g c :
  in_grid g c = true <-> 0 <= fst c < width g /\ 0 <= snd c < height g.
Proof. apply IN_GRID_iff. Qed.

Lemma in_grid_same g g' c :
  width g = width g' -> height g = height g' -> in_grid g c = in_grid g' c.
Proof. unfold in_grid; intros -> ->; reflexivity. Qed.

Lemma in_zrange n x : In x (zrange n) <-> 0 <= x < n.
Proof.
  unfold zrange; rewrite in_map_iff; split.
  - intros (k & <- & Hk); apply in_seq in Hk; lia.
  - intros H; exists (Z.to_nat x); split; [lia | apply in_seq; lia].
Qed.

Lemma in_cells_of w h c : In c (cells_of w h) <-> IN_GRID c w h = true.
Proof.
  unfold cells_of; rewrite in_flat_map, IN_GRID_iff; split.
  - intros (x & Hx & Hc); apply in_map_iff in Hc; destruct Hc as (y & <- & Hy).
    apply in_zrange in Hx, Hy; simpl; lia.
  - intros [Hx Hy]; exists (fst c); split; [apply in_zrange; exact Hx|].
    apply in_map_iff; exists (snd c); split;
      [destruct c; reflexivity | apply in_zrange; exact Hy].
Qed.

Lemma in_cells g c : In c (cells g) <-> in_grid g c = true.
Proof. apply in_cells_of. Qed.

(** The D8 neighbourhood is symmetric. *)
Lemma neighbours_sym c n : In n (neighbours c) -> In c (neighbours n).
Proof.
  destruct c as [x y]; unfold neighbours, directions, neighbour; simpl.
  intros H.
  repeat (destruct H as [H | H]; [subst n; simpl |]); try contradiction;
    repeat match goal with
           | |- _ \/ _ => (left; f_equal; lia) || right
           end.
Qed.

Lemma in_flat_neighbours e f c n :
  In n (flat_neighbours e f c) <->
  In n (neighbours c) /\ in_grid e n = true
  /\ aget e n = aget e c /\ aget f n = NO_FLOW.
Proof.
  unfold flat_neighbours; rewrite filter_In, !andb_true_iff, !Z.eqb_eq; tauto.
Qed.

Lemma in_level_neighbours e c n :
  In n (level_neighbours e c) <->
  In n (neighbours c) /\ in_grid e n = true /\ aget e n = aget e c.
Proof.
  unfold level_neighbours; rewrite filter_In, !andb_true_iff, !Z.eqb_eq; tauto.
Qed.

Lemma length_neighbours c : length (neighbours c) = 8%nat.
Proof. reflexivity. Qed.

Lemma length_filter_le {A} (p : A -> bool) l :
  (length (filter p l) <= length l)%nat.
Proof. induction l as [|a l IH]; simpl; [lia | destruct (p a); simpl; lia]. Qed.

Lemma length_flat_neighbours e f c :
  (length (flat_neighbours e f c) <= 8)%nat.
Proof.
  unfold flat_neighbours.
  rewrite <- (length_neighbours c); apply length_filter_le.
Qed.

Lemma length_level_neighbours e c : (length (level_neighbours e c) <= 8)%nat.
Proof.
  unfold level_neighbours.
  rewrite <- (length_neighbours c); apply length_filter_le.
Qed.

Lemma length_list_update v i a : length (list_update v i a) = length v.
Proof.
  revert i; induction v as [|h t IH]; intros [|j]; simpl; auto.
Qed.

Lemma length_vec_set v i a : length (vec_set v i a) = length v.
Proof.
  unfold vec_set; destruct (vec_in_range v i); auto using length_list_update.
Qed.

Lemma nth_list_update v i j a :
  nth j (list_update v i a) 0 =
  if (Nat.eqb i j && Nat.ltb i (length v))%bool then a else nth j v 0.
Proof.
  revert i j; induction v as [|h t IH]; intros [|i] [|j]; simpl; auto.
  - destruct (Nat.eqb i j); reflexivity.
Qed.

Lemma vec_in_range_iff v i :
  vec_in_range v i = true <-> 0 <= i < Z.of_nat (length v).
Proof. unfold vec_in_range; rewrite andb_true_iff, Z.leb_le, Z.ltb_lt; tauto. Qed.

Lemma vec_get_set_eq v i a :
  vec_in_range v i = true -> vec_get (vec_set v i a) i = a.
Proof.
  intros H; unfold vec_get, vec_set; rewrite H.
  assert (H' : vec_in_range (list_update v (Z.to_nat i) a) i = true).
  { apply vec_in_range_iff; rewrite length_list_update;
      apply vec_in_range_iff; exact H. }
  rewrite H', nth_list_update, Nat.eqb_refl; simpl.
  apply vec_in_range_iff in H.
  destruct (Nat.ltb_spec (Z.to_nat i) (length v)); [reflexivity | lia].
Qed.

Lemma vec_get_set_ne v i j a : i <> j -> vec_get (vec_set v i a) j = vec_get v j.
Proof.
  intros Hij; unfold vec_get, vec_set.
  destruct (vec_in_range v i) eqn:Hi; [|reflexivity].
  assert (Hr : vec_in_range (list_update v (Z.to_nat i) a) j = vec_in_range v j).
  { unfold vec_in_range; rewrite length_list_update; reflexivity. }
  rewrite Hr; destruct (vec_in_range v j) eqn:Hj; [|reflexivity].
  rewrite nth_list_update.
  apply vec_in_range_iff in Hi, Hj.
  destruct (Nat.eqb_spec (Z.to_nat i) (Z.to_nat j)); [lia | reflexivity].
Qed.

Lemma length_vec_make n : Z.of_nat (length (vec_make n)) = Z.max 0 n.
Proof. unfold vec_make; rewrite repeat_length; lia. Qed.

Lemma cells_aset g c v : cells (aset g c v) = cells g.
Proof. reflexivity. Qed.

Lemma cells_same g g' : same_dimensions g g' -> cells g = cells g'.
Proof. intros [Hw Hh]; unfold cells; rewrite Hw, Hh; reflexivity. Qed.

(** From here on the lists of neighbours and of cells are used through the
    lemmas above only. *)
Opaque neighbours cells.

(** Counting cells. *)
Lemma count_le p q l :
  (forall x, In x l -> q x = true -> p x = true) ->
  (count q l <= count p l)%nat.
Proof.
  unfold count; induction l as [|a l IH]; intros H; simpl; [lia|].
  assert (IH' := IH (fun x Hx => H x (or_intror Hx))).
  destruct (q a) eqn:Hq.
  - rewrite (H a (or_introl eq_refl) Hq); simpl; lia.
  - destruct (p a); simpl; lia.
Qed.

Lemma count_decrease p q l c :
  (forall x, In x l -> q x = true -> p x = true) ->
  In c l -> p c = true -> q c = false ->
  (count q l < count p l)%nat.
Proof.
  unfold count; induction l as [|a l IH]; intros H Hin Hp Hq; [destruct Hin|].
  assert (Hle := count_le p q l (fun x Hx => H x (or_intror Hx))).
  unfold count in Hle; simpl.
  destruct Hin as [-> | Hin].
  - rewrite Hp, Hq; simpl; lia.
  - assert (IH' := IH (fun x Hx => H x (or_intror Hx)) Hin Hp Hq).
    destruct (q a) eqn:Hqa.
    + rewrite (H a (or_introl eq_refl) Hqa); simpl; lia.
    + destruct (p a); simpl; lia.
Qed.

Lemma count_le_length p l : (count p l <= length l)%nat.
Proof. apply length_filter_le. Qed.

(* ------------------------------------------------------------------ *)
(** ** Loops: invariants and termination *)

Section While.
Context {S : Type} (cond : S -> bool) (body : S -> S).
Variable Inv : S -> Prop.
Hypothesis Inv_body : forall s, Inv s -> cond s = true -> Inv (body s).

Lemma while_loop_invariant fuel s s' :
  Inv s -> while_loop cond body fuel s = Some s' ->
  Inv s' /\ cond s' = false.
Proof.
  revert s; induction fuel as [|fuel IH]; intros s Hs; simpl;
    destruct (cond s) eqn:Hc; try discriminate.
  - intros [= <-]; auto.
  - intros H; apply (IH (body s)); auto.
  - intros [= <-]; auto.
Qed.

Variable measure : S -> nat.
Hypothesis measure_body :
  forall s, Inv s -> cond s = true -> (measure (body s) < measure s)%nat.

Lemma while_loop_terminates fuel s :
  Inv s -> (measure s <= fuel)%nat ->
  exists s', while_loop cond body fuel s = Some s'.
Proof.
  revert s; induction fuel as [|fuel IH]; intros s Hs Hm; simpl;
    destruct (cond s) eqn:Hc; eauto.
  - specialize (measure_body s Hs Hc); lia.
  - apply IH; [auto|]. specialize (measure_body s Hs Hc); lia.
Qed.
End While.

(* ------------------------------------------------------------------ *)
(** ** find_flat_edges *)

Lemma scan_neighbours_low f e c ns :
  scan_neighbours f e c ns = Some LowEdge ->
  aget f c <> NO_FLOW
  /\ exists n, In n (map (neighbour c) ns) /\ in_grid f n = true
               /\ aget f n <> no_data f /\ aget f n = NO_FLOW
               /\ aget e n = aget e c.
Proof.
  induction ns as [|n ns IH]; simpl; [discriminate|].
  destruct (in_grid f (neighbour c n)) eqn:Hg; simpl.
  2:{ intros H; destruct (IH H) as (H1 & m & Hm & H2);
    split; [exact H1 | exists m; split; [right; exact Hm | exact H2]]. }
  destruct (aget f (neighbour c n) =? no_data f) eqn:Hnd.
  { intros H; destruct (IH H) as (H1 & m & Hm & H2);
    split; [exact H1 | exists m; split; [right; exact Hm | exact H2]]. }
  destruct (negb (aget f c =? NO_FLOW) && (aget f (neighbour c n) =? NO_FLOW)
            && (aget e (neighbour c n) =? aget e c)) eqn:Hlow.
  - intros _.
    apply andb_true_iff in Hlow; destruct Hlow as [Hlow He].
    apply andb_true_iff in Hlow; destruct Hlow as [Hc Hn].
    apply negb_true_iff in Hc.
    apply Z.eqb_neq in Hc, Hnd; apply Z.eqb_eq in Hn, He.
    split; [exact Hc|]. exists (neighbour c n); repeat split; auto.
  - destruct ((aget f c =? NO_FLOW) && (aget e c <? aget e (neighbour c n)));
      [discriminate|].
    intros H; destruct (IH H) as (H1 & m & Hm & H2);
    split; [exact H1 | exists m; split; [right; exact Hm | exact H2]].
Qed.

Lemma scan_neighbours_high f e c ns :
  scan_neighbours f e c ns = Some HighEdge ->
  aget f c = NO_FLOW
  /\ exists n, In n (map (neighbour c) ns) /\ in_grid f n = true
               /\ aget f n <> no_data f /\ aget e c < aget e n.
Proof.
  induction ns as [|n ns IH]; simpl; [discriminate|].
  destruct (in_grid f (neighbour c n)) eqn:Hg; simpl.
  2:{ intros H; destruct (IH H) as (H1 & m & Hm & H2);
    split; [exact H1 | exists m; split; [right; exact Hm | exact H2]]. }
  destruct (aget f (neighbour c n) =? no_data f) eqn:Hnd.
  { intros H; destruct (IH H) as (H1 & m & Hm & H2);
    split; [exact H1 | exists m; split; [right; exact Hm | exact H2]]. }
  destruct (negb (aget f c =? NO_FLOW) && (aget f (neighbour c n) =? NO_FLOW)
            && (aget e (neighbour c n) =? aget e c)); [discriminate|].
  destruct ((aget f c =? NO_FLOW) && (aget e c <? aget e (neighbour c n)))
    eqn:Hhigh.
  - intros _. apply andb_true_iff in Hhigh; destruct Hhigh as [Hc Hlt].
    apply Z.eqb_eq in Hc; apply Z.ltb_lt in Hlt; apply Z.eqb_neq in Hnd.
    split; [exact Hc|]. exists (neighbour c n); repeat split; auto.
  - intros H; destruct (IH H) as (H1 & m & Hm & H2);
    split; [exact H1 | exists m; split; [right; exact Hm | exact H2]].
Qed.

(** Every cell that the scan appends to a queue is an edge of that kind. *)
Lemma visit_cell_sound f e low high a :
  in_grid f a = true ->
  let r := visit_cell f e (low, high) a in
  (forall c, In c (fst r) -> In c low \/ is_low_edge f e c)
  /\ (forall c, In c (snd r) -> In c high \/ is_high_edge f e c).
Proof.
  intros Ha; unfold visit_cell.
  destruct (aget f a =? no_data f) eqn:Hnd; [cbn; auto|].
  apply Z.eqb_neq in Hnd.
  destruct (scan_neighbours f e a directions) as [[|]|] eqn:Hs; cbn [fst snd];
    [| |auto].
  - destruct (scan_neighbours_low _ _ _ _ Hs)
      as (H1 & n & Hn & H2 & H3 & H4 & H5).
    split; [|auto].
    intros c Hc; apply in_app_iff in Hc; destruct Hc as [Hc | [<- | []]]; [auto|].
    right; repeat split; auto.
    exists n; repeat split; auto.
  - destruct (scan_neighbours_high _ _ _ _ Hs) as (H1 & n & Hn & H2 & H3 & H4).
    split; [auto|].
    intros c Hc; apply in_app_iff in Hc; destruct Hc as [Hc | [<- | []]]; [auto|].
    right; repeat split; auto.
    exists n; repeat split; auto.
Qed.

Lemma visit_cells_sound f e cs :
  (forall c, In c cs -> in_grid f c = true) ->
  forall low high,
    (forall c, In c low -> is_low_edge f e c) ->
    (forall c, In c high -> is_high_edge f e c) ->
    let r := fold_left (visit_cell f e) cs (low, high) in
    (forall c, In c (fst r) -> is_low_edge f e c)
    /\ (forall c, In c (snd r) -> is_high_edge f e c).
Proof.
  induction cs as [|a cs IH]; intros Hcs low high Hl Hh; cbn [fold_left].
  { split; assumption. }
  assert (Ha : in_grid f a = true) by (apply Hcs; left; reflexivity).
  assert (Hcs' : forall c, In c cs -> in_grid f c = true)
    by (intros; apply Hcs; right; assumption).
  destruct (visit_cell_sound f e low high a Ha) as [Hl1 Hh1].
  destruct (visit_cell f e (low, high) a) as [low1 high1]; cbn [fst snd] in *.
  apply IH; [exact Hcs' | |].
  - intros c Hc; destruct (Hl1 c Hc); auto.
  - intros c Hc; destruct (Hh1 c Hc); auto.
Qed.

Lemma find_flat_edges_low f e c :
  In c (fst (find_flat_edges [] [] f e)) -> is_low_edge f e c.
Proof.
  intros H.
  destruct (visit_cells_sound f e (cells f)
              (fun c Hc => proj1 (in_cells f c) Hc) [] []) as [Hl _];
    [intros ? [] | intros ? [] | auto].
Qed.

Lemma find_flat_edges_high f e c :
  In c (snd (find_flat_edges [] [] f e)) -> is_high_edge f e c.
Proof.
  intros H.
  destruct (visit_cells_sound f e (cells f)
              (fun c Hc => proj1 (in_cells f c) Hc) [] []) as [_ Hh];
    [intros ? [] | intros ? [] | auto].
Qed.

(** C1, as the code has it: every cell that the edge-finding pass adds to
    [low_edges] is a cell of the grid with a defined flow direction (neither
    [NO_FLOW] nor no-data) that has an 8-neighbour without flow direction at
    the same elevation; no flat cell is ever added to [low_edges]. *)
Theorem low_edges_have_defined_flow flowdirs elevations c :
  In c (fst (find_flat_edges [] [] flowdirs elevations)) ->
  is_low_edge flowdirs elevations c /\ aget flowdirs c <> NO_FLOW.
Proof.
  intros H; apply find_flat_edges_low in H.
  split; [exact H | apply H].
Qed.

Lemma low_edges_have_defined_flow_witness :
  In (0, 0) (fst (find_flat_edges [] [] row_flowdirs row_elevations))
  /\ is_low_edge row_flowdirs row_elevations (0, 0)
  /\ aget row_flowdirs (0, 0) <> NO_FLOW.
Proof.
  assert (H : In (0, 0) (fst (find_flat_edges [] [] row_flowdirs row_elevations)))
    by (vm_compute; left; reflexivity).
  split; [exact H|].
  exact (low_edges_have_defined_flow row_flowdirs row_elevations (0, 0) H).
Defined.

(** C1 as the specification words it (low edges are flat cells) fails on the
    single row: its low edge is cell 0, whose flow direction is defined. *)
Lemma low_edges_not_flat :
  ~ (forall c, In c (fst (find_flat_edges [] [] row_flowdirs row_elevations)) ->
               spec_low_edge row_flowdirs row_elevations c).
Proof.
  intros H.
  assert (Hin : In (0, 0) (fst (find_flat_edges [] [] row_flowdirs row_elevations)))
    by (vm_compute; left; reflexivity).
  destruct (H _ Hin) as [Hflat _].
  vm_compute in Hflat; discriminate.
Qed.

(* ------------------------------------------------------------------ *)
(** ** The single-row scenario *)

(** C3, as the code runs: on the single row the low edge is cell 0 (the cell
    whose flow direction is defined), the three cells get the label 0, the
    distances towards the low edge are 1, 2, 3, the distances away are 0 and
    the mask is 0, 2, 4. *)
Theorem single_row_outcome :
  option_map row_view row_run
  = Some ([(0, 0)], [0; 0; 0], [1; 2; 3], [0; 0; 0], [0; 2; 4]).
Proof. vm_compute; reflexivity. Qed.

(** C3 as the specification words it fails: cell 1 is no low edge, and its
    distance is 2, not 1. *)
Lemma single_row_not_as_specified :
  ~ (exists r, row_run = Some r /\ spec_single_row r).
Proof.
  intros (r & Hr & _ & _ & _ & Ht & _).
  assert (H : option_map (fun r => aget (run_towards r) (1, 0)) row_run = Some 1)
    by (rewrite Hr; simpl; f_equal; exact Ht).
  vm_compute in H; discriminate.
Qed.

(* ------------------------------------------------------------------ *)
(** ** The orchestrator: early return and dimensions *)

(** C8: when the edge-finding pass yields no low edge the orchestrator
    returns at once: the mask is -1 everywhere, no label is assigned, and the
    report is "flats without outlets" when there are high edges and "no
    flats" otherwise. *)
Theorem no_low_edges_early_return elevations flowdirs flat_resolution_mask labels :
  fst (find_flat_edges [] [] flowdirs elevations) = [] ->
  exists r,
    resolve_flats_barnes elevations flowdirs flat_resolution_mask labels = Some r
    /\ (forall c, aget (run_mask r) c = -1)
    /\ no_data (run_mask r) = -1
    /\ (forall c, aget (run_labels r) c = -1)
    /\ run_group_number r = 0
    /\ run_report r =
       [SearchingForFlats;
        match snd (find_flat_edges [] [] flowdirs elevations) with
        | [] => NoFlats
        | _ :: _ => FlatsWithoutOutlets
        end].
Proof.
  intros Hlow; unfold resolve_flats_barnes; rewrite Hlow; simpl.
  eexists; split; [reflexivity|]; simpl.
  repeat split.
  destruct (snd (find_flat_edges [] [] flowdirs elevations)); reflexivity.
Qed.

Lemma no_low_edges_early_return_witness :
  fst (find_flat_edges [] [] pit_flowdirs pit_elevations) = []
  /\ exists r,
    resolve_flats_barnes pit_elevations pit_flowdirs blank blank = Some r
    /\ (forall c, aget (run_mask r) c = -1)
    /\ no_data (run_mask r) = -1
    /\ (forall c, aget (run_labels r) c = -1)
    /\ run_group_number r = 0
    /\ run_report r =
       [SearchingForFlats;
        match snd (find_flat_edges [] [] pit_flowdirs pit_elevations) with
        | [] => NoFlats
        | _ :: _ => FlatsWithoutOutlets
        end].
Proof.
  split; [vm_compute; reflexivity|].
  apply (no_low_edges_early_return pit_elevations pit_flowdirs blank blank).
  vm_compute; reflexivity.
Defined.


(* ------------------------------------------------------------------ *)
(** ** Paths of equal elevation *)

Lemma level_step_sym g e c n : level_step g e c n -> level_step g e n c.
Proof.
  intros (Hc & Hn & Hin & He); repeat split; auto using neighbours_sym.
Qed.

Lemma level_reach_in_grid g e c n :
  level_reach g e c n -> in_grid g c = true /\ in_grid g n = true.
Proof.
  induction 1 as [Hc | n m _ [IH _] (_ & Hm & _)]; auto.
Qed.

Lemma level_reach_elev g e c n : level_reach g e c n -> aget e n = aget e c.
Proof.
  induction 1 as [Hc | n m _ IH (_ & _ & _ & He)]; [reflexivity | congruence].
Qed.

Lemma level_reach_trans g e a b c :
  level_reach g e a b -> level_reach g e b c -> level_reach g e a c.
Proof.
  intros Hab Hbc; induction Hbc as [Hb | n m _ IH Hs]; [exact Hab|].
  eapply level_next; eauto.
Qed.

Lemma level_reach_sym g e a b : level_reach g e a b -> level_reach g e b a.
Proof.
  induction 1 as [Ha | n m Han IH Hs]; [constructor; exact Ha|].
  apply level_reach_trans with n; [|exact IH].
  apply level_next with m; [|apply level_step_sym; exact Hs].
  constructor; apply Hs.
Qed.

(* ------------------------------------------------------------------ *)
(** ** label_this: termination *)

Lemma lt_wf_body g label target e s :
  lt_wf g s -> label_this_cond s = true ->
  lt_wf g (label_this_body label target e s).
Proof.
  intros [Hd Hq] _; unfold label_this_body.
  destruct (lt_to_fill s) as [|c rest] eqn:Hfill; [split; auto; rewrite Hfill; auto|].
  inversion Hq as [|? ? Hc Hrest]; subst.
  destruct (negb (aget e c =? target) || (aget (lt_labels s) c >? -1));
    split; simpl; auto.
  apply Forall_app; split; [exact Hrest|].
  apply Forall_forall; intros n Hn; apply filter_In in Hn.
  destruct Hn as [_ Hn]; destruct Hd as [Hw Hh].
  rewrite <- Hn; symmetry; apply in_grid_same; assumption.
Qed.

Lemma label_this_measure_body g label target e s :
  -1 < label -> lt_wf g s -> label_this_cond s = true ->
  (label_this_measure (label_this_body label target e s)
   < label_this_measure s)%nat.
Proof.
  intros Hl [Hd Hq] Hcond; unfold label_this_body, label_this_measure.
  destruct (lt_to_fill s) as [|c rest] eqn:Hfill.
  { unfold label_this_cond in Hcond; rewrite Hfill in Hcond; discriminate. }
  inversion Hq as [|? ? Hc Hrest]; subst.
  destruct (negb (aget e c =? target) || (aget (lt_labels s) c >? -1)) eqn:Hskip;
    simpl; [lia|].
  apply orb_false_iff in Hskip; destruct Hskip as [_ Hun].
  rewrite cells_aset, length_app.
  assert (Hlen := length_filter_le (in_grid (lt_labels s)) (neighbours c)).
  rewrite length_neighbours in Hlen.
  assert (Hcount :
            (count (unlabelled (aset (lt_labels s) c label)) (cells (lt_labels s))
             < count (unlabelled (lt_labels s)) (cells (lt_labels s)))%nat).
  { apply count_decrease with c.
    - intros x _; unfold unlabelled.
      destruct (cell_eq_dec c x) as [<- | Hne].
      + rewrite aget_aset_eq.
        destruct (Z.gtb_spec label (-1)); [discriminate | lia].
      + rewrite aget_aset_ne by exact Hne; auto.
    - apply in_cells; destruct Hd as [Hw Hh].
      rewrite (in_grid_same _ g) by assumption; exact Hc.
    - unfold unlabelled; rewrite Hun; reflexivity.
    - unfold unlabelled; rewrite aget_aset_eq.
      destruct (Z.gtb_spec label (-1)); [reflexivity | lia]. }
  lia.
Qed.

Lemma label_this_terminates c label labels e :
  -1 < label -> in_grid labels c = true ->
  exists labels', label_this c label labels e = Some labels'.
Proof.
  intros Hl Hc; unfold label_this.
  destruct (while_loop_terminates label_this_cond
              (label_this_body label (aget e c) e) (lt_wf labels)
              (lt_wf_body labels label (aget e c) e)
              label_this_measure
              (fun s => label_this_measure_body labels label (aget e c) e s Hl)
              (label_this_fuel labels)
              {| lt_labels := labels; lt_to_fill := [c] |}) as [s' Hs'].
  - split; simpl; [split; reflexivity | auto].
  - unfold label_this_measure, label_this_fuel; simpl.
    assert (H := count_le_length (unlabelled labels) (cells labels)); lia.
  - rewrite Hs'; simpl; eauto.
Qed.

(* ------------------------------------------------------------------ *)
(** ** label_this: the flood fill labels one whole component *)

Section LabelThis.
Variables (g e L0 : array2d) (k : Z) (seed : grid_cell).
Variable seeds : list grid_cell.
Hypothesis Hok : labelling_ok g e L0 k seeds.
Hypothesis Hk : 0 <= k.
Hypothesis Hseed : aget L0 seed = -1.
Hypothesis Hseed_grid : in_grid g seed = true.

Lemma lt_inv_init :
  lt_inv g e L0 k seed {| lt_labels := L0; lt_to_fill := [seed] |}.
Proof.
  constructor; simpl.
  - apply Hok.
  - intros q [<- | []]; split; [exact Hseed_grid|].
    intros _; constructor; exact Hseed_grid.
  - auto.
  - intros c Hc; pose proof (lab_range _ _ _ _ _ Hok c); lia.
  - intros c n Hc; pose proof (lab_range _ _ _ _ _ Hok c); lia.
  - auto.
Qed.

Lemma lt_inv_body s :
  lt_inv g e L0 k seed s -> label_this_cond s = true ->
  lt_inv g e L0 k seed (label_this_body k (aget e seed) e s).
Proof.
  intros I _; destruct s as [labels queue]; unfold label_this_body; simpl.
  destruct queue as [|a rest]; [exact I|].
  destruct I as [Id Iq If In_ Ifr Is]; simpl in *.
  destruct (Iq a (or_introl eq_refl)) as [Ha_grid Ha_reach].
  destruct (negb (aget e a =? aget e seed) || (aget labels a >? -1)) eqn:Hskip.
  - (* the cell is skipped *)
    constructor; simpl; auto.
    + intros c n Hc Hstep.
      destruct (Ifr c n Hc Hstep) as [Hn | [<- | Hin]]; auto.
      left.
      assert (He : aget e a = aget e seed).
      { destruct Hstep as (_ & _ & _ & He); rewrite He.
        apply (level_reach_elev g); auto. }
      rewrite He, Z.eqb_refl in Hskip; simpl in Hskip.
      apply Z.gtb_lt in Hskip.
      destruct (If a) as [Hsame | [_ Hnew]]; [|exact Hnew].
      assert (Hc0 : aget L0 c = aget L0 a).
      { apply (lab_closed _ _ _ _ _ Hok a c); [lia|].
        apply level_step_sym; exact Hstep. }
      pose proof (lab_range _ _ _ _ _ Hok c).
      destruct (If c) as [Hsc | [Hsc _]]; lia.
    + destruct Is as [Hs | [<- | Hin]]; auto.
      left. rewrite Z.eqb_refl in Hskip; simpl in Hskip.
      apply Z.gtb_lt in Hskip.
      destruct (If a) as [Hsame | [_ Hnew]]; [lia | exact Hnew].
  - (* the cell takes the label *)
    apply orb_false_iff in Hskip; destruct Hskip as [He Hun].
    apply negb_false_iff, Z.eqb_eq in He.
    assert (Hua : aget labels a <= -1)
      by (destruct (Z.gtb_spec (aget labels a) (-1)); [discriminate | lia]).
    specialize (Ha_reach He).
    assert (Hgrid : forall n, in_grid labels n = in_grid g n)
      by (intros n; destruct Id; apply in_grid_same; assumption).
    constructor; simpl.
    + exact Id.
    + intros q Hq; apply in_app_iff in Hq; destruct Hq as [Hq | Hq]; [auto|].
      apply filter_In in Hq; destruct Hq as [Hq1 Hq2]; rewrite Hgrid in Hq2.
      split; [exact Hq2|]; intros Heq.
      apply level_next with a; [exact Ha_reach|].
      repeat split; auto; congruence.
    + intros c; destruct (cell_eq_dec a c) as [<- | Hne].
      * right; rewrite aget_aset_eq; split; [|reflexivity].
        pose proof (lab_range _ _ _ _ _ Hok a).
        destruct (If a) as [Hsame | [H0 _]]; lia.
      * rewrite aget_aset_ne by exact Hne; apply If.
    + intros c; destruct (cell_eq_dec a c) as [<- | Hne]; [auto|].
      rewrite aget_aset_ne by exact Hne; apply In_.
    + intros c n Hc Hstep.
      destruct (cell_eq_dec a c) as [<- | Hne].
      * right; apply in_app_iff; right; apply filter_In.
        destruct Hstep as (_ & Hn & Hin & _); rewrite Hgrid; auto.
      * rewrite aget_aset_ne in Hc by exact Hne.
        destruct (cell_eq_dec a n) as [<- | Hnn];
          [left; apply aget_aset_eq|].
        rewrite aget_aset_ne by exact Hnn.
        destruct (Ifr c n Hc Hstep) as [Hn | [Heq | Hin]]; auto.
        -- contradiction.
        -- right; apply in_app_iff; auto.
    + destruct (cell_eq_dec a seed) as [<- | Hne];
        [left; apply aget_aset_eq|].
      rewrite aget_aset_ne by exact Hne.
      destruct Is as [Hs | [Heq | Hin]]; auto.
      * contradiction.
      * right; apply in_app_iff; auto.
Qed.

Lemma label_this_ok L' :
  label_this seed k L0 e = Some L' ->
  labelling_ok g e L' (k + 1) (seeds ++ [seed]).
Proof.
  unfold label_this.
  destruct (while_loop _ _ _ _) as [s'|] eqn:Hrun; [|discriminate].
  intros [= <-].
  destruct (while_loop_invariant _ _ _ lt_inv_body _ _ _ lt_inv_init Hrun)
    as [I Hc].
  destruct s' as [labels queue]; simpl in *.
  assert (queue = []) as ->.
  { destruct queue; [reflexivity|].
    unfold label_this_cond in Hc; simpl in Hc.
    apply Z.ltb_ge in Hc; lia. }
  destruct I as [Id Iq If In_ Ifr Is]; simpl in *.
  assert (Hr := lab_range _ _ _ _ _ Hok).
  constructor.
  - exact Id.
  - intros c; specialize (Hr c); destruct (If c) as [Hs | [_ Hn]]; lia.
  - intros c Hc'; destruct (If c) as [Hs | [_ Hn]].
    + apply (lab_in_grid _ _ _ _ _ Hok); congruence.
    + apply (level_reach_in_grid g e seed); auto.
  - intros c n Hc' Hstep; destruct (If c) as [Hs | [_ Hn]].
    + assert (H0 : aget L0 n = aget L0 c)
        by (apply (lab_closed _ _ _ _ _ Hok); [congruence | exact Hstep]).
      destruct (If n) as [Hsn | [Hsn _]]; congruence.
    + destruct (Ifr c n Hn Hstep) as [Hnk | []]; congruence.
  - intros c c' Hc' Heq; destruct (If c) as [Hs | [_ Hn]].
    + destruct (If c') as [Hs' | [_ Hn']].
      * apply (lab_connected _ _ _ _ _ Hok); congruence.
      * specialize (Hr c); lia.
    + apply level_reach_trans with seed.
      * apply level_reach_sym; auto.
      * apply In_; congruence.
  - intros s Hs; apply in_app_iff in Hs; destruct Hs as [Hs | [<- | []]].
    + assert (H0 := lab_seeds _ _ _ _ _ Hok s Hs).
      destruct (If s) as [Hsame | [Hs0 _]]; congruence.
    + destruct Is as [Hsk | []]; lia.
  - intros c Hc'; destruct (If c) as [Hs | [_ Hn]].
    + destruct (lab_from_seed _ _ _ _ _ Hok c) as (s & Hin & Hreach);
        [congruence|].
      exists s; split; [apply in_app_iff; auto | exact Hreach].
    + exists seed; split; [apply in_app_iff; simpl; auto | auto].
Qed.
End LabelThis.

(** The labelling loop of the orchestrator returns, and its labels satisfy
    [labelling_ok] for all the low edges. *)
Lemma label_flats_ok g e edges :
  forall labels k seeds,
    labelling_ok g e labels k seeds -> 0 <= k ->
    (forall c, In c edges -> in_grid g c = true) ->
    exists labels' k',
      label_flats e edges labels k = Some (labels', k')
      /\ labelling_ok g e labels' k' (seeds ++ edges) /\ k <= k'.
Proof.
  induction edges as [|i rest IH]; intros labels k seeds Hok Hk Hin; simpl.
  - exists labels, k; rewrite app_nil_r.
    split; [reflexivity | split; [exact Hok | lia]].
  - assert (Hi : in_grid g i = true) by (apply Hin; left; reflexivity).
    assert (Hrest : forall c, In c rest -> in_grid g c = true)
      by (intros; apply Hin; right; assumption).
    destruct (aget labels i =? -1) eqn:Hlab.
    + apply Z.eqb_eq in Hlab.
      destruct (label_this_terminates i k labels e) as [labels1 H1]; [lia | |].
      { destruct (lab_dims _ _ _ _ _ Hok).
        rewrite (in_grid_same _ g); assumption. }
      rewrite H1.
      assert (Hok1 := label_this_ok g e labels k i seeds Hok Hk Hlab Hi _ H1).
      destruct (IH labels1 (k + 1) (seeds ++ [i]) Hok1 ltac:(lia) Hrest)
        as (labels' & k' & Hrun & Hok' & Hle).
      exists labels', k'; rewrite <- app_assoc in Hok'; simpl in Hok'.
      split; [exact Hrun | split; [exact Hok' | lia]].
    + apply Z.eqb_neq in Hlab.
      assert (Hok1 : labelling_ok g e labels k (seeds ++ [i])).
      { destruct Hok; constructor; auto.
        - intros s Hs; apply in_app_iff in Hs; destruct Hs as [Hs | [<- | []]]; auto.
        - intros c Hc; destruct (lab_from_seed0 c Hc) as (s & Hs & Hr).
          exists s; split; [apply in_app_iff; auto | exact Hr]. }
      destruct (IH labels k (seeds ++ [i]) Hok1 Hk Hrest)
        as (labels' & k' & Hrun & Hok' & Hle).
      exists labels', k'; rewrite <- app_assoc in Hok'; simpl in Hok'.
      split; [exact Hrun | split; [exact Hok' | exact Hle]].
Qed.

Lemma labelling_ok_init g e labels :
  labelling_ok g e (init (resize labels (width g) (height g)) (-1)) 0 [].
Proof.
  constructor; try (intros c; rewrite aget_init; intros; lia).
  - split; reflexivity.
  - intros s [].
Qed.

(* ------------------------------------------------------------------ *)
(** ** BuildGradient: termination *)

Lemma in_grid_not_marker g c : in_grid g c = true -> (fst c =? -1) = false.
Proof. intros H; apply in_grid_iff in H; apply Z.eqb_neq; lia. Qed.

Lemma marker_in_front_le edges : (marker_in_front edges <= 1)%nat.
Proof.
  destruct edges as [|c ?]; simpl; [lia | destruct (fst c =? -1); lia].
Qed.

Lemma unvisited_aset inc a v x :
  0 < v -> unvisited (aset inc a v) x = true -> unvisited inc x = true.
Proof.
  intros Hv; unfold unvisited; destruct (cell_eq_dec a x) as [<- | Hne].
  - rewrite aget_aset_eq; destruct (Z.gtb_spec v 0); [discriminate | lia].
  - rewrite aget_aset_ne by exact Hne; auto.
Qed.

Lemma bg_wf_body e f labels inc0 s :
  bg_wf e inc0 s -> BuildGradient_cond s = true ->
  bg_wf e inc0 (BuildGradient_body e f labels s).
Proof.
  intros [Hd Hl (A & B & Hq & HAB) Hf Hn Ha] _.
  destruct s as [inc edges fh loops assigned]; simpl in *; subst edges.
  unfold BuildGradient_body; simpl.
  destruct A as [|a A1]; simpl in *.
  - constructor; simpl; auto; [lia | | ].
    + exists B, []; split; [reflexivity | rewrite app_nil_r; exact HAB].
    + intros c; destruct (Hf c) as [H | (H1 & H2 & H3)]; [left; exact H|].
      right; repeat split; auto; lia.
  - inversion HAB as [|? ? Hga HAB']; subst.
    rewrite (in_grid_not_marker e a Hga).
    destruct (aget inc a >? 0) eqn:Hv.
    + constructor; simpl; auto. exists A1, B; auto.
    + assert (Hva : aget inc a <= 0)
        by (destruct (Z.gtb_spec (aget inc a) 0); [discriminate | lia]).
      assert (Hnew : ~ In a assigned).
      { destruct (Hf a) as [[H _] | (_ & _ & H)]; [exact H | lia]. }
      constructor; simpl; auto.
      * exists A1, (B ++ flat_neighbours e f a); split.
        { rewrite <- app_assoc; reflexivity. }
        rewrite app_assoc; apply Forall_app; split; [exact HAB'|].
        apply Forall_forall; intros n Hin.
        apply in_flat_neighbours in Hin; apply Hin.
      * intros c; destruct (cell_eq_dec a c) as [<- | Hne].
        { right; rewrite aget_aset_eq; repeat split; auto; try lia.
          destruct (Hf a) as [[_ H] | (H & _)]; [lia | contradiction]. }
        rewrite aget_aset_ne by exact Hne.
        destruct (Hf c) as [[H1 H2] | (H1 & H2 & H3)].
        { left; split; [|exact H2]. intros [Heq | Hin]; auto. }
        right; repeat split; auto; lia.
      * constructor; assumption.
Qed.

Lemma BuildGradient_measure_body e f labels inc0 s :
  bg_wf e inc0 s -> BuildGradient_cond s = true ->
  (BuildGradient_measure e (BuildGradient_body e f labels s)
   < BuildGradient_measure e s)%nat.
Proof.
  intros [Hd Hl (A & B & Hq & HAB) Hf Hn Ha] Hc.
  destruct s as [inc edges fh loops assigned]; simpl in *; subst edges.
  unfold BuildGradient_cond in Hc; simpl in Hc.
  unfold BuildGradient_body, BuildGradient_measure; simpl.
  destruct A as [|a A1]; simpl in *.
  - destruct B as [|b B1]; [discriminate Hc|].
    inversion HAB as [|? ? Hgb _]; subst; simpl.
    rewrite (in_grid_not_marker e b Hgb), !length_app; simpl; lia.
  - inversion HAB as [|? ? Hga HAB']; subst.
    rewrite (in_grid_not_marker e a Hga).
    destruct (aget inc a >? 0) eqn:Hv; simpl.
    + assert (H := marker_in_front_le (A1 ++ iteration_marker :: B)); lia.
    + assert (Hcount : (count (unvisited (aset inc a loops)) (cells e)
                        < count (unvisited inc) (cells e))%nat).
      { apply count_decrease with a.
        - intros x _; apply unvisited_aset; lia.
        - apply in_cells; exact Hga.
        - unfold unvisited; rewrite Hv; reflexivity.
        - unfold unvisited; rewrite aget_aset_eq.
          destruct (Z.gtb_spec loops 0); [reflexivity | lia]. }
      assert (H := marker_in_front_le
                     ((A1 ++ iteration_marker :: B) ++ flat_neighbours e f a)).
      assert (H8 := length_flat_neighbours e f a).
      rewrite !length_app in *; simpl in *; lia.
Qed.

Lemma bg_wf_init e inc edges fh :
  same_dimensions inc e ->
  (forall c, In c edges -> in_grid e c = true) ->
  bg_wf e inc (BuildGradient_init inc edges fh).
Proof.
  intros Hd He; constructor; simpl; auto; try lia.
  - exists edges, []; split; [reflexivity|].
    rewrite app_nil_r; apply Forall_forall; exact He.
  - constructor.
Qed.

Lemma BuildGradient_terminates e f inc edges fh labels :
  same_dimensions inc e ->
  (forall c, In c edges -> in_grid e c = true) ->
  exists s',
    BuildGradient e f inc edges fh labels = Some s'
    /\ bg_wf e inc s' /\ bg_edges s' = [iteration_marker].
Proof.
  intros Hd He; unfold BuildGradient.
  assert (Hinit := bg_wf_init e inc edges fh Hd He).
  destruct (while_loop_terminates BuildGradient_cond
              (BuildGradient_body e f labels) (bg_wf e inc)
              (bg_wf_body e f labels inc)
              (BuildGradient_measure e)
              (BuildGradient_measure_body e f labels inc)
              (BuildGradient_fuel inc edges)
              (BuildGradient_init inc edges fh) Hinit) as [s' Hs'].
  - unfold BuildGradient_measure, BuildGradient_fuel; simpl.
    rewrite (cells_same inc e Hd), length_app; simpl.
    assert (H1 := count_le_length (unvisited inc) (cells e)).
    assert (H2 := marker_in_front_le (edges ++ [iteration_marker])); lia.
  - exists s'; split; [exact Hs'|].
    destruct (while_loop_invariant _ _ _ (bg_wf_body e f labels inc) _ _ _
                                   Hinit Hs') as [Hwf Hc].
    split; [exact Hwf|].
    destruct Hwf as [_ _ (A & B & Hq & _) _ _ _].
    unfold BuildGradient_cond in Hc; rewrite Hq in Hc |- *.
    apply negb_false_iff, Z.eqb_eq in Hc; rewrite length_app in Hc; simpl in Hc.
    destruct A; [destruct B; [reflexivity|] |]; simpl in Hc; lia.
Qed.

(** C10: on a grid of incrementations initialised to 0 and a queue of seeds
    that are cells of the grid, the loop of [BuildGradient] terminates with
    only the iteration marker in the queue; each cell is given an
    incrementation at most once, the incrementation is positive, and the
    cells never given one are still at 0; a visit of a cell that has its
    incrementation already pushes nothing on the queue. *)
Theorem BuildGradient_loop_terminates
        elevations flowdirs incrementations edges flat_height labels :
  same_dimensions incrementations elevations ->
  (forall c, In c edges -> in_grid elevations c = true) ->
  (forall c, aget incrementations c = 0) ->
  exists s',
    BuildGradient elevations flowdirs incrementations edges flat_height labels
    = Some s'
    /\ bg_edges s' = [iteration_marker]
    /\ NoDup (bg_assigned s')
    /\ (forall c, In c (bg_assigned s') -> 1 <= aget (bg_incrementations s') c)
    /\ (forall c, ~ In c (bg_assigned s') -> aget (bg_incrementations s') c = 0)
    /\ (forall s c rest,
           bg_edges s = c :: rest -> fst c <> -1 ->
           0 < aget (bg_incrementations s) c ->
           bg_edges (BuildGradient_body elevations flowdirs labels s) = rest).
Proof.
  intros Hd He H0.
  destruct (BuildGradient_terminates elevations flowdirs incrementations edges
              flat_height labels Hd He) as (s' & Hrun & Hwf & Hq).
  exists s'; split; [exact Hrun|]; split; [exact Hq|].
  split; [apply Hwf|]; split; [|split].
  - intros c Hc; destruct (bgw_frame _ _ _ Hwf c) as [[H _] | (_ & _ & H)];
      [contradiction | lia].
  - intros c Hc; destruct (bgw_frame _ _ _ Hwf c) as [[_ H] | (H & _)];
      [rewrite H; apply H0 | contradiction].
  - intros s c rest Hs Hc Hpos; unfold BuildGradient_body; rewrite Hs.
    apply Z.eqb_neq in Hc; rewrite Hc.
    apply Z.gtb_lt in Hpos; rewrite Hpos; reflexivity.
Qed.

Lemma BuildGradient_loop_terminates_witness :
  exists s',
    BuildGradient row_elevations row_flowdirs (init (int_2d_like row_elevations) 0)
                  [(0, 0)] [0] (init (int_2d_like row_elevations) 0)
    = Some s'
    /\ bg_edges s' = [iteration_marker]
    /\ NoDup (bg_assigned s')
    /\ (forall c, In c (bg_assigned s') -> 1 <= aget (bg_incrementations s') c)
    /\ (forall c, ~ In c (bg_assigned s') -> aget (bg_incrementations s') c = 0)
    /\ (forall s c rest,
           bg_edges s = c :: rest -> fst c <> -1 ->
           0 < aget (bg_incrementations s) c ->
           bg_edges (BuildGradient_body row_elevations row_flowdirs
                                        (init (int_2d_like row_elevations) 0) s)
           = rest).
Proof.
  apply BuildGradient_loop_terminates.
  - split; reflexivity.
  - intros c [<- | []]; reflexivity.
  - intros c; reflexivity.
Defined.

(* ------------------------------------------------------------------ *)
(** ** BuildGradient: the layers of the expansion *)

Section BuildGradientLayers.
Variables (e f labels : array2d) (seeds : list grid_cell) (k : Z).
(** Every cell that the expansion can reach is a cell of the grid and has
    a label below [k]. *)
Hypothesis Hreach :
  forall c, flat_reach e f seeds c ->
            in_grid e c = true /\ 0 <= aget labels c < k.

Lemma bg_inv_init inc fh :
  (forall c, aget inc c = 0) -> Z.of_nat (length fh) = k ->
  bg_inv e f labels seeds k (BuildGradient_init inc seeds fh).
Proof.
  intros H0 Hlen; constructor; simpl; auto; try lia.
  - exists seeds, []; split; [reflexivity|]; split.
    + rewrite app_nil_r; apply Forall_forall; intros c Hc.
      apply flat_seed; exact Hc.
    + intros c n Hc; rewrite H0 in Hc; lia.
  - intros c; rewrite H0; lia.
  - intros c Hc; rewrite H0 in Hc; lia.
  - intros c Hc; rewrite H0 in Hc; lia.
Qed.

Lemma bg_inv_body s :
  bg_inv e f labels seeds k s -> BuildGradient_cond s = true ->
  bg_inv e f labels seeds k (BuildGradient_body e f labels s).
Proof.
  intros [(A & B & Hq & HAB & Hlay) Hr Hl Hre Hh Hlen Has] _.
  destruct s as [inc edges fh loops assigned]; simpl in *; subst edges.
  unfold BuildGradient_body; simpl.
  destruct A as [|a A1]; simpl in *.
  - (* the marker: the layer is over *)
    constructor; simpl; auto; try lia.
    + exists B, []; split; [reflexivity|]; split;
        [rewrite app_nil_r; exact HAB|].
      intros c n Hc Hs.
      destruct (Hlay c n Hc Hs) as [H | [[_ []] | [H1 H2]]]; [auto|].
      right; left; split; [lia | exact H2].
    + intros c; specialize (Hr c); lia.
  - inversion HAB as [|? ? Hra HAB']; subst.
    destruct (Hreach a Hra) as [Hga Hla].
    rewrite (in_grid_not_marker e a Hga).
    destruct (aget inc a >? 0) eqn:Hv.
    + (* a cell that already has its incrementation *)
      apply Z.gtb_lt in Hv.
      constructor; simpl; auto.
      exists A1, B; split; [reflexivity|]; split; [exact HAB'|].
      intros c n Hc Hs.
      destruct (Hlay c n Hc Hs) as [H | [[H1 [<- | H2]] | H]]; auto.
      left; specialize (Hr a); lia.
    + (* a cell that takes the number of the layer *)
      assert (Hva : aget inc a <= 0)
        by (destruct (Z.gtb_spec (aget inc a) 0); [discriminate | lia]).
      constructor; simpl; auto.
      * exists A1, (B ++ flat_neighbours e f a); split;
          [rewrite <- app_assoc; reflexivity|]; split.
        { rewrite app_assoc; apply Forall_app; split; [exact HAB'|].
          apply Forall_forall; intros n Hn.
          apply flat_next with a; assumption. }
        intros c n Hc Hs.
        destruct (cell_eq_dec a c) as [<- | Hne].
        { right; right; rewrite aget_aset_eq; split; [reflexivity|].
          apply in_app_iff; right; exact Hs. }
        rewrite (aget_aset_ne _ a c) in Hc |- * by exact Hne.
        destruct (cell_eq_dec a n) as [<- | Hnn].
        { left; rewrite aget_aset_eq.
          destruct (Hlay c a Hc Hs) as [H | [[H1 _] | [H1 _]]]; lia. }
        rewrite aget_aset_ne by exact Hnn.
        destruct (Hlay c n Hc Hs) as [H | [[H1 [Heq | H2]] | [H1 H2]]]; auto.
        { contradiction. }
        right; right; split; [exact H1 | apply in_app_iff; auto].
      * intros c; destruct (cell_eq_dec a c) as [<- | Hne];
          [rewrite aget_aset_eq; lia | rewrite aget_aset_ne by exact Hne; auto].
      * intros c; destruct (cell_eq_dec a c) as [<- | Hne]; [auto|].
        rewrite aget_aset_ne by exact Hne; auto.
      * intros c Hc.
        assert (Hin : vec_in_range fh (aget labels a) = true)
          by (apply vec_in_range_iff; lia).
        assert (Hle : aget (aset inc a loops) c <= loops).
        { destruct (cell_eq_dec a c) as [<- | Hne];
            [rewrite aget_aset_eq; lia|].
          rewrite aget_aset_ne by exact Hne; apply Hr. }
        destruct (Z.eq_dec (aget labels a) (aget labels c)) as [Heq | Hne].
        { rewrite <- Heq, vec_get_set_eq by exact Hin; exact Hle. }
        rewrite vec_get_set_ne by exact Hne.
        assert (Hac : a <> c) by congruence.
        rewrite aget_aset_ne in Hc |- * by exact Hac; auto.
      * rewrite length_vec_set; reflexivity.
Qed.

(** The outcome of one call of [BuildGradient] by the orchestrator. *)
Lemma BuildGradient_layers inc fh :
  same_dimensions inc e ->
  (forall c, aget inc c = 0) -> Z.of_nat (length fh) = k ->
  exists s',
    BuildGradient e f inc seeds fh labels = Some s'
    /\ bg_edges s' = [iteration_marker]
    /\ bg_inv e f labels seeds k s'
    /\ (forall c n,
           0 < aget (bg_incrementations s') c -> flat_step e f c n ->
           0 < aget (bg_incrementations s') n
               <= aget (bg_incrementations s') c + 1).
Proof.
  intros Hd H0 Hlen.
  destruct (BuildGradient_terminates e f inc seeds fh labels Hd)
    as (s' & Hrun & _ & Hq).
  { intros c Hc; apply Hreach, flat_seed, Hc. }
  exists s'; split; [exact Hrun|]; split; [exact Hq|].
  destruct (while_loop_invariant _ _ _ bg_inv_body _ _ _
              (bg_inv_init inc fh H0 Hlen) Hrun) as [I _].
  split; [exact I|].
  destruct I as [(A & B & HAB & _ & Hlay) _ _ _ _ _ _].
  rewrite Hq in HAB.
  assert (A = [] /\ B = []) as [-> ->].
  { destruct A as [|a A]; simpl in HAB.
    - injection HAB as <-; auto.
    - injection HAB as _ HAB; destruct A; discriminate. }
  intros c n Hc Hs.
  destruct (Hlay c n Hc Hs) as [H | [[_ []] | [_ []]]]; exact H.
Qed.
End BuildGradientLayers.

(* ------------------------------------------------------------------ *)
(** ** CombineGradients *)

Lemma cg_wf_body e away fh labels s :
  cg_wf e s -> CombineGradients_cond s = true ->
  cg_wf e (CombineGradients_body e away fh labels s).
Proof.
  intros [Hd Hq] _; unfold CombineGradients_body.
  destruct (cg_edge s) as [|c rest] eqn:Hedge;
    [split; [exact Hd | rewrite Hedge; constructor]|].
  inversion Hq as [|? ? Hc Hrest]; subst.
  destruct (aget (cg_towards s) c =? -1); split; cbn [cg_towards cg_edge]; auto.
  apply Forall_app; split; [exact Hrest|].
  apply Forall_forall; intros n Hn.
  apply in_level_neighbours in Hn; apply Hn.
Qed.

Lemma CombineGradients_measure_body e away fh labels s :
  cg_wf e s -> CombineGradients_cond s = true ->
  (CombineGradients_measure e (CombineGradients_body e away fh labels s)
   < CombineGradients_measure e s)%nat.
Proof.
  intros [Hd Hq] Hcond; unfold CombineGradients_body, CombineGradients_measure.
  destruct (cg_edge s) as [|c rest] eqn:Hedge.
  { unfold CombineGradients_cond in Hcond; rewrite Hedge in Hcond; discriminate. }
  inversion Hq as [|? ? Hc Hrest]; subst.
  destruct (aget (cg_towards s) c =? -1) eqn:Hdone;
    cbn [cg_towards cg_edge length]; [lia|].
  assert (Hcount : (count (not_combined (aset (cg_towards s) c (-1))) (cells e)
                    < count (not_combined (cg_towards s)) (cells e))%nat).
  { apply count_decrease with c.
    - intros x _; unfold not_combined.
      destruct (cell_eq_dec c x) as [<- | Hne].
      + rewrite aget_aset_eq; discriminate.
      + rewrite aget_aset_ne by exact Hne; auto.
    - apply in_cells; exact Hc.
    - unfold not_combined; rewrite Hdone; reflexivity.
    - unfold not_combined; rewrite aget_aset_eq; reflexivity. }
  assert (H8 := length_level_neighbours e c).
  rewrite length_app; lia.
Qed.

Lemma cg_inv_body towards0 away mask0 e fh labels s :
  cg_inv towards0 away mask0 fh labels s -> CombineGradients_cond s = true ->
  cg_inv towards0 away mask0 fh labels (CombineGradients_body e away fh labels s).
Proof.
  intros [Hd Hcells Hread] _; unfold CombineGradients_body.
  destruct (cg_edge s) as [|c rest]; [constructor; assumption|].
  destruct (aget (cg_towards s) c =? -1) eqn:Hdone; [constructor; assumption|].
  apply Z.eqb_neq in Hdone.
  destruct (Hcells c) as [[Ht Hm] | (_ & Ht & _)]; [|contradiction].
  constructor; cbn [cg_towards cg_mask cg_read].
  - destruct (aget (cg_towards s) c >? 0); exact Hd.
  - intros x; destruct (cell_eq_dec c x) as [<- | Hne].
    + right; rewrite aget_aset_eq, <- Ht.
      split; [exact Hdone|]; split; [reflexivity|].
      destruct (aget (cg_towards s) c >? 0);
        [apply aget_aset_eq | rewrite Hm; reflexivity].
    + rewrite aget_aset_ne by exact Hne.
      destruct (aget (cg_towards s) c >? 0);
        [rewrite aget_aset_ne by exact Hne|]; apply Hcells.
  - destruct (aget (cg_towards s) c >? 0) eqn:Hpos; [|exact Hread].
    destruct (aget away c >? 0) eqn:Haway; [|exact Hread].
    constructor; [|exact Hread].
    apply Z.gtb_lt in Hpos, Haway; rewrite <- Ht; split; assumption.
Qed.

(** Every run of [CombineGradients] on a queue of cells of the grid
    returns. *)
Lemma CombineGradients_returns e towards away mask edge fh labels :
  same_dimensions towards e ->
  (forall c, In c edge -> in_grid e c = true) ->
  exists s',
    CombineGradients e towards away mask edge fh labels = Some s'
    /\ cg_edge s' = []
    /\ cg_inv towards away mask fh labels s'.
Proof.
  intros Hd He; unfold CombineGradients.
  set (s0 := {| cg_towards := towards; cg_mask := mask; cg_edge := edge;
                cg_read := [] |}).
  assert (Hwf : cg_wf e s0) by (split; [exact Hd | apply Forall_forall; exact He]).
  assert (Hinv : cg_inv towards away mask fh labels s0).
  { constructor; cbn; auto. split; [split|]; reflexivity. }
  destruct (while_loop_terminates CombineGradients_cond
              (CombineGradients_body e away fh labels) (cg_wf e)
              (cg_wf_body e away fh labels)
              (CombineGradients_measure e)
              (CombineGradients_measure_body e away fh labels)
              (CombineGradients_fuel towards edge) s0 Hwf) as [s' Hs'].
  - unfold CombineGradients_measure, CombineGradients_fuel; subst s0.
    cbn [cg_towards cg_edge]; rewrite (cells_same towards e Hd).
    assert (H := count_le_length (not_combined towards) (cells e)); lia.
  - exists s'; split; [exact Hs'|].
    destruct (while_loop_invariant _ _ _
                (cg_inv_body towards away mask e fh labels) _ _ _ Hinv Hs')
      as [I Hc].
    split; [|exact I].
    unfold CombineGradients_cond in Hc.
    destruct (cg_edge s'); [reflexivity | discriminate].
Qed.

(** C4: [CombineGradients], run on a mask initialised to -1, returns, and
    for every cell that it visited (its [towards] was not -1 and is -1 at
    the end): if the distance [towards] of the cell was positive its mask is
    [2*(towards-1)], plus [flat_height[label] - away + 1] when [away] is
    positive as well; if the distance was 0 its mask is left at -1. *)
Theorem CombineGradients_rule
        elevations towards away flat_resolution_mask edge flat_height labels :
  same_dimensions towards elevations ->
  (forall c, In c edge -> in_grid elevations c = true) ->
  (forall c, aget flat_resolution_mask c = -1) ->
  exists s',
    CombineGradients elevations towards away flat_resolution_mask edge
                     flat_height labels = Some s'
    /\ forall c,
      aget towards c <> -1 -> aget (cg_towards s') c = -1 ->
      (0 < aget towards c ->
       aget (cg_mask s') c =
       2 * (aget towards c - 1)
       + (if aget away c >? 0
          then vec_get flat_height (aget labels c) - aget away c + 1
          else 0))
      /\ (aget towards c = 0 -> aget (cg_mask s') c = -1).
Proof.
  intros Hd He Hm.
  destruct (CombineGradients_returns elevations towards away
              flat_resolution_mask edge flat_height labels Hd He)
    as (s' & Hrun & _ & I).
  exists s'; split; [exact Hrun|].
  intros c Hc Hdone.
  destruct (cgi_cells _ _ _ _ _ _ I c) as [[Ht _] | (_ & _ & Hmask)];
    [congruence|].
  split.
  - intros Hpos; rewrite Hmask.
    destruct (Z.gtb_spec (aget towards c) 0); [|lia].
    unfold combined; destruct (aget away c >? 0); lia.
  - intros H0; rewrite Hmask, H0; simpl; apply Hm.
Qed.

Lemma CombineGradients_rule_witness :
  exists s',
    CombineGradients row_elevations
                     (grid_of_rows [[1; 2; 3]] 0 0) (grid_of_rows [[0; 1; 0]] 0 0)
                     (init (int_2d_like row_elevations) (-1))
                     [(0, 0)] [3] (init (int_2d_like row_elevations) 0) = Some s'
    /\ aget (cg_mask s') (1, 0) = 5.
Proof.
  destruct (CombineGradients_rule row_elevations
              (grid_of_rows [[1; 2; 3]] 0 0) (grid_of_rows [[0; 1; 0]] 0 0)
              (init (int_2d_like row_elevations) (-1))
              [(0, 0)] [3] (init (int_2d_like row_elevations) 0))
    as (s' & Hrun & H).
  - split; reflexivity.
  - intros c [<- | []]; reflexivity.
  - intros c; reflexivity.
  - exists s'; split; [exact Hrun|].
    assert (Hdone : option_map (fun s => aget (cg_towards s) (1, 0)) (Some s')
                    = Some (-1))
      by (rewrite <- Hrun; vm_compute; reflexivity).
    injection Hdone as Hdone.
    destruct (H (1, 0)) as [Hpos _];
      [vm_compute; discriminate | exact Hdone |].
    rewrite Hpos; [vm_compute; reflexivity | vm_compute; reflexivity].
Defined.

(* ------------------------------------------------------------------ *)
(** ** The orchestrator on grids of the same dimensions *)

Lemma flat_reach_labelled g e f labels k seeds0 seeds c :
  labelling_ok g e labels k seeds0 -> same_dimensions e g ->
  (forall s, In s seeds -> aget labels s <> -1) ->
  flat_reach e f seeds c ->
  in_grid e c = true /\ 0 <= aget labels c < k.
Proof.
  intros Hok [Hw Hh] Hs.
  assert (Hg : forall x, in_grid e x = in_grid g x)
    by (intros; apply in_grid_same; assumption).
  induction 1 as [c Hc | c n _ [IHg IHl] Hstep].
  - specialize (Hs c Hc); split.
    + rewrite Hg; apply (lab_in_grid _ _ _ _ _ Hok); exact Hs.
    + pose proof (lab_range _ _ _ _ _ Hok c); lia.
  - apply in_flat_neighbours in Hstep; destruct Hstep as (Hn & Hgn & He & _).
    split; [exact Hgn|].
    assert (Heq : aget labels n = aget labels c).
    { apply (lab_closed _ _ _ _ _ Hok); [lia|].
      repeat split; auto; rewrite <- Hg; assumption. }
    lia.
Qed.

Lemma level_reach_labelled g e labels k seeds c n :
  labelling_ok g e labels k seeds -> aget labels c <> -1 ->
  level_reach g e c n -> aget labels n = aget labels c.
Proof.
  intros Hok Hc; induction 1 as [_ | n m _ IH Hstep]; [reflexivity|].
  rewrite <- IH; apply (lab_closed _ _ _ _ _ Hok); [congruence | exact Hstep].
Qed.

Lemma same_run (A : Type) (x : option A) (a b : A) :
  x = Some a -> x = Some b -> a = b.
Proof. congruence. Qed.

Lemma resolve_flats_barnes_ok e f m l :
  same_dimensions e f ->
  exists r, resolve_flats_barnes e f m l = Some r /\ run_ok e f r.
Proof.
  intros Hd; unfold resolve_flats_barnes; cbv zeta.
  assert (Hlow : forall c, In c (fst (find_flat_edges [] [] f e)) ->
                           is_low_edge f e c)
    by (intros; apply find_flat_edges_low; assumption).
  assert (Hhigh : forall c, In c (snd (find_flat_edges [] [] f e)) ->
                            is_high_edge f e c)
    by (intros; apply find_flat_edges_high; assumption).
  assert (Hg : forall x, in_grid e x = in_grid f x)
    by (intros; destruct Hd; apply in_grid_same; assumption).
  destruct (find_flat_edges [] [] f e) as [low high] eqn:Hedges;
    cbn [fst snd] in *.
  destruct (Z.of_nat (length low) =? 0) eqn:Hempty.
  - (* no low edge *)
    assert (low = []) as -> by (destruct low; [reflexivity | discriminate]).
    eexists; split; [reflexivity|].
    constructor; rewrite ?Hedges;
      cbn [run_low_edges run_high_edges run_labels run_group_number
           run_flat_height run_towards run_away run_mask run_subscripts
           fst snd]; auto; try lia;
      try (intros c; rewrite aget_init; lia).
    + apply labelling_ok_init.
    + split; [split|]; reflexivity.
  - (* labels *)
    destruct (label_flats_ok f e low
                (init (resize l (width f) (height f)) (-1)) 0 []
                (labelling_ok_init f e l) (Z.le_refl 0))
      as (labels & k & Hlab & Hok & Hk).
    { intros c Hc; apply (Hlow c Hc). }
    simpl app in Hok; rewrite Hlab.
    (* towards *)
    assert (Hrl : forall c, flat_reach e f low c ->
                            in_grid e c = true /\ 0 <= aget labels c < k).
    { intros c Hc; apply (flat_reach_labelled f e f labels k low low c); auto.
      apply (lab_seeds _ _ _ _ _ Hok). }
    destruct (BuildGradient_layers e f labels low k Hrl
                (init (int_2d_like e) 0) (vec_make k))
      as (t & Ht & _ & It & _);
      [split; reflexivity | intros; apply aget_init
       | rewrite length_vec_make; lia |].
    destruct (BuildGradient_terminates e f (init (int_2d_like e) 0) low
                (vec_make k) labels) as (t' & Ht' & Wt & _);
      [split; reflexivity | intros c Hc; apply Hrl, flat_seed, Hc |].
    rewrite (same_run _ _ _ _ Ht' Ht) in Wt; clear t' Ht'.
    rewrite Ht.
    (* away *)
    assert (Hrh : forall c,
               flat_reach e f (labelled_high_edges labels high) c ->
               in_grid e c = true /\ 0 <= aget labels c < k).
    { intros c Hc.
      apply (flat_reach_labelled f e f labels k low
               (labelled_high_edges labels high) c); auto.
      intros s Hs; apply filter_In in Hs; destruct Hs as [_ Hs].
      apply negb_true_iff, Z.eqb_neq in Hs; exact Hs. }
    destruct (BuildGradient_layers e f labels (labelled_high_edges labels high)
                k Hrh (init (int_2d_like e) 0) (bg_flat_height t))
      as (a & Ha & _ & Ia & Hlayers);
      [split; reflexivity | intros; apply aget_init
       | apply (bgi_length _ _ _ _ _ _ It) |].
    rewrite Ha.
    (* the combination *)
    destruct (CombineGradients_returns e (bg_incrementations t)
                (bg_incrementations a)
                (set_no_data (init (resize m (width f) (height f)) (-1)) (-1))
                low (bg_flat_height a) labels)
      as (c & Hc & _ & Ic);
      [apply (bgw_dims _ _ _ Wt) | intros x Hx; apply Hrl, flat_seed, Hx |].
    rewrite Hc.
    eexists; split; [reflexivity|].
    constructor; rewrite ?Hedges;
      cbn [run_low_edges run_high_edges run_labels run_group_number
           run_flat_height run_towards run_away run_mask run_subscripts
           fst snd]; auto; try lia.
    + intros x Hx; apply filter_In in Hx; apply Hx.
    + apply (bgi_length _ _ _ _ _ _ Ia).
    + apply (bgi_reach _ _ _ _ _ _ It).
    + apply (bgi_reach _ _ _ _ _ _ Ia).
    + apply (bgi_height _ _ _ _ _ _ Ia).
    + intros x.
      destruct (cgi_cells _ _ _ _ _ _ Ic x) as [[_ Hm] | (_ & _ & Hm)].
      * left; rewrite Hm; reflexivity.
      * destruct (Z.gtb_spec (aget (bg_incrementations t) x) 0) as [Hpos | Hle];
          [right; split; [lia | exact Hm] | left; rewrite Hm; reflexivity].
    + destruct (cgi_dims _ _ _ _ _ _ Ic) as [[Hw Hh] Hnd].
      split; [split|]; [rewrite Hw | rewrite Hh | rewrite Hnd]; reflexivity.
    + apply Forall_forall; intros i Hi; apply in_map_iff in Hi.
      destruct Hi as (x & <- & Hx).
      apply in_app_iff in Hx; destruct Hx as [Hx | Hx].
      { pose proof (cgi_read _ _ _ _ _ _ Ic) as Hr.
        rewrite Forall_forall in Hr; destruct (Hr x Hx) as [Hpos _].
        apply Hrl, (bgi_reach _ _ _ _ _ _ It), Hpos. }
      apply in_app_iff in Hx; destruct Hx as [Hx | Hx].
      { pose proof (bgi_assigned _ _ _ _ _ _ Ia) as Hr.
        rewrite Forall_forall in Hr; apply Hrh, Hr, Hx. }
      pose proof (bgi_assigned _ _ _ _ _ _ It) as Hr.
      rewrite Forall_forall in Hr; apply Hrl, Hr, Hx.
Qed.

(* ------------------------------------------------------------------ *)
(** ** The orchestrator on any pair of grids: dimensions *)

Lemma label_this_dims c k labels e labels' :
  label_this c k labels e = Some labels' -> same_dimensions labels' labels.
Proof.
  unfold label_this.
  destruct (while_loop _ _ _ _) as [s'|] eqn:Hrun; [|discriminate].
  intros [= <-].
  apply (while_loop_invariant label_this_cond
           (label_this_body k (aget e c) e)
           (fun s => same_dimensions (lt_labels s) labels)) in Hrun.
  - apply Hrun.
  - intros s Hs _; unfold label_this_body.
    destruct (lt_to_fill s) as [|q rest]; [exact Hs|].
    destruct (negb (aget e q =? aget e c) || (aget (lt_labels s) q >? -1));
      exact Hs.
  - split; reflexivity.
Qed.

Lemma label_flats_dims e edges :
  forall labels k labels' k',
    label_flats e edges labels k = Some (labels', k') ->
    same_dimensions labels' labels.
Proof.
  induction edges as [|i rest IH]; intros labels k labels' k'; simpl.
  - intros [= <- _]; split; reflexivity.
  - destruct (aget labels i =? -1); [|apply IH].
    destruct (label_this i k labels e) as [labels1|] eqn:H1; [|discriminate].
    intros H; apply IH in H; apply label_this_dims in H1.
    destruct H, H1; split; congruence.
Qed.

Lemma CombineGradients_dims e towards away mask edge fh labels s' :
  CombineGradients e towards away mask edge fh labels = Some s' ->
  same_dimensions (cg_mask s') mask.
Proof.
  unfold CombineGradients; intros Hrun.
  apply (while_loop_invariant _ _ _
           (cg_inv_body towards away mask e fh labels)) in Hrun.
  - apply Hrun.
  - constructor; cbn; auto. split; [split|]; reflexivity.
Qed.

(** C7, as the code has it: the orchestrator compares no dimensions.
    Whatever the dimensions of the two inputs, a run that returns has
    entered the edge-finding traversal first, and its mask and labels have
    the dimensions of the flow-direction grid. *)
Theorem dimensions_are_not_checked
        elevations flowdirs flat_resolution_mask labels r :
  resolve_flats_barnes elevations flowdirs flat_resolution_mask labels = Some r ->
  hd_error (run_report r) = Some SearchingForFlats
  /\ same_dimensions (run_mask r) flowdirs
  /\ same_dimensions (run_labels r) flowdirs.
Proof.
  unfold resolve_flats_barnes; cbv zeta.
  destruct (Z.of_nat (length (fst (find_flat_edges [] [] flowdirs elevations)))
            =? 0).
  { intros [= <-]; cbn; repeat split. }
  destruct (label_flats _ _ _ _) as [[labels1 k]|] eqn:Hlab; [|discriminate].
  destruct (BuildGradient _ _ _ _ _ _) as [t|]; [|discriminate].
  destruct (BuildGradient _ _ _ _ _ _) as [a|]; [|discriminate].
  destruct (CombineGradients _ _ _ _ _ _ _) as [c|] eqn:Hc; [|discriminate].
  intros [= <-]; cbn [run_report run_mask run_labels].
  split; [reflexivity|]; split.
  - apply CombineGradients_dims in Hc; exact Hc.
  - apply label_flats_dims in Hlab; exact Hlab.
Qed.

Lemma dimensions_are_not_checked_witness :
  ~ same_dimensions wide_elevations narrow_flowdirs
  /\ exists r,
    resolve_flats_barnes wide_elevations narrow_flowdirs blank blank = Some r
    /\ hd_error (run_report r) = Some SearchingForFlats
    /\ same_dimensions (run_mask r) narrow_flowdirs
    /\ same_dimensions (run_labels r) narrow_flowdirs.
Proof.
  split; [intros [H _]; vm_compute in H; discriminate|].
  destruct (resolve_flats_barnes wide_elevations narrow_flowdirs blank blank)
    as [r|] eqn:Hrun; [|vm_compute in Hrun; discriminate].
  exists r; split; [reflexivity|].
  apply (dimensions_are_not_checked wide_elevations narrow_flowdirs blank blank).
  exact Hrun.
Defined.

(** C7 as the specification words it fails: on three elevations and two
    flow directions the run is not refused, it enters the traversal and
    returns a mask. *)
Lemma mismatch_is_not_refused :
  ~ spec_mismatch_refused wide_elevations narrow_flowdirs blank blank.
Proof.
  intros H.
  destruct (resolve_flats_barnes wide_elevations narrow_flowdirs blank blank)
    as [r|] eqn:Hrun; [|vm_compute in Hrun; discriminate].
  apply (H ltac:(intros [Hw _]; vm_compute in Hw; discriminate) r Hrun).
  assert (Hhd : option_map (fun r => hd_error (run_report r)) (Some r)
                = Some (Some SearchingForFlats))
    by (rewrite <- Hrun; vm_compute; reflexivity).
  injection Hhd as Hhd.
  destruct (run_report r) as [|d ?]; [discriminate|].
  injection Hhd as ->; left; reflexivity.
Qed.

(** On the grids of different widths the run goes through all its passes. *)
Example mismatch_run_outcome :
  option_map (fun r => (map (aget (run_mask r)) [(0, 0); (1, 0)], run_report r))
             (resolve_flats_barnes wide_elevations narrow_flowdirs blank blank)
  = Some ([0; 2],
          [SearchingForFlats; LabelingFlats; FoundUniqueFlats 1;
           BarnesStep; BarnesStep; CombiningSteps]).
Proof. vm_compute; reflexivity. Qed.

(* ------------------------------------------------------------------ *)
(** ** The subscripts of flat_height *)

(** C9: in a run of the orchestrator on grids of the same dimensions, every
    subscript [labels(x,y)] at which the two calls of [BuildGradient] and
    [CombineGradients] access [flat_height] is at least 0 and below the
    number of regions, which is the size of [flat_height]: the access is
    in bounds and never uses the label -1. *)
Theorem flat_height_subscripts_in_bounds
        elevations flowdirs flat_resolution_mask labels :
  same_dimensions elevations flowdirs ->
  exists r,
    resolve_flats_barnes elevations flowdirs flat_resolution_mask labels = Some r
    /\ Z.of_nat (length (run_flat_height r)) = run_group_number r
    /\ Forall (fun i => 0 <= i < run_group_number r
                        /\ vec_in_range (run_flat_height r) i = true)
              (run_subscripts r).
Proof.
  intros Hd.
  destruct (resolve_flats_barnes_ok elevations flowdirs flat_resolution_mask
              labels Hd) as (r & Hrun & Hok).
  exists r; split; [exact Hrun|]; split; [apply Hok|].
  pose proof (ro_subscripts _ _ _ Hok) as Hs.
  rewrite Forall_forall in Hs |- *; intros i Hi.
  split; [apply Hs, Hi|].
  apply vec_in_range_iff; rewrite (ro_height _ _ _ Hok); apply Hs, Hi.
Qed.

Lemma flat_height_subscripts_in_bounds_witness :
  exists r,
    resolve_flats_barnes row_elevations row_flowdirs blank blank = Some r
    /\ Z.of_nat (length (run_flat_height r)) = run_group_number r
    /\ Forall (fun i => 0 <= i < run_group_number r
                        /\ vec_in_range (run_flat_height r) i = true)
              (run_subscripts r).
Proof.
  apply flat_height_subscripts_in_bounds; split; reflexivity.
Defined.

(* ------------------------------------------------------------------ *)
(** ** The mask *)

Lemma combined_nonneg t a h : 0 < t -> (0 < a -> a <= h) -> 0 <= combined t a h.
Proof.
  intros Ht Ha; unfold combined.
  destruct (Z.gtb_spec a 0); [specialize (Ha ltac:(lia))|]; lia.
Qed.

(** C6, as the code has it: in the mask of a run on grids of the same
    dimensions, a cell that holds a value other than -1 is either a low
    edge (a cell with a defined flow direction next to a flat cell of its
    elevation) or a cell without flow direction reachable from a low edge
    through flat cells of equal elevation; every other cell, so every
    non-flat cell that is no low edge and every cell of a flat without
    outlet, holds -1. *)
Theorem mask_is_set_on_drained_cells_only
        elevations flowdirs flat_resolution_mask labels :
  same_dimensions elevations flowdirs ->
  exists r,
    resolve_flats_barnes elevations flowdirs flat_resolution_mask labels = Some r
    /\ forall c,
      aget (run_mask r) c <> -1 ->
      (In c (run_low_edges r) /\ is_low_edge flowdirs elevations c)
      \/ (aget flowdirs c = NO_FLOW
          /\ flat_reach elevations flowdirs (run_low_edges r) c).
Proof.
  intros Hd.
  destruct (resolve_flats_barnes_ok elevations flowdirs flat_resolution_mask
              labels Hd) as (r & Hrun & Hok).
  exists r; split; [exact Hrun|].
  intros c Hc.
  destruct (ro_mask _ _ _ Hok c) as [Hm | [Hpos _]]; [contradiction|].
  pose proof (ro_towards _ _ _ Hok c Hpos) as Hreach.
  destruct Hreach as [s Hs | s n Hs Hstep].
  - left; split; [exact Hs|].
    apply find_flat_edges_low; rewrite <- (ro_low _ _ _ Hok); exact Hs.
  - right; split.
    + apply in_flat_neighbours in Hstep; apply Hstep.
    + apply flat_next with s; assumption.
Qed.

Lemma mask_is_set_on_drained_cells_only_witness :
  exists r,
    resolve_flats_barnes row_elevations row_flowdirs blank blank = Some r
    /\ forall c,
      aget (run_mask r) c <> -1 ->
      (In c (run_low_edges r) /\ is_low_edge row_flowdirs row_elevations c)
      \/ (aget row_flowdirs c = NO_FLOW
          /\ flat_reach row_elevations row_flowdirs (run_low_edges r) c).
Proof.
  apply mask_is_set_on_drained_cells_only; split; reflexivity.
Defined.

(** C6 as the specification words it fails on the single row: cell 0 has a
    defined flow direction and its mask is 0. *)
Lemma defined_cell_with_mask :
  ~ (forall r, row_run = Some r -> spec_sentinel row_flowdirs r).
Proof.
  intros H.
  destruct row_run as [r|] eqn:Hrun; [|vm_compute in Hrun; discriminate].
  assert (Hm : option_map (fun r => aget (run_mask r) (0, 0)) row_run = Some 0)
    by (vm_compute; reflexivity).
  rewrite Hrun in Hm; simpl in Hm; injection Hm as Hm.
  specialize (H r eq_refl (0, 0)); rewrite Hm in H.
  assert (H' : 0 = -1)
    by (apply H; intros Hf; vm_compute in Hf; discriminate).
  discriminate.
Qed.

(** C5: in a run on grids of the same dimensions, if a cell [c] without
    flow direction has its mask set and an 8-neighbour [c'] has the label
    of [c] and a distance [towards] smaller by exactly one, then the mask of
    [c] is strictly greater than the mask of [c']. *)
Theorem mask_descends_towards_low_edge
        elevations flowdirs flat_resolution_mask labels :
  same_dimensions elevations flowdirs ->
  exists r,
    resolve_flats_barnes elevations flowdirs flat_resolution_mask labels = Some r
    /\ forall c c',
      aget flowdirs c = NO_FLOW ->
      aget (run_mask r) c <> -1 ->
      In c' (neighbours c) ->
      aget (run_labels r) c' = aget (run_labels r) c ->
      aget (run_towards r) c' = aget (run_towards r) c - 1 ->
      aget (run_mask r) c' < aget (run_mask r) c.
Proof.
  intros Hd.
  destruct (resolve_flats_barnes_ok elevations flowdirs flat_resolution_mask
              labels Hd) as (r & Hrun & Hok).
  exists r; split; [exact Hrun|].
  intros c c' Hflat Hset Hnb Hlab Htow.
  pose proof (ro_labels _ _ _ Hok) as Hl.
  destruct (ro_mask _ _ _ Hok c) as [Hm | [Hpos Hm]]; [contradiction|].
  (* c is a labelled cell of the grid *)
  destruct (flat_reach_labelled flowdirs elevations flowdirs (run_labels r)
              (run_group_number r) (run_low_edges r) (run_low_edges r) c Hl Hd
              (lab_seeds _ _ _ _ _ Hl) (ro_towards _ _ _ Hok c Hpos))
    as [Hgc Hlc].
  assert (Hc_nonneg : 0 <= aget (run_mask r) c).
  { rewrite Hm; apply combined_nonneg; [exact Hpos|].
    apply (ro_away_height _ _ _ Hok). }
  destruct (ro_mask _ _ _ Hok c') as [Hm' | [Hpos' Hm']]; [lia|].
  (* c' has the elevation of c *)
  assert (He : aget elevations c' = aget elevations c).
  { apply (level_reach_elev flowdirs).
    apply (lab_connected _ _ _ _ _ Hl); [lia | exact Hlab]. }
  rewrite Hm, Hm', Hlab, Htow; unfold combined.
  destruct (Z.gtb_spec (aget (run_away r) c') 0) as [Ha' | Ha'].
  - assert (Hstep : flat_step elevations flowdirs c' c).
    { apply in_flat_neighbours; repeat split; auto.
      apply neighbours_sym; exact Hnb. }
    pose proof (ro_away_layers _ _ _ Hok c' c Ha' Hstep) as Hlay.
    destruct (Z.gtb_spec (aget (run_away r) c) 0); lia.
  - destruct (Z.gtb_spec (aget (run_away r) c) 0) as [Ha | Ha]; [|lia].
    pose proof (ro_away_height _ _ _ Hok c Ha); lia.
Qed.

Lemma mask_descends_towards_low_edge_witness :
  exists r,
    resolve_flats_barnes row_elevations row_flowdirs blank blank = Some r
    /\ aget (run_mask r) (0, 0) < aget (run_mask r) (1, 0).
Proof.
  destruct (mask_descends_towards_low_edge row_elevations row_flowdirs
              blank blank (conj eq_refl eq_refl)) as (r & Hrun & H).
  exists r; split; [exact Hrun|].
  assert (Hv : option_map row_view (Some r)
               = Some ([(0, 0)], [0; 0; 0], [1; 2; 3], [0; 0; 0], [0; 2; 4]))
    by (rewrite <- Hrun; vm_compute; reflexivity).
  unfold row_view, row_cells in Hv; cbn [option_map map] in Hv.
  injection Hv as _ Hl0 Hl1 _ Ht0 Ht1 _ _ _ _ _ Hm1 _.
  apply H.
  - vm_compute; reflexivity.
  - rewrite Hm1; discriminate.
  - vm_compute; left; reflexivity.
  - rewrite Hl0, Hl1; reflexivity.
  - rewrite Ht0, Ht1; reflexivity.
Defined.

(** A flat between a draining cell and a higher cell: the low edge is cell
    0 and the high edge cell 2; the distances towards are 1, 2, 3 and away
    2 and 1 on the flat; the mask 0, 3, 6 descends to the low edge. *)
Example ridge_run_outcome :
  option_map
    (fun r => (run_low_edges r, run_high_edges r,
               map (aget (run_towards r)) ridge_cells,
               map (aget (run_away r)) ridge_cells,
               run_flat_height r,
               map (aget (run_mask r)) ridge_cells))
    (resolve_flats_barnes ridge_elevations ridge_flowdirs blank blank)
  = Some ([(0, 0)], [(2, 0)], [1; 2; 3; 0], [0; 2; 1; 0], [2], [0; 3; 6; -1]).
Proof. vm_compute; reflexivity. Qed.

(* ------------------------------------------------------------------ *)
(** ** The labels *)

(** C2, as the code has it: after a run on grids of the same dimensions a
    cell has a label if and only if it is joined to a low edge by a path of
    8-neighbours of equal elevation, whatever the flow directions on the
    path; and the cells that share a label have one elevation and are
    joined by paths of 8-neighbours that carry this label. *)
Theorem labels_are_level_components
        elevations flowdirs flat_resolution_mask labels :
  same_dimensions elevations flowdirs ->
  exists r,
    resolve_flats_barnes elevations flowdirs flat_resolution_mask labels = Some r
    /\ (forall c,
           aget (run_labels r) c <> -1 <->
           exists s, In s (run_low_edges r)
                     /\ level_reach flowdirs elevations s c)
    /\ (forall c c',
           aget (run_labels r) c <> -1 ->
           aget (run_labels r) c' = aget (run_labels r) c ->
           aget elevations c' = aget elevations c
           /\ region_path (run_labels r) (aget (run_labels r) c) c c').
Proof.
  intros Hd.
  destruct (resolve_flats_barnes_ok elevations flowdirs flat_resolution_mask
              labels Hd) as (r & Hrun & Hok).
  exists r; split; [exact Hrun|].
  pose proof (ro_labels _ _ _ Hok) as Hl.
  split.
  - intros c; split.
    + apply (lab_from_seed _ _ _ _ _ Hl).
    + intros (s & Hs & Hreach).
      pose proof (lab_seeds _ _ _ _ _ Hl s Hs) as Hseed.
      rewrite (level_reach_labelled _ _ _ _ _ _ _ Hl Hseed Hreach); exact Hseed.
  - intros c c' Hc Heq.
    pose proof (lab_connected _ _ _ _ _ Hl c c' Hc Heq) as Hreach.
    split; [apply (level_reach_elev flowdirs); exact Hreach|].
    clear Heq; induction Hreach as [_ | n m Hcn IH Hstep].
    + constructor; reflexivity.
    + apply region_next with n; [exact IH | apply Hstep |].
      rewrite <- (level_reach_labelled _ _ _ _ _ _ _ Hl Hc Hcn).
      apply (lab_closed _ _ _ _ _ Hl); [|exact Hstep].
      rewrite (level_reach_labelled _ _ _ _ _ _ _ Hl Hc Hcn); exact Hc.
Qed.

Lemma labels_are_level_components_witness :
  exists r,
    resolve_flats_barnes row_elevations row_flowdirs blank blank = Some r
    /\ (forall c,
           aget (run_labels r) c <> -1 <->
           exists s, In s (run_low_edges r)
                     /\ level_reach row_flowdirs row_elevations s c)
    /\ (forall c c',
           aget (run_labels r) c <> -1 ->
           aget (run_labels r) c' = aget (run_labels r) c ->
           aget row_elevations c' = aget row_elevations c
           /\ region_path (run_labels r) (aget (run_labels r) c) c c').
Proof.
  apply labels_are_level_components; split; reflexivity.
Defined.

(** C2 as the specification words it fails on the single row: cell 0 has a
    label and a defined flow direction. *)
Lemma labelled_cell_with_flow :
  ~ (forall r, row_run = Some r ->
               spec_label_partition row_elevations row_flowdirs r).
Proof.
  intros H.
  destruct row_run as [r|] eqn:Hrun; [|vm_compute in Hrun; discriminate].
  assert (Hl : option_map (fun r => aget (run_labels r) (0, 0)) row_run = Some 0)
    by (vm_compute; reflexivity).
  rewrite Hrun in Hl; simpl in Hl; injection Hl as Hl.
  destruct (proj1 (H r eq_refl (0, 0))) as [Hf _]; [rewrite Hl; discriminate|].
  vm_compute in Hf; discriminate.
Qed.

(* ================================================================== *)
(** * Further properties of the passes *)

(* ------------------------------------------------------------------ *)
(** ** find_flat_edges: what the two queues hold *)

Lemma scan_neighbours_low_complete f e c ns :
  aget f c <> NO_FLOW ->
  (exists d, In d ns /\ in_grid f (neighbour c d) = true
             /\ aget f (neighbour c d) <> no_data f
             /\ aget f (neighbour c d) = NO_FLOW
             /\ aget e (neighbour c d) = aget e c) ->
  scan_neighbours f e c ns = Some LowEdge.
Proof.
  intros Hc; induction ns as [|n ns IH]; intros (d & Hd & Hg & Hnd & Hf & He);
    [destruct Hd|].
  cbn [scan_neighbours].
  assert (Hflow : (aget f c =? NO_FLOW) = false) by (apply Z.eqb_neq; exact Hc).
  destruct Hd as [-> | Hd].
  - rewrite Hg; cbn [negb].
    apply Z.eqb_neq in Hnd; rewrite Hnd.
    rewrite Hflow, Hf, He, !Z.eqb_refl; reflexivity.
  - assert (Htail : scan_neighbours f e c ns = Some LowEdge)
      by (apply IH; exists d; auto).
    destruct (in_grid f (neighbour c n)); cbn [negb]; [|exact Htail].
    destruct (aget f (neighbour c n) =? no_data f); [exact Htail|].
    rewrite Hflow; cbn [negb andb].
    destruct ((aget f (neighbour c n) =? NO_FLOW)
              && (aget e (neighbour c n) =? aget e c)); [reflexivity|exact Htail].
Qed.

Lemma scan_neighbours_high_complete f e c ns :
  aget f c = NO_FLOW ->
  (exists d, In d ns /\ in_grid f (neighbour c d) = true
             /\ aget f (neighbour c d) <> no_data f
             /\ aget e c < aget e (neighbour c d)) ->
  scan_neighbours f e c ns = Some HighEdge.
Proof.
  intros Hc; induction ns as [|n ns IH]; intros (d & Hd & Hg & Hnd & Hlt);
    [destruct Hd|].
  cbn [scan_neighbours].
  assert (Hflow : (aget f c =? NO_FLOW) = true) by (apply Z.eqb_eq; exact Hc).
  rewrite Hflow; cbn [negb andb].
  destruct Hd as [-> | Hd].
  - rewrite Hg; cbn [negb].
    apply Z.eqb_neq in Hnd; rewrite Hnd.
    apply Z.ltb_lt in Hlt; rewrite Hlt; reflexivity.
  - assert (Htail : scan_neighbours f e c ns = Some HighEdge)
      by (apply IH; exists d; auto).
    destruct (in_grid f (neighbour c n)); cbn [negb]; [|exact Htail].
    destruct (aget f (neighbour c n) =? no_data f); [exact Htail|].
    destruct (aget e c <? aget e (neighbour c n)); [reflexivity | exact Htail].
Qed.

Lemma in_neighbours_direction c n :
  In n (neighbours c) <-> exists d, In d directions /\ neighbour c d = n.
Proof.
  change (neighbours c) with (map (neighbour c) directions).
  rewrite in_map_iff; split; intros (d & H1 & H2); exists d; auto.
Qed.

Lemma pushes_low_iff f e c :
  in_grid f c = true -> (pushes_low f e c = true <-> is_low_edge f e c).
Proof.
  intros Hg; unfold pushes_low; rewrite andb_true_iff, negb_true_iff, Z.eqb_neq.
  split.
  - intros [Hnd Hs].
    destruct (scan_neighbours f e c directions) as [[|]|] eqn:Hscan;
      try discriminate.
    destruct (scan_neighbours_low _ _ _ _ Hscan)
      as (H1 & n & Hn & H2 & H3 & H4 & H5).
    repeat split; auto. exists n; repeat split; auto.
  - intros (_ & Hnd & Hc & n & Hn & H2 & H3 & H4 & H5).
    split; [exact Hnd|].
    apply in_neighbours_direction in Hn; destruct Hn as (d & Hd & <-).
    rewrite (scan_neighbours_low_complete f e c directions Hc); [reflexivity|].
    exists d; auto.
Qed.

Lemma pushes_high_iff f e c :
  in_grid f c = true -> (pushes_high f e c = true <-> is_high_edge f e c).
Proof.
  intros Hg; unfold pushes_high; rewrite andb_true_iff, negb_true_iff, Z.eqb_neq.
  split.
  - intros [Hnd Hs].
    destruct (scan_neighbours f e c directions) as [[|]|] eqn:Hscan;
      try discriminate.
    destruct (scan_neighbours_high _ _ _ _ Hscan) as (H1 & n & Hn & H2 & H3 & H4).
    repeat split; auto. exists n; repeat split; auto.
  - intros (_ & Hnd & Hc & n & Hn & H2 & H3 & H4).
    split; [exact Hnd|].
    apply in_neighbours_direction in Hn; destruct Hn as (d & Hd & <-).
    rewrite (scan_neighbours_high_complete f e c directions Hc); [reflexivity|].
    exists d; auto.
Qed.

Lemma visit_cell_filter f e low high a :
  visit_cell f e (low, high) a
  = (low ++ (if pushes_low f e a then [a] else []),
     high ++ (if pushes_high f e a then [a] else [])).
Proof.
  unfold visit_cell, pushes_low, pushes_high.
  destruct (aget f a =? no_data f); cbn [negb andb fst snd];
    [rewrite !app_nil_r; reflexivity|].
  destruct (scan_neighbours f e a directions) as [[|]|]; cbn [fst snd];
    rewrite ?app_nil_r; reflexivity.
Qed.

Lemma visit_cells_filter f e cs :
  forall low high,
    fold_left (visit_cell f e) cs (low, high)
    = (low ++ filter (pushes_low f e) cs, high ++ filter (pushes_high f e) cs).
Proof.
  induction cs as [|a cs IH]; intros low high; cbn [fold_left filter].
  { rewrite !app_nil_r; reflexivity. }
  rewrite visit_cell_filter, IH.
  destruct (pushes_low f e a), (pushes_high f e a);
    rewrite <- ?app_assoc, ?app_nil_r; reflexivity.
Qed.

Lemma NoDup_map_pair (x : Z) (l : list Z) :
  NoDup l -> NoDup (map (fun y => (x, y)) l).
Proof.
  induction 1 as [|y l Hy _ IH]; cbn [map]; constructor; [|exact IH].
  rewrite in_map_iff; intros (y' & [= <-] & Hin); contradiction.
Qed.

Lemma NoDup_zrange n : NoDup (zrange n).
Proof.
  unfold zrange; generalize (seq_NoDup (Z.to_nat n) 0).
  induction 1 as [|k l Hk _ IH]; cbn [map]; constructor; [|exact IH].
  rewrite in_map_iff; intros (k' & Heq & Hin).
  apply Nat2Z.inj in Heq; subst; contradiction.
Qed.

Lemma NoDup_cells_of w h : NoDup (cells_of w h).
Proof.
  unfold cells_of; generalize (NoDup_zrange w).
  induction 1 as [|x xs Hx _ IH]; cbn [flat_map]; [constructor|].
  apply NoDup_app; [apply NoDup_map_pair, NoDup_zrange | exact IH |].
  intros c Hc Hc'; apply in_map_iff in Hc; destruct Hc as (y & <- & _).
  apply in_flat_map in Hc'; destruct Hc' as (x' & Hx' & Hin).
  apply in_map_iff in Hin; destruct Hin as (y' & [= -> _] & _); contradiction.
Qed.

Lemma NoDup_cells g : NoDup (cells g).
Proof. exact (NoDup_cells_of (width g) (height g)). Qed.

(** [find_flat_edges] decides the two kinds of edges: a cell is on
    [low_edges] exactly when it is a cell of the grid that is not no-data,
    has a defined flow direction and has a neighbour in the grid, not
    no-data, without flow direction and of the same elevation; it is on
    [high_edges] exactly when it is a cell of the grid that is not no-data,
    has no flow direction and has a neighbour in the grid, not no-data,
    that is strictly higher. *)
Theorem find_flat_edges_decides flowdirs elevations c :
  (In c (fst (find_flat_edges [] [] flowdirs elevations))
   <-> is_low_edge flowdirs elevations c)
  /\ (In c (snd (find_flat_edges [] [] flowdirs elevations))
      <-> is_high_edge flowdirs elevations c).
Proof.
  unfold find_flat_edges; rewrite visit_cells_filter; cbn [fst snd app].
  rewrite !filter_In, !in_cells; split; split.
  - intros [Hg Hp]; apply pushes_low_iff; assumption.
  - intros H; assert (Hg : in_grid flowdirs c = true) by apply H.
    split; [exact Hg | apply pushes_low_iff; assumption].
  - intros [Hg Hp]; apply pushes_high_iff; assumption.
  - intros H; assert (Hg : in_grid flowdirs c = true) by apply H.
    split; [exact Hg | apply pushes_high_iff; assumption].
Qed.

(** [find_flat_edges] pushes a cell at most once on each queue and never on
    both: [low_edges] and [high_edges] have no repetition and no cell in
    common. *)
Theorem find_flat_edges_no_repetition flowdirs elevations :
  NoDup (fst (find_flat_edges [] [] flowdirs elevations))
  /\ NoDup (snd (find_flat_edges [] [] flowdirs elevations))
  /\ (forall c, In c (fst (find_flat_edges [] [] flowdirs elevations)) ->
                ~ In c (snd (find_flat_edges [] [] flowdirs elevations))).
Proof.
  unfold find_flat_edges; rewrite visit_cells_filter; cbn [fst snd app].
  split; [apply NoDup_filter, NoDup_cells|].
  split; [apply NoDup_filter, NoDup_cells|].
  intros c Hl Hh; apply filter_In in Hl, Hh.
  destruct Hl as [_ Hl], Hh as [_ Hh]; unfold pushes_low, pushes_high in *.
  apply andb_true_iff in Hl, Hh; destruct Hl as [_ Hl], Hh as [_ Hh].
  destruct (scan_neighbours flowdirs elevations c directions) as [[|]|];
    discriminate.
Qed.

(** [find_flat_edges] appends to the queues it is given: their entries stay
    in front, in order, followed by the edges found in the order of the
    scan. *)
Theorem find_flat_edges_appends low_edges high_edges flowdirs elevations :
  find_flat_edges low_edges high_edges flowdirs elevations
  = (low_edges ++ fst (find_flat_edges [] [] flowdirs elevations),
     high_edges ++ snd (find_flat_edges [] [] flowdirs elevations)).
Proof.
  unfold find_flat_edges; rewrite !visit_cells_filter; reflexivity.
Qed.

(* ------------------------------------------------------------------ *)
(** ** label_this: what a call changes *)

Lemma lt_frame_body labels0 e label seed s :
  lt_frame labels0 e label seed s -> label_this_cond s = true ->
  lt_frame labels0 e label seed (label_this_body label (aget e seed) e s).
Proof.
  intros [Hd Hq Hc Hs] _; destruct s as [labels queue]; unfold label_this_body.
  cbn [lt_labels lt_to_fill] in *.
  destruct queue as [|a rest]; [constructor; assumption|].
  inversion Hq as [|? ? Ha Hrest]; subst.
  destruct (negb (aget e a =? aget e seed) || (aget labels a >? -1)) eqn:Hskip.
  - constructor; cbn [lt_labels lt_to_fill]; auto.
    intros H0; destruct (Hs H0) as [H | [<- | H]]; auto.
    left; rewrite Z.eqb_refl in Hskip; cbn in Hskip; apply Z.gtb_lt in Hskip.
    destruct (Hc a) as [Heq | (_ & Heq & _)]; [lia | exact Heq].
  - apply orb_false_iff in Hskip; destruct Hskip as [He Hun].
    apply negb_false_iff, Z.eqb_eq in He.
    assert (Hua : aget labels a <= -1)
      by (destruct (Z.gtb_spec (aget labels a) (-1)); [discriminate | lia]).
    constructor; cbn [lt_labels lt_to_fill].
    + exact Hd.
    + apply Forall_app; split; [exact Hrest|].
      apply Forall_forall; intros n Hn; apply filter_In in Hn.
      destruct Hn as [_ Hn], Hd as [Hw Hh].
      rewrite <- Hn; symmetry; apply in_grid_same; assumption.
    + intros x; destruct (cell_eq_dec a x) as [<- | Hne].
      * right; rewrite aget_aset_eq; repeat split; auto.
        destruct (Hc a) as [Heq | (H0 & _)]; lia.
      * rewrite aget_aset_ne by exact Hne; apply Hc.
    + intros H0; destruct (cell_eq_dec a seed) as [<- | Hne];
        [left; apply aget_aset_eq|].
      rewrite aget_aset_ne by exact Hne.
      destruct (Hs H0) as [H | [Heq | H]]; auto; [contradiction|].
      right; apply in_app_iff; auto.
Qed.

Lemma label_this_frame c label labels e :
  -1 < label -> in_grid labels c = true ->
  exists labels',
    label_this c label labels e = Some labels'
    /\ lt_frame labels e label c {| lt_labels := labels'; lt_to_fill := [] |}.
Proof.
  intros Hl Hc.
  destruct (label_this_terminates c label labels e Hl Hc) as [labels' Hrun].
  exists labels'; split; [exact Hrun|].
  unfold label_this in Hrun.
  destruct (while_loop _ _ _ _) as [s'|] eqn:Hloop; [|discriminate].
  injection Hrun as <-.
  apply (while_loop_invariant _ _ _ (lt_frame_body labels e label c)) in Hloop.
  - destruct Hloop as [Hframe Hcond]; destruct s' as [labels' queue].
    unfold label_this_cond in Hcond; cbn [lt_to_fill lt_labels] in *.
    destruct queue; [exact Hframe | discriminate].
  - constructor; cbn [lt_labels lt_to_fill]; auto.
    + split; reflexivity.
    + intros _; right; left; reflexivity.
Qed.

(** [label_this], called with a label that is not negative on a seed of
    the grid, terminates and overwrites no label: each cell keeps its label,
    or it had none (a value of -1 or less), takes the new label, lies in
    the grid and has the elevation of the seed.  A seed without label takes
    the label. *)
Theorem label_this_keeps_labels c label labels elevations :
  0 <= label -> in_grid labels c = true ->
  exists labels',
    label_this c label labels elevations = Some labels'
    /\ same_dimensions labels' labels
    /\ (forall x,
           aget labels' x = aget labels x
           \/ (aget labels x <= -1 /\ aget labels' x = label
               /\ aget elevations x = aget elevations c
               /\ in_grid labels x = true))
    /\ (aget labels c <= -1 -> aget labels' c = label).
Proof.
  intros Hl Hc.
  destruct (label_this_frame c label labels elevations ltac:(lia) Hc)
    as (labels' & Hrun & [Hd _ Hcells Hseed]).
  cbn [lt_labels lt_to_fill] in *.
  exists labels'; split; [exact Hrun|]; split; [exact Hd|].
  split; [exact Hcells|].
  intros H0; destruct (Hseed H0) as [H | []]; exact H.
Qed.

Lemma label_this_keeps_labels_witness :
  exists labels',
    label_this (1, 0) 0 (init (int_2d_like row_elevations) (-1)) row_elevations
    = Some labels'
    /\ aget labels' (1, 0) = 0.
Proof.
  destruct (label_this_keeps_labels (1, 0) 0
              (init (int_2d_like row_elevations) (-1)) row_elevations)
    as (labels' & Hrun & _ & _ & Hseed); [lia | reflexivity |].
  exists labels'; split; [exact Hrun|].
  apply Hseed; vm_compute; discriminate.
Defined.

(** [label_this] called on a seed that already has a label (a value above
    -1) returns the labels as they are. *)
Theorem label_this_on_labelled_seed c label labels elevations :
  -1 < aget labels c ->
  label_this c label labels elevations = Some labels.
Proof.
  intros Hc; unfold label_this, label_this_fuel.
  replace (8 * length (cells labels) + 1)%nat
    with (S (8 * length (cells labels))) by lia.
  cbn [while_loop label_this_cond lt_to_fill length].
  change (0 <? Z.of_nat 1) with true; cbv iota.
  unfold label_this_body at 2; cbn [lt_to_fill lt_labels].
  apply Z.gtb_lt in Hc; rewrite Hc, orb_true_r.
  destruct (8 * length (cells labels))%nat; reflexivity.
Qed.

Lemma label_this_on_labelled_seed_witness :
  label_this (1, 0) 7 (init (int_2d_like row_elevations) 3) row_elevations
  = Some (init (int_2d_like row_elevations) 3).
Proof.
  apply label_this_on_labelled_seed; vm_compute; reflexivity.
Defined.

Lemma labelling_ok_blank g e labels k :
  same_dimensions labels g -> 0 <= k -> (forall x, aget labels x = -1) ->
  labelling_ok g e labels k [].
Proof.
  intros Hd Hk H0; constructor; try (intros c; rewrite H0; intros; lia).
  - exact Hd.
  - intros s [].
Qed.

(** The flood fill of [label_this] on labels that are all -1: the cells
    that take the label are exactly the cells joined to the seed by a path
    of 8-neighbours of the grid that have the elevation of the seed; all
    other cells stay at -1. *)
Theorem label_this_fills_component c label labels elevations :
  0 <= label -> in_grid labels c = true ->
  (forall x, aget labels x = -1) ->
  exists labels',
    label_this c label labels elevations = Some labels'
    /\ (forall x, level_reach labels elevations c x -> aget labels' x = label)
    /\ (forall x, ~ level_reach labels elevations c x -> aget labels' x = -1).
Proof.
  intros Hl Hc H0.
  destruct (label_this_frame c label labels elevations ltac:(lia) Hc)
    as (labels' & Hrun & [_ _ Hcells Hseed]).
  cbn [lt_labels lt_to_fill] in *.
  exists labels'; split; [exact Hrun|].
  assert (Hok : labelling_ok labels elevations labels' (label + 1) ([] ++ [c])).
  { apply (label_this_ok labels elevations labels label c []); auto.
    apply labelling_ok_blank; auto; split; reflexivity. }
  assert (Hc' : aget labels' c = label).
  { destruct Hseed as [H | []]; [rewrite H0; lia | exact H]. }
  split.
  - intros x Hreach.
    assert (Hne : aget labels' c <> -1) by lia.
    rewrite (level_reach_labelled _ _ _ _ _ _ _ Hok Hne Hreach).
    exact Hc'.
  - intros x Hnot.
    destruct (Z.eq_dec (aget labels' x) (-1)) as [Heq | Hne]; [exact Heq|].
    exfalso; apply Hnot.
    destruct (lab_from_seed _ _ _ _ _ Hok x Hne) as (s & [<- | []] & Hreach).
    exact Hreach.
Qed.

Lemma label_this_fills_component_witness :
  exists labels',
    label_this (1, 0) 0 (init (int_2d_like wide_elevations) (-1)) wide_elevations
    = Some labels'
    /\ aget labels' (0, 0) = 0 /\ aget labels' (2, 0) = -1.
Proof.
  destruct (label_this_fills_component (1, 0) 0
              (init (int_2d_like wide_elevations) (-1)) wide_elevations)
    as (labels' & Hrun & Hin & Hout); [lia | reflexivity | reflexivity |].
  exists labels'; split; [exact Hrun|]; split.
  - apply Hin.
    apply level_next with (1, 0); [constructor; reflexivity|].
    repeat split; vm_compute; auto.
  - apply Hout; intros Hreach.
    apply level_reach_elev in Hreach; vm_compute in Hreach; discriminate.
Defined.

(* ------------------------------------------------------------------ *)
(** ** BuildGradient: distances and heights *)

Section BuildGradientDistances.
Variables (e f labels : array2d) (seeds : list grid_cell).
Hypothesis Hseeds : forall c, In c seeds -> in_grid e c = true.

Lemma bg_bfs_init inc fh :
  (forall c, aget inc c = 0) ->
  bg_bfs e f seeds (BuildGradient_init inc seeds fh).
Proof.
  intros H0; constructor; cbn [BuildGradient_init bg_edges bg_loops
                               bg_incrementations]; try lia.
  - exists seeds, []; split; [reflexivity|]; split; [|split; [|split]].
    + apply Forall_forall; intros c Hc; split; [auto|].
      apply dist_seed; exact Hc.
    + constructor.
    + intros c n Hc; rewrite H0 in Hc; lia.
    + intros c Hc; right; auto.
  - intros c; rewrite H0; lia.
  - intros c Hc; rewrite H0 in Hc; lia.
Qed.

Lemma bg_bfs_body s :
  bg_bfs e f seeds s -> BuildGradient_cond s = true ->
  bg_bfs e f seeds (BuildGradient_body e f labels s).
Proof.
  intros [(A & B & Hq & HA & HB & Hlay & Hsd) Hr Hl Hdist] _.
  destruct s as [inc edges fh loops assigned];
    cbn [bg_edges bg_loops bg_incrementations] in *; subst edges.
  unfold BuildGradient_body; cbn [bg_edges bg_loops bg_incrementations
                                   bg_flat_height bg_assigned].
  destruct A as [|a A1]; cbn [app].
  - (* the marker *)
    change (fst iteration_marker =? -1) with true; cbv iota.
    constructor; cbn [bg_edges bg_loops bg_incrementations]; try lia; auto.
    + exists B, []; split; [reflexivity|]; split; [|split; [|split]].
      * replace (loops + 1 - 1) with loops by lia; exact HB.
      * constructor.
      * intros c n Hc Hs.
        destruct (Hlay c n Hc Hs) as [H | [[_ []] | [H1 H2]]]; [auto|].
        right; left; split; [lia | exact H2].
      * intros c Hc; destruct (Hsd c Hc) as [H | [_ []]]; auto.
    + intros c; specialize (Hr c); lia.
  - inversion HA as [|? ? [Hga Hda] HA1]; subst.
    rewrite (in_grid_not_marker e a Hga).
    destruct (aget inc a >? 0) eqn:Hv.
    + (* a cell that already has its incrementation *)
      apply Z.gtb_lt in Hv.
      constructor; cbn [bg_edges bg_loops bg_incrementations]; auto.
      exists A1, B; split; [reflexivity|]; split; [exact HA1|].
      split; [exact HB|]; split.
      * intros c n Hc Hs.
        destruct (Hlay c n Hc Hs) as [H | [[H1 [<- | H2]] | H]]; auto.
        left; specialize (Hr a); lia.
      * intros c Hc; destruct (Hsd c Hc) as [H | [H1 [<- | H2]]]; auto.
        left; specialize (Hr a); lia.
    + (* a cell that takes the number of the layer *)
      assert (Hva : aget inc a <= 0)
        by (destruct (Z.gtb_spec (aget inc a) 0); [discriminate | lia]).
      constructor; cbn [bg_edges bg_loops bg_incrementations]; auto.
      * exists A1, (B ++ flat_neighbours e f a); split;
          [rewrite <- app_assoc; reflexivity|].
        split; [exact HA1|]; split; [|split].
        { apply Forall_app; split; [exact HB|].
          apply Forall_forall; intros n Hn; split.
          - apply in_flat_neighbours in Hn; apply Hn.
          - replace loops with (loops - 1 + 1) by lia.
            apply dist_next with a; assumption. }
        { intros c n Hc Hs.
          destruct (cell_eq_dec a c) as [<- | Hne].
          { right; right; rewrite aget_aset_eq; split; [reflexivity|].
            apply in_app_iff; right; exact Hs. }
          rewrite (aget_aset_ne _ a c) in Hc |- * by exact Hne.
          destruct (cell_eq_dec a n) as [<- | Hnn].
          { left; rewrite aget_aset_eq.
            destruct (Hlay c a Hc Hs) as [H | [[H1 _] | [H1 _]]]; lia. }
          rewrite aget_aset_ne by exact Hnn.
          destruct (Hlay c n Hc Hs) as [H | [[H1 [Heq | H2]] | [H1 H2]]]; auto.
          { contradiction. }
          right; right; split; [exact H1 | apply in_app_iff; auto]. }
        { intros c Hc; destruct (cell_eq_dec a c) as [<- | Hne].
          - destruct (Hsd a Hc) as [H | [H1 _]]; [lia|].
            left; rewrite aget_aset_eq; exact H1.
          - rewrite aget_aset_ne by exact Hne.
            destruct (Hsd c Hc) as [H | [H1 [Heq | H2]]]; auto.
            contradiction. }
      * intros c; destruct (cell_eq_dec a c) as [<- | Hne];
          [rewrite aget_aset_eq; lia | rewrite aget_aset_ne by exact Hne; auto].
      * intros c; destruct (cell_eq_dec a c) as [<- | Hne].
        { rewrite aget_aset_eq; intros _; exact Hda. }
        rewrite aget_aset_ne by exact Hne; apply Hdist.
Qed.

(** The incrementations of a call are the breadth-first distances. *)
Lemma BuildGradient_bfs inc fh :
  same_dimensions inc e -> (forall c, aget inc c = 0) ->
  exists s',
    BuildGradient e f inc seeds fh labels = Some s'
    /\ (forall c, 0 <= aget (bg_incrementations s') c)
    /\ (forall c, 0 < aget (bg_incrementations s') c ->
                  flat_dist e f seeds (aget (bg_incrementations s') c - 1) c)
    /\ (forall n c, flat_dist e f seeds n c ->
                    0 < aget (bg_incrementations s') c <= n + 1).
Proof.
  intros Hd H0.
  destruct (BuildGradient_terminates e f inc seeds fh labels Hd Hseeds)
    as (s' & Hrun & _ & Hq).
  exists s'; split; [exact Hrun|].
  destruct (while_loop_invariant _ _ _ bg_bfs_body _ _ _
              (bg_bfs_init inc fh H0) Hrun) as [I _].
  destruct I as [(A & B & HAB & _ & _ & Hlay & Hsd) Hr _ Hdist].
  rewrite Hq in HAB.
  assert (A = [] /\ B = []) as [-> ->].
  { destruct A as [|a A]; cbn [app] in HAB.
    - injection HAB as <-; auto.
    - injection HAB as _ HAB; destruct A; discriminate. }
  split; [intros c; apply Hr|]; split; [exact Hdist|].
  induction 1 as [c Hc | n c m _ IH Hstep].
  - destruct (Hsd c Hc) as [H | [_ []]]; lia.
  - destruct (Hlay c m ltac:(lia) Hstep) as [H | [[_ []] | [_ []]]]; lia.
Qed.
End BuildGradientDistances.

Lemma flat_dist_nonneg e f seeds n c : flat_dist e f seeds n c -> 0 <= n.
Proof. induction 1; lia. Qed.

Lemma flat_dist_reach e f seeds n c :
  flat_dist e f seeds n c -> flat_reach e f seeds c.
Proof.
  induction 1 as [c Hc | n c m _ IH Hs];
    [apply flat_seed; exact Hc | apply flat_next with c; assumption].
Qed.

Lemma flat_reach_dist e f seeds c :
  flat_reach e f seeds c -> exists n, flat_dist e f seeds n c.
Proof.
  induction 1 as [c Hc | c m _ [n IH] Hs].
  - exists 0; apply dist_seed; exact Hc.
  - exists (n + 1); apply dist_next with c; assumption.
Qed.

(** [BuildGradient], run on incrementations initialised to 0 from seeds
    that are cells of the grid, writes breadth-first distances: a cell with
    the incrementation [d > 0] is joined to a seed by a path of [d - 1]
    steps between neighbours of equal elevation without flow direction, no
    path from a seed to that cell is shorter, every cell joined to a seed by
    such a path has a positive incrementation, and all other cells stay at
    0. *)
Theorem BuildGradient_distances
        elevations flowdirs incrementations edges flat_height labels :
  same_dimensions incrementations elevations ->
  (forall c, In c edges -> in_grid elevations c = true) ->
  (forall c, aget incrementations c = 0) ->
  exists s',
    BuildGradient elevations flowdirs incrementations edges flat_height labels
    = Some s'
    /\ (forall c, 0 < aget (bg_incrementations s') c ->
                  flat_dist elevations flowdirs edges
                            (aget (bg_incrementations s') c - 1) c)
    /\ (forall n c, flat_dist elevations flowdirs edges n c ->
                    0 < aget (bg_incrementations s') c <= n + 1)
    /\ (forall c, ~ flat_reach elevations flowdirs edges c ->
                  aget (bg_incrementations s') c = 0).
Proof.
  intros Hd He H0.
  destruct (BuildGradient_bfs elevations flowdirs labels edges He
              incrementations flat_height Hd H0)
    as (s' & Hrun & Hr & Hdist & Hmin).
  exists s'; split; [exact Hrun|]; split; [exact Hdist|]; split; [exact Hmin|].
  intros c Hnot.
  destruct (Z.eq_dec (aget (bg_incrementations s') c) 0) as [Hz | Hnz];
    [exact Hz|].
  exfalso; apply Hnot.
  apply flat_dist_reach with (aget (bg_incrementations s') c - 1).
  apply Hdist; specialize (Hr c); lia.
Qed.

Lemma BuildGradient_distances_witness :
  exists s',
    BuildGradient row_elevations row_flowdirs
                  (init (int_2d_like row_elevations) 0)
                  [(0, 0)] [0] (init (int_2d_like row_elevations) 0) = Some s'
    /\ aget (bg_incrementations s') (2, 0) = 3.
Proof.
  destruct (BuildGradient_distances row_elevations row_flowdirs
              (init (int_2d_like row_elevations) 0)
              [(0, 0)] [0] (init (int_2d_like row_elevations) 0))
    as (s' & Hrun & Hdist & Hmin & _).
  - split; reflexivity.
  - intros c [<- | []]; reflexivity.
  - intros c; reflexivity.
  - exists s'; split; [exact Hrun|].
    assert (H2 : flat_dist row_elevations row_flowdirs [(0, 0)] (0 + 1 + 1) (2, 0)).
    { apply dist_next with (1, 0);
        [apply dist_next with (0, 0); [apply dist_seed; left; reflexivity|]|];
        apply in_flat_neighbours; repeat split; vm_compute; auto 10. }
    pose proof (Hmin _ _ H2) as Hle.
    pose proof (Hdist (2, 0) ltac:(lia)) as Hd.
    assert (Hlow : forall n, flat_dist row_elevations row_flowdirs [(0, 0)] n (2, 0)
                             -> 2 <= n).
    { intros n Hn.
      inversion Hn as [c Hc | n1 c1 m1 Hc1 Hs1]; subst.
      { destruct Hc as [[=] | []]. }
      inversion Hc1 as [c Hc | n2 c2 m2 Hc2 Hs2]; subst.
      { destruct Hc as [<- | []].
        apply in_flat_neighbours in Hs1; destruct Hs1 as (Hs1 & _).
        vm_compute in Hs1; intuition discriminate. }
      apply flat_dist_nonneg in Hc2; lia. }
    specialize (Hlow _ Hd); lia.
Defined.

Section BuildGradientHeights.
Variables (e f labels : array2d) (seeds : list grid_cell) (fh0 : list Z).
Hypothesis Hseeds : forall c, In c seeds -> in_grid e c = true.
Hypothesis Hlabels :
  forall c, flat_reach e f seeds c ->
            0 <= aget labels c < Z.of_nat (length fh0).

Lemma bg_heights_body s :
  bg_bfs e f seeds s /\ bg_heights labels fh0 s ->
  BuildGradient_cond s = true ->
  bg_bfs e f seeds (BuildGradient_body e f labels s)
  /\ bg_heights labels fh0 (BuildGradient_body e f labels s).
Proof.
  intros [Hbfs Hh] Hcond; split; [apply bg_bfs_body; assumption|].
  destruct Hbfs as [(A & B & Hq & HA & _) Hr Hl _].
  destruct Hh as [Hlen Hentry Hbound].
  destruct s as [inc edges fh loops assigned];
    cbn [bg_edges bg_loops bg_incrementations bg_flat_height bg_assigned] in *.
  subst edges; unfold BuildGradient_body;
    cbn [bg_edges bg_loops bg_incrementations bg_flat_height bg_assigned].
  destruct A as [|a A1]; cbn [app] in *.
  { change (fst iteration_marker =? -1) with true; cbv iota.
    constructor; assumption. }
  inversion HA as [|? ? [Hga Hda] _]; subst.
  rewrite (in_grid_not_marker e a Hga).
  destruct (aget inc a >? 0) eqn:Hv; [constructor; assumption|].
  assert (Hva : aget inc a <= 0)
    by (destruct (Z.gtb_spec (aget inc a) 0); [discriminate | lia]).
  assert (Hin : vec_in_range fh (aget labels a) = true).
  { apply vec_in_range_iff; rewrite Hlen; apply Hlabels.
    apply flat_dist_reach with (loops - 1); exact Hda. }
  assert (Hle : forall c, aget (aset inc a loops) c <= loops).
  { intros c; destruct (cell_eq_dec a c) as [<- | Hne];
      [rewrite aget_aset_eq; lia|].
    rewrite aget_aset_ne by exact Hne; apply Hr. }
  constructor; cbn [bg_incrementations bg_flat_height].
  - rewrite length_vec_set; exact Hlen.
  - intros l; destruct (Z.eq_dec (aget labels a) l) as [<- | Hne].
    + right; exists a; rewrite aget_aset_eq, vec_get_set_eq by exact Hin.
      repeat split; lia.
    + rewrite vec_get_set_ne by exact Hne.
      destruct (Hentry l) as [[H1 H2] | (c & H1 & H2 & H3)].
      * left; split; [exact H1|].
        intros c; destruct (cell_eq_dec a c) as [<- | Hac]; [auto|].
        rewrite aget_aset_ne by exact Hac; apply H2.
      * right; exists c.
        assert (Hac : a <> c) by (intros <-; lia).
        rewrite aget_aset_ne by exact Hac; auto.
  - intros c Hc.
    destruct (Z.eq_dec (aget labels a) (aget labels c)) as [Heq | Hne].
    { rewrite <- Heq, vec_get_set_eq by exact Hin; apply Hle. }
    rewrite vec_get_set_ne by exact Hne.
    assert (Hac : a <> c) by congruence.
    rewrite aget_aset_ne in Hc |- * by exact Hac; auto.
Qed.

Lemma BuildGradient_heights_run inc :
  same_dimensions inc e -> (forall c, aget inc c = 0) ->
  exists s',
    BuildGradient e f inc seeds fh0 labels = Some s'
    /\ bg_heights labels fh0 s'.
Proof.
  intros Hd H0.
  destruct (BuildGradient_terminates e f inc seeds fh0 labels Hd Hseeds)
    as (s' & Hrun & _ & _).
  exists s'; split; [exact Hrun|].
  apply (while_loop_invariant _ _ _ bg_heights_body) in Hrun; [apply Hrun|].
  split; [apply bg_bfs_init; assumption|].
  constructor; cbn [BuildGradient_init bg_flat_height bg_incrementations].
  - reflexivity.
  - intros l; left; split; [reflexivity|].
    intros c Hc; rewrite H0 in Hc; lia.
  - intros c Hc; rewrite H0 in Hc; lia.
Qed.
End BuildGradientHeights.

(** [BuildGradient], run on incrementations initialised to 0 from seeds
    of the grid, with labels that are subscripts of [flat_height] on every
    cell that the expansion can reach, leaves in [flat_height], for each
    label carried by a cell that got an incrementation, the greatest
    incrementation of the cells with that label; the entries of the other
    labels are untouched and the vector keeps its size. *)
Theorem BuildGradient_heights
        elevations flowdirs incrementations edges flat_height labels :
  same_dimensions incrementations elevations ->
  (forall c, In c edges -> in_grid elevations c = true) ->
  (forall c, aget incrementations c = 0) ->
  (forall c, flat_reach elevations flowdirs edges c ->
             0 <= aget labels c < Z.of_nat (length flat_height)) ->
  exists s',
    BuildGradient elevations flowdirs incrementations edges flat_height labels
    = Some s'
    /\ length (bg_flat_height s') = length flat_height
    /\ (forall c, 0 < aget (bg_incrementations s') c ->
                  aget (bg_incrementations s') c
                  <= vec_get (bg_flat_height s') (aget labels c))
    /\ (forall c, 0 < aget (bg_incrementations s') c ->
                  exists c', aget labels c' = aget labels c
                             /\ aget (bg_incrementations s') c'
                                = vec_get (bg_flat_height s') (aget labels c))
    /\ (forall l, (forall c, 0 < aget (bg_incrementations s') c ->
                             aget labels c <> l) ->
                  vec_get (bg_flat_height s') l = vec_get flat_height l).
Proof.
  intros Hd He H0 Hl.
  destruct (BuildGradient_heights_run elevations flowdirs labels edges
              flat_height He Hl incrementations Hd H0)
    as (s' & Hrun & [Hlen Hentry Hbound]).
  exists s'; split; [exact Hrun|]; split; [exact Hlen|]; split; [exact Hbound|].
  split.
  - intros c Hc; destruct (Hentry (aget labels c)) as [[_ H] | (c' & _ & H1 & H2)].
    + exfalso; apply (H c Hc); reflexivity.
    + exists c'; auto.
  - intros l Hnone; destruct (Hentry l) as [[H _] | (c & H1 & H2 & _)];
      [exact H | exfalso; apply (Hnone c H1 H2)].
Qed.

Lemma BuildGradient_heights_witness :
  exists s',
    BuildGradient row_elevations row_flowdirs
                  (init (int_2d_like row_elevations) 0)
                  [(0, 0)] [0; 9] (init (int_2d_like row_elevations) 0) = Some s'
    /\ vec_get (bg_flat_height s') 1 = 9
    /\ 1 <= vec_get (bg_flat_height s') 0.
Proof.
  destruct (BuildGradient_heights row_elevations row_flowdirs
              (init (int_2d_like row_elevations) 0)
              [(0, 0)] [0; 9] (init (int_2d_like row_elevations) 0))
    as (s' & Hrun & _ & Hbound & _ & Hkeep).
  - split; reflexivity.
  - intros c [<- | []]; reflexivity.
  - intros c; reflexivity.
  - intros c _; rewrite aget_init; cbn; lia.
  - exists s'; split; [exact Hrun|]; split.
    + rewrite Hkeep; [reflexivity|].
      intros c _; rewrite aget_init; discriminate.
    + assert (H1 : option_map (fun s => aget (bg_incrementations s) (0, 0))
                              (Some s') = Some 1)
        by (rewrite <- Hrun; vm_compute; reflexivity).
      injection H1 as H1.
      pose proof (Hbound (0, 0) ltac:(lia)) as Hb.
      rewrite H1 in Hb; exact Hb.
Defined.

(* ------------------------------------------------------------------ *)
(** ** CombineGradients: the cells it goes through *)

Lemma cg_visit_body e towards0 seeds away fh labels s :
  cg_visit e towards0 seeds s -> CombineGradients_cond s = true ->
  cg_visit e towards0 seeds (CombineGradients_body e away fh labels s).
Proof.
  intros [Hq Hsound Hfront Hseeds] _; unfold CombineGradients_body.
  destruct s as [towards mask queue read];
    cbn [cg_towards cg_mask cg_edge cg_read] in *.
  destruct queue as [|a rest]; [constructor; assumption|].
  destruct (Hq a (or_introl eq_refl)) as [Hga (sa & Hsa & Hra)].
  destruct (aget towards a =? -1) eqn:Hdone.
  - apply Z.eqb_eq in Hdone.
    constructor; cbn [cg_towards cg_edge]; auto.
    + intros q Hin; apply Hq; right; exact Hin.
    + intros c n Hc Hs; destruct (Hfront c n Hc Hs) as [H | [<- | H]]; auto.
    + intros s0 Hs0; destruct (Hseeds s0 Hs0) as [H | [<- | H]]; auto.
  - constructor; cbn [cg_towards cg_edge].
    + intros q Hin; apply in_app_iff in Hin; destruct Hin as [Hin | Hin].
      { apply Hq; right; exact Hin. }
      apply in_level_neighbours in Hin; destruct Hin as (Hn & Hgq & He).
      split; [exact Hgq|]; exists sa; split; [exact Hsa|].
      apply level_next with a; [exact Hra | repeat split; assumption].
    + intros c; destruct (cell_eq_dec a c) as [<- | Hne]; [eauto|].
      rewrite aget_aset_ne by exact Hne; apply Hsound.
    + intros c n Hc Hs; destruct (cell_eq_dec a c) as [<- | Hne].
      { right; apply in_app_iff; right; apply in_level_neighbours.
        destruct Hs as (_ & Hgn & Hn & He); auto. }
      rewrite aget_aset_ne in Hc by exact Hne.
      destruct (cell_eq_dec a n) as [<- | Hnn]; [left; apply aget_aset_eq|].
      rewrite aget_aset_ne by exact Hnn.
      destruct (Hfront c n Hc Hs) as [H | [Heq | H]]; auto; [contradiction|].
      right; apply in_app_iff; auto.
    + intros s0 Hs0; destruct (cell_eq_dec a s0) as [<- | Hne];
        [left; apply aget_aset_eq|].
      rewrite aget_aset_ne by exact Hne.
      destruct (Hseeds s0 Hs0) as [H | [Heq | H]]; auto; [contradiction|].
      right; apply in_app_iff; auto.
Qed.

Lemma CombineGradients_visits e towards away mask edge fh labels :
  same_dimensions towards e ->
  (forall c, In c edge -> in_grid e c = true) ->
  (forall c, aget towards c <> -1) ->
  exists s',
    CombineGradients e towards away mask edge fh labels = Some s'
    /\ cg_edge s' = []
    /\ cg_inv towards away mask fh labels s'
    /\ (forall c, (exists s0, In s0 edge /\ level_reach e e s0 c) ->
                  aget (cg_towards s') c = -1)
    /\ (forall c, aget (cg_towards s') c <> aget towards c ->
                  exists s0, In s0 edge /\ level_reach e e s0 c).
Proof.
  intros Hd He Hno.
  destruct (CombineGradients_returns e towards away mask edge fh labels Hd He)
    as (s' & Hrun & Hempty & Iinv).
  exists s'; split; [exact Hrun|]; split; [exact Hempty|]; split; [exact Iinv|].
  unfold CombineGradients in Hrun.
  apply (while_loop_invariant _ _ _
           (cg_visit_body e towards edge away fh labels)) in Hrun.
  2:{ constructor; cbn [cg_towards cg_edge].
      - intros q Hq; split; [auto|].
        exists q; split; [exact Hq | constructor; auto].
      - intros c Hc; contradiction.
      - intros c n Hc; destruct (Hno c Hc).
      - intros s0 Hs0; auto. }
  destruct Hrun as [[_ Hsound Hfront Hseeds] _]; rewrite Hempty in *.
  split; [|exact Hsound].
  intros c (s0 & Hs0 & Hreach).
  induction Hreach as [_ | n m _ IH Hstep].
  - destruct (Hseeds s0 Hs0) as [H | []]; exact H.
  - destruct (Hfront n m IH Hstep) as [H | []]; exact H.
Qed.

(** [CombineGradients], run from seeds that are cells of the grid on a
    grid [towards] without the value -1, terminates with an empty queue; it
    goes through exactly the cells joined to a seed by a path of neighbours
    of equal elevation: these end with [towards] at -1 and with the combined
    mask if their distance was positive; all other cells keep their
    [towards] and their mask. *)
Theorem CombineGradients_consumes_level_components
        elevations towards away flat_resolution_mask edge flat_height labels :
  same_dimensions towards elevations ->
  (forall c, In c edge -> in_grid elevations c = true) ->
  (forall c, aget towards c <> -1) ->
  exists s',
    CombineGradients elevations towards away flat_resolution_mask edge
                     flat_height labels = Some s'
    /\ cg_edge s' = []
    /\ (forall c,
           (exists s0, In s0 edge /\ level_reach elevations elevations s0 c) ->
           aget (cg_towards s') c = -1
           /\ aget (cg_mask s') c =
              if aget towards c >? 0
              then combined (aget towards c) (aget away c)
                            (vec_get flat_height (aget labels c))
              else aget flat_resolution_mask c)
    /\ (forall c,
           ~ (exists s0, In s0 edge /\ level_reach elevations elevations s0 c) ->
           aget (cg_towards s') c = aget towards c
           /\ aget (cg_mask s') c = aget flat_resolution_mask c).
Proof.
  intros Hd He Hno.
  destruct (CombineGradients_visits elevations towards away
              flat_resolution_mask edge flat_height labels Hd He Hno)
    as (s' & Hrun & Hempty & Iinv & Hall & Hsound).
  exists s'; split; [exact Hrun|]; split; [exact Hempty|]; split.
  - intros c Hreach; specialize (Hall c Hreach); split; [exact Hall|].
    destruct (cgi_cells _ _ _ _ _ _ Iinv c) as [[Ht _] | (_ & _ & Hm)];
      [specialize (Hno c); congruence | exact Hm].
  - intros c Hnot.
    assert (Ht : aget (cg_towards s') c = aget towards c).
    { destruct (Z.eq_dec (aget (cg_towards s') c) (aget towards c)) as [H | H];
        [exact H | destruct (Hnot (Hsound c H))]. }
    split; [exact Ht|].
    destruct (cgi_cells _ _ _ _ _ _ Iinv c) as [[_ Hm] | (H1 & H2 & _)];
      [exact Hm | congruence].
Qed.

Lemma CombineGradients_consumes_level_components_witness :
  exists s',
    CombineGradients wide_elevations
                     (grid_of_rows [[1; 2; 0]] 0 0) (grid_of_rows [[0; 0; 0]] 0 0)
                     (init (int_2d_like wide_elevations) (-1))
                     [(0, 0)] [2] (init (int_2d_like wide_elevations) 0) = Some s'
    /\ aget (cg_mask s') (1, 0) = 2
    /\ aget (cg_towards s') (2, 0) = 0.
Proof.
  destruct (CombineGradients_consumes_level_components wide_elevations
              (grid_of_rows [[1; 2; 0]] 0 0) (grid_of_rows [[0; 0; 0]] 0 0)
              (init (int_2d_like wide_elevations) (-1))
              [(0, 0)] [2] (init (int_2d_like wide_elevations) 0))
    as (s' & Hrun & _ & Hin & Hout).
  - split; reflexivity.
  - intros c [<- | []]; reflexivity.
  - intros c; unfold aget, grid_of_rows; cbn [data].
    destruct (IN_GRID c _ _); [|discriminate].
    destruct (Z.to_nat (snd c)) as [|[|?]]; cbn;
      destruct (Z.to_nat (fst c)) as [|[|[|[|?]]]]; cbn; discriminate.
  - exists s'; split; [exact Hrun|]; split.
    + apply (Hin (1, 0)).
      exists (0, 0); split; [left; reflexivity|].
      apply level_next with (0, 0); [constructor; reflexivity|].
      repeat split; vm_compute; auto 10.
    + apply (Hout (2, 0)); intros (s0 & [<- | []] & Hreach).
      apply level_reach_elev in Hreach; vm_compute in Hreach; discriminate.
Defined.

(* ------------------------------------------------------------------ *)
(** ** The orchestrator: the passes of a run *)

Lemma run_stages e f m l r :
  resolve_flats_barnes e f m l = Some r ->
  fst (find_flat_edges [] [] f e) <> [] ->
  exists labels k t a c,
    label_flats e (fst (find_flat_edges [] [] f e))
                (init (resize l (width f) (height f)) (-1)) 0 = Some (labels, k)
    /\ BuildGradient e f (init (int_2d_like e) 0)
                     (fst (find_flat_edges [] [] f e)) (vec_make k) labels
       = Some t
    /\ BuildGradient e f (init (int_2d_like e) 0)
                     (labelled_high_edges labels
                        (snd (find_flat_edges [] [] f e)))
                     (bg_flat_height t) labels = Some a
    /\ CombineGradients e (bg_incrementations t) (bg_incrementations a)
                        (set_no_data
                           (init (resize m (width f) (height f)) (-1)) (-1))
                        (fst (find_flat_edges [] [] f e))
                        (bg_flat_height a) labels = Some c
    /\ run_mask r = cg_mask c
    /\ run_labels r = labels
    /\ run_low_edges r = fst (find_flat_edges [] [] f e)
    /\ run_high_edges r
       = labelled_high_edges labels (snd (find_flat_edges [] [] f e))
    /\ run_group_number r = k
    /\ run_towards r = bg_incrementations t
    /\ run_away r = bg_incrementations a
    /\ run_flat_height r = bg_flat_height a
    /\ run_report r =
       [SearchingForFlats; LabelingFlats; FoundUniqueFlats k]
         ++ (if Z.of_nat (length (labelled_high_edges labels
                                    (snd (find_flat_edges [] [] f e))))
                <? Z.of_nat (length (snd (find_flat_edges [] [] f e)))
             then [NotAllFlatsHaveOutlets] else [])
         ++ [BarnesStep; BarnesStep; CombiningSteps].
Proof.
  unfold resolve_flats_barnes; cbv zeta; intros Hrun Hlow.
  destruct (Z.of_nat (length (fst (find_flat_edges [] [] f e))) =? 0) eqn:Hz.
  { destruct (fst (find_flat_edges [] [] f e));
      [contradiction | discriminate]. }
  destruct (label_flats e (fst (find_flat_edges [] [] f e))
              (init (resize l (width f) (height f)) (-1)) 0)
    as [[labels k]|] eqn:Hlab; [|discriminate].
  destruct (BuildGradient e f (init (int_2d_like e) 0)
              (fst (find_flat_edges [] [] f e)) (vec_make k) labels)
    as [t|] eqn:Ht; [|discriminate].
  destruct (BuildGradient e f (init (int_2d_like e) 0)
              (labelled_high_edges labels (snd (find_flat_edges [] [] f e)))
              (bg_flat_height t) labels)
    as [a|] eqn:Ha; [|discriminate].
  destruct (CombineGradients e (bg_incrementations t) (bg_incrementations a)
              (set_no_data (init (resize m (width f) (height f)) (-1)) (-1))
              (fst (find_flat_edges [] [] f e)) (bg_flat_height a) labels)
    as [c|] eqn:Hc; [|discriminate].
  injection Hrun as <-.
  exists labels, k, t, a, c.
  split; [reflexivity|]; split; [exact Ht|]; split; [exact Ha|].
  split; [exact Hc|].
  repeat (split; [reflexivity|]); reflexivity.
Qed.

Lemma flat_reach_level e f seeds c :
  (forall s, In s seeds -> in_grid e s = true) ->
  flat_reach e f seeds c ->
  exists s0, In s0 seeds /\ level_reach e e s0 c.
Proof.
  intros Hs; induction 1 as [c Hc | c n _ (s0 & Hs0 & IH) Hstep].
  - exists c; split; [exact Hc | constructor; auto].
  - exists s0; split; [exact Hs0|].
    apply in_flat_neighbours in Hstep; destruct Hstep as (Hn & Hg & He & _).
    apply level_next with c; [exact IH|].
    repeat split; auto.
    apply (level_reach_in_grid e e s0 c IH).
Qed.

Lemma no_flat_dist_without_seed e f n c : ~ flat_dist e f [] n c.
Proof. induction 1 as [c [] | ]; assumption. Qed.

Lemma length_filter_lt {A} (p : A -> bool) (l : list A) :
  (length (filter p l) < length l)%nat <-> exists x, In x l /\ p x = false.
Proof.
  induction l as [|a l IH]; cbn [filter length In].
  { split; [lia | intros (x & [] & _)]. }
  pose proof (length_filter_le p l) as Hle.
  destruct (p a) eqn:Hp; cbn [length]; split.
  - intros H; destruct (proj1 IH ltac:(lia)) as (x & Hx & Hpx); eauto.
  - intros (x & [<- | Hx] & Hpx); [congruence|].
    apply -> Nat.succ_lt_mono; apply IH; eauto.
  - intros _; exists a; auto.
  - intros _; lia.
Qed.

Lemma label_flats_dense g e edges :
  forall labels k seeds0 seeds labels' k',
    labelling_ok g e labels k seeds0 -> 0 <= k ->
    (forall c, In c edges -> in_grid g c = true) ->
    labels_dense labels k seeds ->
    label_flats e edges labels k = Some (labels', k') ->
    labels_dense labels' k' (seeds ++ edges)
    /\ k' <= k + Z.of_nat (length edges).
Proof.
  induction edges as [|i rest IH];
    intros labels k seeds0 seeds labels' k' Hok Hk Hin Hdense; cbn [label_flats].
  { intros [= <- <-]; rewrite app_nil_r; cbn; split; [exact Hdense | lia]. }
  assert (Hi : in_grid g i = true) by (apply Hin; left; reflexivity).
  assert (Hrest : forall c, In c rest -> in_grid g c = true)
    by (intros; apply Hin; right; assumption).
  replace (seeds ++ i :: rest) with ((seeds ++ [i]) ++ rest)
    by (rewrite <- app_assoc; reflexivity).
  destruct (aget labels i =? -1) eqn:Hlab.
  - apply Z.eqb_eq in Hlab.
    destruct (label_this i k labels e) as [labels1|] eqn:H1; [|discriminate].
    intros Hrun.
    pose proof (label_this_ok g e labels k i seeds0 Hok Hk Hlab Hi _ H1) as Hok1.
    destruct (label_this_frame i k labels e ltac:(lia))
      as (L & HL & [_ _ Hf Hs]).
    { destruct (lab_dims _ _ _ _ _ Hok).
      rewrite (in_grid_same _ g); assumption. }
    cbn [lt_labels lt_to_fill] in Hf, Hs.
    rewrite (same_run _ _ _ _ H1 HL) in *; clear labels1 H1.
    destruct (IH L (k + 1) (seeds0 ++ [i]) (seeds ++ [i]) labels' k'
                 Hok1 ltac:(lia) Hrest) as [Hd Hle]; [|exact Hrun|].
    + intros j Hj; destruct (Z.eq_dec j k) as [-> | Hne].
      * exists i; split; [apply in_app_iff; right; left; reflexivity|].
        destruct Hs as [H | []]; [lia | exact H].
      * destruct (Hdense j ltac:(lia)) as (s & Hs1 & Hs2).
        exists s; split; [apply in_app_iff; auto|].
        destruct (Hf s) as [Heq | (Hneg & _)]; lia.
    + split; [exact Hd|]. cbn [length]; lia.
  - intros Hrun.
    destruct (IH labels k seeds0 (seeds ++ [i]) labels' k' Hok Hk Hrest)
      as [Hd Hle]; [|exact Hrun|].
    + intros j Hj; destruct (Hdense j Hj) as (s & Hs1 & Hs2).
      exists s; split; [apply in_app_iff; auto | exact Hs2].
    + split; [exact Hd|]. cbn [length]; lia.
Qed.

Lemma run_more_holds e f m l r :
  same_dimensions e f ->
  resolve_flats_barnes e f m l = Some r -> run_more e f r.
Proof.
  intros Hd Hrun.
  assert (Hg : forall x, in_grid e x = in_grid f x)
    by (intros; destruct Hd; apply in_grid_same; assumption).
  assert (Hlow : forall c, In c (fst (find_flat_edges [] [] f e)) ->
                           in_grid e c = true).
  { intros c Hc; rewrite Hg; apply (find_flat_edges_low f e c Hc). }
  destruct (fst (find_flat_edges [] [] f e)) as [|s0 low0] eqn:Hedges.
  - (* the early return *)
    unfold resolve_flats_barnes in Hrun; cbv zeta in Hrun.
    rewrite Hedges in Hrun; cbn [length Z.of_nat Z.eqb] in Hrun.
    injection Hrun as <-.
    constructor; cbn [run_low_edges run_high_edges run_labels run_group_number
                      run_flat_height run_towards run_away run_mask
                      run_report]; rewrite ?Hedges;
      try (intros c; rewrite aget_init; lia).
    + intros n c Hdist; destruct (no_flat_dist_without_seed _ _ _ _ Hdist).
    + intros i Hi; lia.
    + cbn; lia.
    + intros H; contradiction.
    + split; [|intros [H _]; contradiction].
      intros [H | [H | []]]; [discriminate|].
      destruct (Z.of_nat (length (snd (find_flat_edges [] [] f e))) >? 0);
        discriminate.
  - rewrite <- Hedges in *.
    destruct (run_stages e f m l r Hrun)
      as (labels & k & t & a & c & Hlab & Ht & Ha & Hc & Rm & Rl & Rlow & Rhigh
          & Rk & Rt & Ra & Rh & Rrep).
    { rewrite Hedges; discriminate. }
    destruct (label_flats_ok f e (fst (find_flat_edges [] [] f e))
                (init (resize l (width f) (height f)) (-1)) 0 []
                (labelling_ok_init f e l) (Z.le_refl 0))
      as (labels1 & k1 & Hlab1 & Hok & Hk).
    { intros x Hx; rewrite <- Hg; auto. }
    rewrite Hlab in Hlab1; injection Hlab1 as <- <-.
    cbn [app] in Hok.
    assert (Hhigh : forall x,
               In x (labelled_high_edges labels
                       (snd (find_flat_edges [] [] f e))) ->
               in_grid e x = true).
    { intros x Hx; apply filter_In in Hx; destruct Hx as [Hx _].
      rewrite Hg; apply (find_flat_edges_high f e x Hx). }
    destruct (BuildGradient_bfs e f labels _ Hlow (init (int_2d_like e) 0)
                (vec_make k)) as (t' & Ht' & Tn & Td & Tm);
      [split; reflexivity | intros; apply aget_init |].
    rewrite (same_run _ _ _ _ Ht' Ht) in *; clear t' Ht'.
    destruct (BuildGradient_bfs e f labels _ Hhigh (init (int_2d_like e) 0)
                (bg_flat_height t)) as (a' & Ha' & An & _ & _);
      [split; reflexivity | intros; apply aget_init |].
    rewrite (same_run _ _ _ _ Ha' Ha) in *; clear a' Ha'.
    destruct (BuildGradient_terminates e f (init (int_2d_like e) 0)
                (fst (find_flat_edges [] [] f e)) (vec_make k) labels)
      as (t' & Ht' & Wt & _); [split; reflexivity | exact Hlow |].
    rewrite (same_run _ _ _ _ Ht' Ht) in *; clear t' Ht'.
    destruct (CombineGradients_visits e (bg_incrementations t)
                (bg_incrementations a)
                (set_no_data (init (resize m (width f) (height f)) (-1)) (-1))
                (fst (find_flat_edges [] [] f e)) (bg_flat_height a) labels)
      as (c' & Hc' & _ & Cinv & Cin & _);
      [apply (bgw_dims _ _ _ Wt) | exact Hlow
       | intros x; specialize (Tn x); lia |].
    rewrite (same_run _ _ _ _ Hc' Hc) in *; clear c' Hc'.
    assert (Hrl : forall x, flat_reach e f (fst (find_flat_edges [] [] f e)) x ->
                            0 <= aget labels x < Z.of_nat (length (vec_make k))).
    { intros x Hx; rewrite length_vec_make.
      destruct (flat_reach_labelled f e f labels k _ _ x Hok Hd
                  (lab_seeds _ _ _ _ _ Hok) Hx); lia. }
    destruct (BuildGradient_heights_run e f labels _ (vec_make k) Hlow Hrl
                (init (int_2d_like e) 0))
      as (t' & Ht' & [Tlen _ _]);
      [split; reflexivity | intros; apply aget_init |].
    rewrite (same_run _ _ _ _ Ht' Ht) in *; clear t' Ht'.
    assert (Hrh : forall x,
               flat_reach e f (labelled_high_edges labels
                                 (snd (find_flat_edges [] [] f e))) x ->
               0 <= aget labels x < Z.of_nat (length (bg_flat_height t))).
    { intros x Hx; rewrite Tlen, length_vec_make.
      destruct (flat_reach_labelled f e f labels k
                  (fst (find_flat_edges [] [] f e))
                  (labelled_high_edges labels
                     (snd (find_flat_edges [] [] f e))) x Hok Hd) as [_ H];
        [|exact Hx|lia].
      intros s Hs; apply filter_In in Hs; destruct Hs as [_ Hs].
      apply negb_true_iff, Z.eqb_neq in Hs; exact Hs. }
    destruct (BuildGradient_heights_run e f labels _ (bg_flat_height t)
                Hhigh Hrh (init (int_2d_like e) 0))
      as (a' & Ha' & [_ Aentry _]);
      [split; reflexivity | intros; apply aget_init |].
    rewrite (same_run _ _ _ _ Ha' Ha) in *; clear a' Ha'.
    destruct (label_flats_dense f e (fst (find_flat_edges [] [] f e))
                (init (resize l (width f) (height f)) (-1)) 0 [] [] labels k
                (labelling_ok_init f e l) (Z.le_refl 0)) as [Hdense Hkle].
    { intros x Hx; rewrite <- Hg; auto. }
    { intros i Hi; lia. }
    { exact Hlab. }
    constructor; rewrite ?Rm, ?Rl, ?Rlow, ?Rk, ?Rt, ?Ra, ?Rh, ?Rrep.
    + exact Tn.
    + exact An.
    + exact Td.
    + exact Tm.
    + intros x Hx.
      assert (Hdone : aget (cg_towards c) x = -1).
      { apply Cin, (flat_reach_level e f); [exact Hlow|].
        apply flat_dist_reach with (aget (bg_incrementations t) x - 1).
        apply Td; exact Hx. }
      destruct (cgi_cells _ _ _ _ _ _ Cinv x) as [[H _] | (_ & _ & Hmask)];
        [lia|].
      rewrite Hmask.
      destruct (Z.gtb_spec (aget (bg_incrementations t) x) 0); [reflexivity | lia].
    + intros x Hx; destruct (Aentry (aget labels x)) as [[_ H] | (x' & _ & H1 & H2)].
      * exfalso; apply (H x Hx); reflexivity.
      * exists x'; auto.
    + exact Hdense.
    + lia.
    + intros _; apply in_app_iff; left; right; right; left; reflexivity.
    + split.
      * intros Hin; split; [rewrite Hedges; discriminate|].
        apply in_app_iff in Hin; destruct Hin as [[H | [H | [H | []]]] | Hin];
          try discriminate.
        apply in_app_iff in Hin; destruct Hin as [Hin | [H | [H | [H | []]]]];
          try discriminate.
        destruct (Z.ltb_spec
                    (Z.of_nat (length (labelled_high_edges labels
                                         (snd (find_flat_edges [] [] f e)))))
                    (Z.of_nat (length (snd (find_flat_edges [] [] f e)))))
          as [Hlt | Hge]; [|destruct Hin].
        unfold labelled_high_edges in Hlt.
        apply Nat2Z.inj_lt, length_filter_lt in Hlt.
        destruct Hlt as (x & Hx & Hpx).
        exists x; split; [exact Hx|].
        apply negb_false_iff, Z.eqb_eq in Hpx; exact Hpx.
      * intros (_ & x & Hx & Hlx).
        apply in_app_iff; right; apply in_app_iff; left.
        assert (Hlt : (length (labelled_high_edges labels
                                 (snd (find_flat_edges [] [] f e)))
                       < length (snd (find_flat_edges [] [] f e)))%nat).
        { apply length_filter_lt; exists x; split; [exact Hx|].
          apply negb_false_iff, Z.eqb_eq; exact Hlx. }
        destruct (Z.ltb_spec
                    (Z.of_nat (length (labelled_high_edges labels
                                         (snd (find_flat_edges [] [] f e)))))
                    (Z.of_nat (length (snd (find_flat_edges [] [] f e)))));
          [left; reflexivity | lia].
Qed.

(* ------------------------------------------------------------------ *)
(** ** The orchestrator: what the mask guarantees *)

Lemma flat_reach_no_flow e f seeds c :
  (forall s, In s seeds -> aget f s = NO_FLOW) ->
  flat_reach e f seeds c -> aget f c = NO_FLOW.
Proof.
  intros Hs; destruct 1 as [c Hc | c n _ Hstep]; [auto|].
  apply in_flat_neighbours in Hstep; apply Hstep.
Qed.

Lemma mask_descent e f r :
  same_dimensions e f -> run_ok e f r ->
  forall c c',
    aget f c = NO_FLOW ->
    aget (run_mask r) c <> -1 ->
    In c' (neighbours c) ->
    aget (run_labels r) c' = aget (run_labels r) c ->
    aget (run_towards r) c' = aget (run_towards r) c - 1 ->
    aget (run_mask r) c' < aget (run_mask r) c.
Proof.
  intros Hd Hok c c' Hflat Hset Hnb Hlab Htow.
  pose proof (ro_labels _ _ _ Hok) as Hl.
  destruct (ro_mask _ _ _ Hok c) as [Hm | [Hpos Hm]]; [contradiction|].
  destruct (flat_reach_labelled f e f (run_labels r)
              (run_group_number r) (run_low_edges r) (run_low_edges r) c Hl Hd
              (lab_seeds _ _ _ _ _ Hl) (ro_towards _ _ _ Hok c Hpos))
    as [Hgc Hlc].
  assert (Hc_nonneg : 0 <= aget (run_mask r) c).
  { rewrite Hm; apply combined_nonneg; [exact Hpos|].
    apply (ro_away_height _ _ _ Hok). }
  destruct (ro_mask _ _ _ Hok c') as [Hm' | [Hpos' Hm']]; [lia|].
  assert (He : aget e c' = aget e c).
  { apply (level_reach_elev f).
    apply (lab_connected _ _ _ _ _ Hl); [lia | exact Hlab]. }
  rewrite Hm, Hm', Hlab, Htow; unfold combined.
  destruct (Z.gtb_spec (aget (run_away r) c') 0) as [Ha' | Ha'].
  - assert (Hstep : flat_step e f c' c).
    { apply in_flat_neighbours; repeat split; auto.
      apply neighbours_sym; exact Hnb. }
    pose proof (ro_away_layers _ _ _ Hok c' c Ha' Hstep) as Hlay.
    destruct (Z.gtb_spec (aget (run_away r) c) 0); lia.
  - destruct (Z.gtb_spec (aget (run_away r) c) 0) as [Ha | Ha]; [|lia].
    pose proof (ro_away_height _ _ _ Hok c Ha); lia.
Qed.

Lemma run_mask_nonneg e f r c :
  run_ok e f r -> run_more e f r ->
  0 < aget (run_towards r) c -> 0 <= aget (run_mask r) c.
Proof.
  intros Hok Hmore Hpos; rewrite (rm_mask_set _ _ _ Hmore c Hpos).
  apply combined_nonneg; [exact Hpos | apply (ro_away_height _ _ _ Hok)].
Qed.

(** In a run on grids of the same dimensions the mask resolves exactly the
    cells that the expansion from the low edges reaches: a cell holds a
    value other than -1 if and only if it is a low edge or is joined to a low
    edge by steps between neighbours of equal elevation without flow
    direction; the value is then 0 or more. *)
Theorem mask_is_set_iff_reached
        elevations flowdirs flat_resolution_mask labels :
  same_dimensions elevations flowdirs ->
  exists r,
    resolve_flats_barnes elevations flowdirs flat_resolution_mask labels = Some r
    /\ forall c,
      (aget (run_mask r) c <> -1 <->
       flat_reach elevations flowdirs (run_low_edges r) c)
      /\ (aget (run_mask r) c = -1 \/ 0 <= aget (run_mask r) c).
Proof.
  intros Hd.
  destruct (resolve_flats_barnes_ok elevations flowdirs flat_resolution_mask
              labels Hd) as (r & Hrun & Hok).
  pose proof (run_more_holds _ _ _ _ _ Hd Hrun) as Hmore.
  exists r; split; [exact Hrun|]; intros c; split; [split|].
  - intros Hset; destruct (ro_mask _ _ _ Hok c) as [Hm | [Hpos _]];
      [contradiction | apply (ro_towards _ _ _ Hok c Hpos)].
  - intros Hreach; apply flat_reach_dist in Hreach; destruct Hreach as [n Hn].
    destruct (rm_towards_min _ _ _ Hmore n c Hn) as [Hpos _].
    pose proof (run_mask_nonneg _ _ _ c Hok Hmore Hpos); lia.
  - destruct (ro_mask _ _ _ Hok c) as [Hm | [Hpos _]]; [left; exact Hm|].
    right; apply (run_mask_nonneg _ _ _ c Hok Hmore Hpos).
Qed.

Lemma mask_is_set_iff_reached_witness :
  exists r,
    resolve_flats_barnes ridge_elevations ridge_flowdirs blank blank = Some r
    /\ 0 <= aget (run_mask r) (2, 0).
Proof.
  destruct (mask_is_set_iff_reached ridge_elevations ridge_flowdirs blank blank)
    as (r & Hrun & H); [split; reflexivity|].
  exists r; split; [exact Hrun|].
  assert (Hlow : option_map run_low_edges (Some r) = Some [(0, 0)])
    by (rewrite <- Hrun; vm_compute; reflexivity).
  injection Hlow as Hlow.
  destruct (H (2, 0)) as [[_ Hset] [Hm | Hm]]; [|exact Hm].
  exfalso; apply Hset; [|exact Hm].
  rewrite Hlow.
  apply flat_next with (1, 0);
    [apply flat_next with (0, 0); [apply flat_seed; left; reflexivity|]|];
    apply in_flat_neighbours; repeat split; vm_compute; auto 10.
Defined.

(** In a run on grids of the same dimensions every low edge has the
    distance 1 towards, the distance 0 away and the mask 0. *)
Theorem low_edges_have_mask_zero
        elevations flowdirs flat_resolution_mask labels :
  same_dimensions elevations flowdirs ->
  exists r,
    resolve_flats_barnes elevations flowdirs flat_resolution_mask labels = Some r
    /\ forall c,
      In c (run_low_edges r) ->
      aget (run_towards r) c = 1 /\ aget (run_away r) c = 0
      /\ aget (run_mask r) c = 0.
Proof.
  intros Hd.
  destruct (resolve_flats_barnes_ok elevations flowdirs flat_resolution_mask
              labels Hd) as (r & Hrun & Hok).
  pose proof (run_more_holds _ _ _ _ _ Hd Hrun) as Hmore.
  exists r; split; [exact Hrun|]; intros c Hc.
  assert (Ht : aget (run_towards r) c = 1).
  { pose proof (rm_towards_min _ _ _ Hmore 0 c (dist_seed _ _ _ c Hc)); lia. }
  assert (Ha : aget (run_away r) c = 0).
  { pose proof (rm_away_nonneg _ _ _ Hmore c) as Hn.
    destruct (Z.eq_dec (aget (run_away r) c) 0) as [H | H]; [exact H|].
    exfalso.
    assert (Hflat : aget flowdirs c = NO_FLOW).
    { apply (flat_reach_no_flow elevations flowdirs (run_high_edges r)).
      - intros s Hs; apply (find_flat_edges_high flowdirs elevations).
        apply (ro_high _ _ _ Hok); exact Hs.
      - apply (ro_away _ _ _ Hok); lia. }
    rewrite (ro_low _ _ _ Hok) in Hc.
    apply find_flat_edges_low in Hc; destruct Hc as (_ & _ & Hdef & _).
    contradiction. }
  split; [exact Ht|]; split; [exact Ha|].
  rewrite (rm_mask_set _ _ _ Hmore c) by lia.
  rewrite Ht, Ha; reflexivity.
Qed.

Lemma low_edges_have_mask_zero_witness :
  exists r,
    resolve_flats_barnes ridge_elevations ridge_flowdirs blank blank = Some r
    /\ aget (run_mask r) (0, 0) = 0.
Proof.
  destruct (low_edges_have_mask_zero ridge_elevations ridge_flowdirs blank blank)
    as (r & Hrun & H); [split; reflexivity|].
  exists r; split; [exact Hrun|].
  assert (Hlow : option_map run_low_edges (Some r) = Some [(0, 0)])
    by (rewrite <- Hrun; vm_compute; reflexivity).
  injection Hlow as Hlow.
  apply H; rewrite Hlow; left; reflexivity.
Defined.

(** The guarantee of the header of the source: in a run on grids of the
    same dimensions, from every cell whose mask is set one can step from
    neighbour to neighbour, the mask strictly decreasing and staying set at
    every step, down to a low edge. *)
Theorem resolved_cells_drain
        elevations flowdirs flat_resolution_mask labels :
  same_dimensions elevations flowdirs ->
  exists r,
    resolve_flats_barnes elevations flowdirs flat_resolution_mask labels = Some r
    /\ forall c,
      aget (run_mask r) c <> -1 ->
      drains (run_mask r) (run_low_edges r) c.
Proof.
  intros Hd.
  destruct (resolve_flats_barnes_ok elevations flowdirs flat_resolution_mask
              labels Hd) as (r & Hrun & Hok).
  pose proof (run_more_holds _ _ _ _ _ Hd Hrun) as Hmore.
  pose proof (ro_labels _ _ _ Hok) as Hl.
  exists r; split; [exact Hrun|].
  assert (Hind : forall (n : nat) c,
             aget (run_towards r) c = Z.of_nat n + 1 ->
             drains (run_mask r) (run_low_edges r) c).
  { induction n as [|n IH]; intros c Hc.
    - apply drains_here.
      pose proof (rm_towards_dist _ _ _ Hmore c ltac:(lia)) as Hdist.
      remember (aget (run_towards r) c - 1) as d eqn:Hdef.
      destruct Hdist as [c Hseed | n0 p c Hp _]; [exact Hseed|].
      apply flat_dist_nonneg in Hp; lia.
    - pose proof (rm_towards_dist _ _ _ Hmore c ltac:(lia)) as Hdist.
      remember (aget (run_towards r) c - 1) as d eqn:Hdef.
      destruct Hdist as [c Hseed | n0 p c Hp Hstep]; [lia|].
      destruct (rm_towards_min _ _ _ Hmore n0 p Hp) as [Hpos Hle].
      pose proof (rm_towards_dist _ _ _ Hmore p Hpos) as Hdp.
      pose proof (rm_towards_min _ _ _ Hmore _ c
                    (dist_next _ _ _ _ _ _ Hdp Hstep)) as [_ Hup].
      assert (Htp : aget (run_towards r) p = Z.of_nat n + 1) by lia.
      assert (Hstep' := Hstep).
      apply in_flat_neighbours in Hstep'.
      destruct Hstep' as (Hnb & Hgc & He & Hflat).
      assert (Hcpos : 0 < aget (run_towards r) c) by lia.
      pose proof (run_mask_nonneg _ _ _ c Hok Hmore Hcpos) as Hmc.
      pose proof (run_mask_nonneg _ _ _ p Hok Hmore Hpos) as Hmp.
      destruct (flat_reach_labelled flowdirs elevations flowdirs (run_labels r)
                  (run_group_number r) (run_low_edges r) (run_low_edges r) p
                  Hl Hd (lab_seeds _ _ _ _ _ Hl) (ro_towards _ _ _ Hok p Hpos))
        as [Hgp Hlp].
      assert (Hlab : aget (run_labels r) c = aget (run_labels r) p).
      { apply (lab_closed _ _ _ _ _ Hl); [lia|].
        destruct Hd as [Hw Hh].
        rewrite (in_grid_same _ flowdirs) in Hgp, Hgc by assumption.
        repeat split; assumption. }
      apply drains_down with p.
      + apply neighbours_sym; exact Hnb.
      + split; [exact Hmp|].
        apply (mask_descent elevations flowdirs r Hd Hok c p); auto; try lia.
        apply neighbours_sym; exact Hnb.
      + apply IH; exact Htp. }
  intros c Hset.
  destruct (ro_mask _ _ _ Hok c) as [Hm | [Hpos _]]; [contradiction|].
  apply (Hind (Z.to_nat (aget (run_towards r) c - 1))); lia.
Qed.

Lemma resolved_cells_drain_witness :
  exists r,
    resolve_flats_barnes ridge_elevations ridge_flowdirs blank blank = Some r
    /\ drains (run_mask r) (run_low_edges r) (2, 0).
Proof.
  destruct (resolved_cells_drain ridge_elevations ridge_flowdirs blank blank)
    as (r & Hrun & H); [split; reflexivity|].
  exists r; split; [exact Hrun|].
  apply H.
  assert (Hm : option_map (fun r => aget (run_mask r) (2, 0)) (Some r) = Some 6)
    by (rewrite <- Hrun; vm_compute; reflexivity).
  injection Hm as ->; discriminate.
Defined.

(* ------------------------------------------------------------------ *)
(** ** The orchestrator: reports, labels and the case without high edges *)



(** The labels of a run on grids of the same dimensions are the numbers
    from 0 to [group_number - 1], each of them the label of a low edge;
    there are at most as many as low edges, and the run reports their
    number. *)
Theorem labels_count_the_regions
        elevations flowdirs flat_resolution_mask labels :
  same_dimensions elevations flowdirs ->
  exists r,
    resolve_flats_barnes elevations flowdirs flat_resolution_mask labels = Some r
    /\ 0 <= run_group_number r <= Z.of_nat (length (run_low_edges r))
    /\ (forall c, -1 <= aget (run_labels r) c < run_group_number r)
    /\ (forall i, 0 <= i < run_group_number r ->
                  exists s, In s (run_low_edges r) /\ aget (run_labels r) s = i)
    /\ (run_low_edges r <> [] ->
        In (FoundUniqueFlats (run_group_number r)) (run_report r)).
Proof.
  intros Hd.
  destruct (resolve_flats_barnes_ok elevations flowdirs flat_resolution_mask
              labels Hd) as (r & Hrun & Hok).
  pose proof (run_more_holds _ _ _ _ _ Hd Hrun) as Hmore.
  exists r; split; [exact Hrun|].
  split; [split; [apply Hok | apply Hmore]|].
  split; [apply (lab_range _ _ _ _ _ (ro_labels _ _ _ Hok))|].
  split; [apply (rm_dense _ _ _ Hmore) | apply (rm_found _ _ _ Hmore)].
Qed.

Lemma labels_count_the_regions_witness :
  exists r,
    resolve_flats_barnes sink_elevations sink_flowdirs blank blank = Some r
    /\ run_group_number r = 1.
Proof.
  destruct (labels_count_the_regions sink_elevations sink_flowdirs blank blank)
    as (r & Hrun & [H0 Hle] & Hrange & _); [split; reflexivity|].
  exists r; split; [exact Hrun|].
  assert (Hlow : option_map run_low_edges (Some r) = Some [(0, 0)])
    by (rewrite <- Hrun; vm_compute; reflexivity).
  injection Hlow as Hlow; rewrite Hlow in Hle; cbn in Hle.
  assert (Hl : option_map (fun r => aget (run_labels r) (0, 0)) (Some r) = Some 0)
    by (rewrite <- Hrun; vm_compute; reflexivity).
  injection Hl as Hl.
  specialize (Hrange (0, 0)); lia.
Defined.

Lemma find_flat_edges_high_iff f e c :
  In c (snd (find_flat_edges [] [] f e)) <-> is_high_edge f e c.
Proof.
  unfold find_flat_edges; rewrite visit_cells_filter; cbn [fst snd app].
  rewrite filter_In, in_cells; split.
  - intros [Hg Hp]; apply pushes_high_iff; assumption.
  - intros H; assert (Hg : in_grid f c = true) by apply H.
    split; [exact Hg | apply pushes_high_iff; assumption].
Qed.

Lemma no_flat_reach_without_seed e f c : ~ flat_reach e f [] c.
Proof. induction 1 as [c [] | ]; assumption. Qed.

(** A run on grids of the same dimensions reports "not all flats have
    outlets" exactly when it found a low edge and some high edge (a cell
    without flow direction below a neighbour) is joined to no low edge by a
    path of neighbours of equal elevation. *)
Theorem outlet_warning_iff
        elevations flowdirs flat_resolution_mask labels :
  same_dimensions elevations flowdirs ->
  exists r,
    resolve_flats_barnes elevations flowdirs flat_resolution_mask labels = Some r
    /\ (In NotAllFlatsHaveOutlets (run_report r) <->
        run_low_edges r <> []
        /\ exists c,
          is_high_edge flowdirs elevations c
          /\ ~ exists s, In s (run_low_edges r)
                         /\ level_reach flowdirs elevations s c).
Proof.
  intros Hd.
  destruct (resolve_flats_barnes_ok elevations flowdirs flat_resolution_mask
              labels Hd) as (r & Hrun & Hok).
  pose proof (run_more_holds _ _ _ _ _ Hd Hrun) as Hmore.
  pose proof (ro_labels _ _ _ Hok) as Hl.
  exists r; split; [exact Hrun|].
  rewrite (rm_warning _ _ _ Hmore).
  split; intros (Hlow & c & Hc & Hlab); (split; [exact Hlow|]); exists c.
  - split; [apply find_flat_edges_high_iff; exact Hc|].
    intros (s & Hs & Hreach).
    pose proof (lab_seeds _ _ _ _ _ Hl s Hs) as Hseed.
    rewrite <- (level_reach_labelled _ _ _ _ _ _ _ Hl Hseed Hreach) in Hseed.
    contradiction.
  - split; [apply find_flat_edges_high_iff; exact Hc|].
    destruct (Z.eq_dec (aget (run_labels r) c) (-1)) as [H | H]; [exact H|].
    destruct Hlab; apply (lab_from_seed _ _ _ _ _ Hl c H).
Qed.

Lemma outlet_warning_iff_witness :
  exists r,
    resolve_flats_barnes sink_elevations sink_flowdirs blank blank = Some r
    /\ In NotAllFlatsHaveOutlets (run_report r).
Proof.
  destruct (outlet_warning_iff sink_elevations sink_flowdirs blank blank)
    as (r & Hrun & H); [split; reflexivity|].
  exists r; split; [exact Hrun|].
  assert (Hlow : option_map run_low_edges (Some r) = Some [(0, 0)])
    by (rewrite <- Hrun; vm_compute; reflexivity).
  injection Hlow as Hlow.
  apply H; rewrite Hlow; split; [discriminate|].
  exists (3, 0); split.
  - unfold is_high_edge; repeat split; try (vm_compute; congruence).
    exists (2, 0); repeat split; vm_compute; auto 10; congruence.
  - intros (s & [<- | []] & Hreach).
    apply level_reach_elev in Hreach; vm_compute in Hreach; discriminate.
Defined.

(** When no high edge has a label (the flats that drain touch no higher
    cell), a run on grids of the same dimensions leaves the distances away
    at 0 and the mask of every resolved cell is twice its distance towards
    the low edges, less 2. *)
Theorem mask_without_high_edges
        elevations flowdirs flat_resolution_mask labels :
  same_dimensions elevations flowdirs ->
  exists r,
    resolve_flats_barnes elevations flowdirs flat_resolution_mask labels = Some r
    /\ (run_high_edges r = [] ->
        forall c,
          aget (run_away r) c = 0
          /\ (aget (run_mask r) c = -1
              \/ (0 < aget (run_towards r) c
                  /\ aget (run_mask r) c = 2 * (aget (run_towards r) c - 1)))).
Proof.
  intros Hd.
  destruct (resolve_flats_barnes_ok elevations flowdirs flat_resolution_mask
              labels Hd) as (r & Hrun & Hok).
  pose proof (run_more_holds _ _ _ _ _ Hd Hrun) as Hmore.
  exists r; split; [exact Hrun|].
  intros Hnone c.
  assert (Ha : aget (run_away r) c = 0).
  { pose proof (rm_away_nonneg _ _ _ Hmore c) as Hn.
    destruct (Z.eq_dec (aget (run_away r) c) 0) as [H | H]; [exact H|].
    exfalso; apply (no_flat_reach_without_seed elevations flowdirs c).
    rewrite <- Hnone; apply (ro_away _ _ _ Hok); lia. }
  split; [exact Ha|].
  destruct (ro_mask _ _ _ Hok c) as [Hm | [Hpos Hm]]; [left; exact Hm|].
  right; split; [exact Hpos|].
  rewrite Hm, Ha; reflexivity.
Qed.

Lemma mask_without_high_edges_witness :
  exists r,
    resolve_flats_barnes row_elevations row_flowdirs blank blank = Some r
    /\ aget (run_away r) (2, 0) = 0
    /\ (aget (run_mask r) (2, 0) = -1
        \/ (0 < aget (run_towards r) (2, 0)
            /\ aget (run_mask r) (2, 0) = 2 * (aget (run_towards r) (2, 0) - 1))).
Proof.
  destruct (mask_without_high_edges row_elevations row_flowdirs blank blank)
    as (r & Hrun & H); [split; reflexivity|].
  exists r; split; [exact Hrun|].
  apply H.
  assert (Hh : option_map run_high_edges (Some r) = Some [])
    by (rewrite <- Hrun; vm_compute; reflexivity).
  injection Hh as Hh; exact Hh.
Defined.

(** The run on the two flats: the flat of cells 0 and 1 is resolved, the
    high edge of the flat without outlet is dropped and the warning is
    reported. *)
Example sink_run_outcome :
  option_map
    (fun r => (run_low_edges r, run_high_edges r, run_report r,
               map (aget (run_mask r)) [(0, 0); (1, 0); (2, 0); (3, 0); (4, 0)]))
    (resolve_flats_barnes sink_elevations sink_flowdirs blank blank)
  = Some ([(0, 0)], [(1, 0)],
          [SearchingForFlats; LabelingFlats; FoundUniqueFlats 1;
           NotAllFlatsHaveOutlets; BarnesStep; BarnesStep; CombiningSteps],
          [0; 3; -1; -1; -1]).
Proof. vm_compute; reflexivity. Qed.

(** The height that [CombineGradients] reads for a cell with a positive
    distance away is the greatest distance away in the region of the cell:
    it is the distance of some cell with the same label and no cell with
    that label has a greater one. *)
Theorem flat_height_is_region_maximum
        elevations flowdirs flat_resolution_mask labels :
  same_dimensions elevations flowdirs ->
  exists r,
    resolve_flats_barnes elevations flowdirs flat_resolution_mask labels = Some r
    /\ forall c,
      0 < aget (run_away r) c ->
      (exists c', aget (run_labels r) c' = aget (run_labels r) c
                  /\ aget (run_away r) c'
                     = vec_get (run_flat_height r) (aget (run_labels r) c))
      /\ (forall c', aget (run_labels r) c' = aget (run_labels r) c ->
                     aget (run_away r) c'
                     <= vec_get (run_flat_height r) (aget (run_labels r) c)).
Proof.
  intros Hd.
  destruct (resolve_flats_barnes_ok elevations flowdirs flat_resolution_mask
              labels Hd) as (r & Hrun & Hok).
  pose proof (run_more_holds _ _ _ _ _ Hd Hrun) as Hmore.
  exists r; split; [exact Hrun|].
  intros c Hc; split; [apply (rm_height_attained _ _ _ Hmore c Hc)|].
  intros c' Hlab.
  pose proof (ro_away_height _ _ _ Hok c Hc) as Hb.
  destruct (Z.ltb_spec 0 (aget (run_away r) c')) as [Hpos | Hle]; [|lia].
  rewrite <- Hlab; apply (ro_away_height _ _ _ Hok c' Hpos).
Qed.

Lemma flat_height_is_region_maximum_witness :
  exists r,
    resolve_flats_barnes ridge_elevations ridge_flowdirs blank blank = Some r
    /\ aget (run_away r) (2, 0)
       <= vec_get (run_flat_height r) (aget (run_labels r) (1, 0)).
Proof.
  destruct (flat_height_is_region_maximum ridge_elevations ridge_flowdirs
              blank blank) as (r & Hrun & H); [split; reflexivity|].
  exists r; split; [exact Hrun|].
  assert (Hv : option_map (fun r => (aget (run_away r) (1, 0),
                                     aget (run_labels r) (1, 0),
                                     aget (run_labels r) (2, 0))) (Some r)
               = Some (2, 0, 0))
    by (rewrite <- Hrun; vm_compute; reflexivity).
  injection Hv as Ha Hl1 Hl2.
  destruct (H (1, 0)) as [_ Hmax]; [lia|].
  apply Hmax; congruence.
Defined.
